(** * combine_csv.py: column detection, session merge and name sanitisation

    A shallow embedding of [src/combine_csv.py].

    - Python [str] values are Rocq strings whose characters are the Unicode
      code points below 256; [lower], [strip] and the case-insensitive
      regular expressions of the source are exact on that range.
    - Exceptions are values of [exn], carried by the [result] monad.
    - A pandas [DataFrame] is a list of column labels (duplicates allowed, as
      in pandas) and a list of rows; the pandas primitives the source calls
      are modelled from the pandas documentation in [Module Pandas]. *)

From Stdlib Require Import List Bool Arith ZArith NArith Lia.
From Stdlib Require Import Ascii String.
From Stdlib Require Import DecimalString DecimalNat.
From Stdlib Require Import Permutation Sorted.
Import ListNotations.

Open Scope string_scope.
Open Scope list_scope.

(* ================================================================= *)
(** ** Python strings *)

Module PyStr.

Definition code (c : ascii) : N := N_of_ascii c.

Definition between (lo hi : N) (c : ascii) : bool :=
  (N.leb lo (code c) && N.leb (code c) hi)%bool.

(** [c.isupper()] for code points below 256: A-Z, and the Latin-1 capitals
    U+00C0..U+00DE except the multiplication sign U+00D7. *)
Definition is_upper (c : ascii) : bool :=
  between 65 90 c || (between 192 222 c && negb (N.eqb (code c) 215)).

Definition lower_char (c : ascii) : ascii :=
  if is_upper c then ascii_of_N (code c + 32) else c.

(** [s.lower()] *)
Fixpoint lower (s : string) : string :=
  match s with
  | EmptyString => EmptyString
  | String c t => String (lower_char c) (lower t)
  end.

(** [c.isspace()] for code points below 256. *)
Definition is_space (c : ascii) : bool :=
  between 9 13 c || between 28 32 c
  || N.eqb (code c) 133 || N.eqb (code c) 160.

Definition is_empty (s : string) : bool :=
  match s with EmptyString => true | String _ _ => false end.

Fixpoint lstrip (p : ascii -> bool) (s : string) : string :=
  match s with
  | EmptyString => EmptyString
  | String c t => if p c then lstrip p t else s
  end.

Fixpoint rstrip (p : ascii -> bool) (s : string) : string :=
  match s with
  | EmptyString => EmptyString
  | String c t =>
      let r := rstrip p t in
      if p c && is_empty r then EmptyString else String c r
  end.

(** [s.strip()] and [s.strip(chars)]: the characters to remove are given
    by the predicate [p]. *)
Definition strip (p : ascii -> bool) (s : string) : string :=
  lstrip p (rstrip p s).

(** [k in s] for strings: [k] occurs in [s] as a substring. *)
Fixpoint contains (k s : string) : bool :=
  match s with
  | EmptyString => prefix k EmptyString
  | String _ t => prefix k s || contains k t
  end.

(** [s.endswith(suf)] *)
Fixpoint endswith (s suf : string) : bool :=
  String.eqb s suf ||
  match s with
  | EmptyString => false
  | String _ t => endswith t suf
  end.

(** [sorted(names)]: insertion sort by code-point order, which is the
    order Python compares [str] values with. *)
Fixpoint insert_sorted (x : string) (l : list string) : list string :=
  match l with
  | [] => [x]
  | y :: l' => if String.leb x y then x :: l else y :: insert_sorted x l'
  end.

Definition sorted (l : list string) : list string :=
  fold_right insert_sorted [] l.

End PyStr.

(* ================================================================= *)
(** ** The regular expressions of the source *)

Module Re.
Import PyStr.

(** [re.search(pat, s, flags=re.I)] for a pattern that is a literal word. *)
Definition search_i (pat s : string) : bool :=
  contains (lower pat) (lower s).

(** [re.search("p1|p2|...", s, flags=re.I)] for literal alternatives. *)
Definition search_alt_i (pats : list string) (s : string) : bool :=
  existsb (fun p => search_i p s) pats.

Definition is_lower_alnum (c : ascii) : bool :=
  between 97 122 c || between 48 57 c.

(** The class [[a-z0-9_-]]. *)
Definition is_name_char (c : ascii) : bool :=
  is_lower_alnum c || N.eqb (code c) 95 || N.eqb (code c) 45.

Definition is_underscore (c : ascii) : bool := N.eqb (code c) 95.

(** [re.split(r"[sep]+", s)]: the pieces between the maximal runs of
    separator characters, empty pieces at the ends included. *)
Fixpoint split_runs (sep : ascii -> bool) (s : string)
         (cur : string) (in_sep : bool) : list string :=
  match s with
  | EmptyString => [cur]
  | String c t =>
      if sep c
      then if in_sep then split_runs sep t EmptyString true
           else cur :: split_runs sep t EmptyString true
      else split_runs sep t (cur ++ String c EmptyString) false
  end.

Definition split (sep : ascii -> bool) (s : string) : list string :=
  split_runs sep s EmptyString false.

(** [re.sub(r"[cls]+", "_", s)]: every maximal run of characters of the
    class is replaced by one underscore. [in_run] tells that the previous
    character belonged to the run being replaced. *)
Fixpoint sub_runs (cls : ascii -> bool) (s : string) (in_run : bool)
  : string :=
  match s with
  | EmptyString => EmptyString
  | String c t =>
      if cls c
      then if in_run then sub_runs cls t true
           else String "_" (sub_runs cls t true)
      else String c (sub_runs cls t false)
  end.

Definition sub_underscore (cls : ascii -> bool) (s : string) : string :=
  sub_runs cls s false.

End Re.

(* ================================================================= *)
(** ** Exceptions and Python dicts *)

(** [Dict[str, str]], in insertion order. *)
Definition dict := list (string * string).

Module Dict.

Fixpoint get (k : string) (d : dict) : option string :=
  match d with
  | [] => None
  | (k', v) :: d' => if String.eqb k k' then Some v else get k d'
  end.

(** [k in d] *)
Definition mem (k : string) (d : dict) : bool :=
  match get k d with Some _ => true | None => false end.

(** [d[k] = v]: an existing key keeps its place, a new one goes last. *)
Fixpoint set (k v : string) (d : dict) : dict :=
  match d with
  | [] => [(k, v)]
  | (k', v') :: d' =>
      if String.eqb k k' then (k, v) :: d' else (k', v') :: set k v d'
  end.

(** A dict display [{k1: v1, k2: v2, ...}]: a later entry with the same
    key replaces the earlier one. *)
Definition of_list (kvs : list (string * string)) : dict :=
  fold_left (fun d kv => set (fst kv) (snd kv) d) kvs [].

End Dict.

Inductive exn : Type :=
| IndexError
| KeyError (label : string)
| TypeError
| AxesNotFound (cols : list string) (found : dict)
    (* ValueError("Couldn't detect all axes in columns: {cols}. Found: {mapping}") *)
| LabelNotUnique (label : string).
    (* ValueError("The column label '...' is not unique.") *)

Inductive result (A : Type) : Type :=
| Ok (a : A)
| Raise (e : exn).
Arguments Ok {A} a.
Arguments Raise {A} e.

Definition bind {A B : Type} (r : result A) (k : A -> result B) : result B :=
  match r with
  | Ok a => k a
  | Raise e => Raise e
  end.

Notation "x <- c ;; k" := (bind c (fun x => k))
  (at level 61, c at next level, right associativity).

(* ================================================================= *)
(** ** File discovery: [find_sensor_files_in_session] *)

Definition ACCEL_KEYWORDS : list string := ["accelerometer"; "accel"].
Definition GYRO_KEYWORDS : list string := ["gyroscope"; "gyro"].

(** The part of the file system the function looks at. *)
Record filesystem : Type := {
  listdir : string -> list string;
  isfile : string -> bool
}.

(** [os.path.join(a, b)] on POSIX paths. *)
Definition path_join (a b : string) : string :=
  if prefix "/" b then b
  else if PyStr.is_empty a || PyStr.endswith a "/" then a ++ b
  else a ++ "/" ++ b.

Definition matches_keywords (kws : list string) (low : string) : bool :=
  PyStr.endswith low ".csv" && existsb (fun k => PyStr.contains k low) kws.

(** One iteration of the loop at lines 75-83. *)
Definition sensor_step (fs : filesystem) (session_dir : string)
           (st : option string * option string) (f : string)
  : option string * option string :=
  let p := path_join session_dir f in
  if negb (isfile fs p) then st
  else
    let low := PyStr.lower f in
    let accel := if matches_keywords ACCEL_KEYWORDS low then Some p else fst st in
    let gyro := if matches_keywords GYRO_KEYWORDS low then Some p else snd st in
    (accel, gyro).

Definition find_sensor_files_in_session (fs : filesystem) (session_dir : string)
  : option string * option string :=
  fold_left (sensor_step fs session_dir)
            (PyStr.sorted (listdir fs session_dir)) (None, None).

(** Truth value of an [Optional[str]]: [None] and the empty string are
    false. *)
Definition truthy (p : option string) : bool :=
  match p with
  | Some s => negb (PyStr.is_empty s)
  | None => false
  end.

(** The test at line 291 of [main]: the session is skipped. *)
Definition session_skipped (paths : option string * option string) : bool :=
  negb (truthy (fst paths)) || negb (truthy (snd paths)).

(* ================================================================= *)
(** ** Column detection *)

Definition TS_PATTERNS : list string :=
  ["time"; "timestamp"; "ts"; "seconds"; "sec"; "elapsed"].

(** The two nested loops at lines 89-92: the first column matching the
    first pattern that matches any column. *)
Fixpoint search_patterns (pats : list string) (cols : list string)
  : option string :=
  match pats with
  | [] => None
  | p :: ps =>
      match find (Re.search_i p) cols with
      | Some c => Some c
      | None => search_patterns ps cols
      end
  end.

Definition choose_timestamp_column (cols : list string) : result string :=
  match search_patterns TS_PATTERNS cols with
  | Some c => Ok c
  | None =>
      match cols with
      | c :: _ => Ok c
      | [] => Raise IndexError
      end
  end.

Definition AXES : list string := ["x"; "y"; "z"].

Definition TIME_LIKE : list string := ["time"; "timestamp"; "sec"; "elapsed"].

(** [tokens] at lines 108-109. *)
Definition tokens (low : string) : list string :=
  filter (fun t => negb (PyStr.is_empty t))
         (Re.split (fun c => negb (Re.is_lower_alnum c)) low).

Definition str_in_list (s : string) (l : list string) : bool :=
  existsb (String.eqb s) l.

(** Lines 104-112. *)
Definition token_step (mapping : dict) (col : string) : dict :=
  let low := PyStr.lower col in
  if Re.search_alt_i TIME_LIKE col then mapping
  else
    let toks := tokens low in
    fold_left
      (fun m axis =>
         if str_in_list axis toks && negb (Dict.mem axis m)
         then Dict.set axis col m else m)
      AXES mapping.

Definition token_pass (cols : list string) : dict :=
  fold_left token_step cols [].

(** Lines 114-118. *)
Definition suffix_axis (cols : list string) (mapping : dict) (axis : string)
  : dict :=
  if negb (Dict.mem axis mapping)
  then fold_left
         (fun m col =>
            if PyStr.endswith (PyStr.lower col) axis && negb (Dict.mem axis m)
            then Dict.set axis col m else m)
         cols mapping
  else mapping.

Definition suffix_pass (cols : list string) (mapping : dict) : dict :=
  fold_left (suffix_axis cols) AXES mapping.

(** Lines 120-124. *)
Definition exact_axis (cols : list string) (mapping : dict) (axis : string)
  : dict :=
  if negb (Dict.mem axis mapping)
  then fold_left
         (fun m col =>
            if String.eqb (PyStr.lower (PyStr.strip PyStr.is_space col)) axis
            then Dict.set axis col m else m)
         cols mapping
  else mapping.

Definition exact_pass (cols : list string) (mapping : dict) : dict :=
  fold_left (exact_axis cols) AXES mapping.

Definition all_passes (cols : list string) : dict :=
  exact_pass cols (suffix_pass cols (token_pass cols)).

Definition detect_xyz_columns (cols : list string) : result dict :=
  let mapping := all_passes cols in
  if negb (Nat.eqb (List.length mapping) 3)
  then Raise (AxesNotFound cols mapping)
  else Ok mapping.

(* ================================================================= *)
(** ** Name sanitisation: [sanitize_name] *)

Definition sanitize_name (name : string) : string :=
  if PyStr.is_empty name then EmptyString
  else
    let s := PyStr.lower (PyStr.strip PyStr.is_space name) in
    let s := Re.sub_underscore (fun c => negb (Re.is_name_char c)) s in
    let s := Re.sub_underscore Re.is_underscore s in
    PyStr.strip Re.is_underscore s.

(* ================================================================= *)
(** ** The pandas primitives used by [merge_session]

    Modelled from the pandas documentation:
    - [df.rename(columns=d)] relabels every column whose label is a key of
      [d]; rows are untouched.
    - [df[[l1, ..., ln]]] takes, for every requested label in turn, all the
      columns carrying it, and raises [KeyError] when a label is absent.
    - [pd.to_numeric(s, errors="coerce")] keeps numbers, parses text and
      turns what does not parse into NaN; it raises [TypeError] when its
      argument is not one-dimensional, which is what [df[label]] is when the
      label is carried by several columns.
    - [pd.merge(left, right, on=k, how="inner", sort=True)] keeps the pairs
      of rows with equal keys, ordered by key, the left order first and the
      right order second among equal keys. Two missing keys (NaN) are equal
      for the join: "if both key columns contain rows where the key is a null
      value, those rows will be matched against each other". Missing keys
      sort last. The label [k] must be carried by exactly one column on each
      side, and the right side is looked up first: [KeyError] when the label
      is absent, [ValueError] (the label is not unique) when several columns
      carry it. Other labels present on both sides get the suffixes [_x] and
      [_y].

    Numeric values are integers here: only their equality and order take
    part in the merge. pandas holds a numeric key column as int64, or as
    float64 once it has a missing value, and compares an int64 column with a
    float64 one as float64. On integers of absolute value at most [2^53],
    which float64 represents exactly, this is the equality and the order of
    the integers, as [cell_eqb] and [cell_leb] have them; beyond, float64
    rounds, and distinct integers can be equal keys. The properties of the
    join that compare numeric keys are therefore stated for timestamps that
    are exact in float64 ([exact_timestamps] below). *)

Module Pandas.

Inductive cell : Type :=
| Num (z : Z)
| Text (s : string)
| NaN.

Definition row := list cell.

Record DataFrame : Type := mkDF {
  columns : list string;
  rows : list row
}.

Definition cell_eqb (a b : cell) : bool :=
  match a, b with
  | Num x, Num y => Z.eqb x y
  | Text s, Text t => String.eqb s t
  | NaN, NaN => true
  | _, _ => false
  end.

(** Key order of a sorted merge: numbers by value, text by code points,
    missing keys last. *)
Definition cell_leb (a b : cell) : bool :=
  match a, b with
  | _, NaN => true
  | NaN, _ => false
  | Num x, Num y => Z.leb x y
  | Num _, Text _ => true
  | Text _, Num _ => false
  | Text s, Text t => String.leb s t
  end.

Fixpoint positions_from (i : nat) (l : string) (cols : list string)
  : list nat :=
  match cols with
  | [] => []
  | c :: cs =>
      if String.eqb c l then i :: positions_from (S i) l cs
      else positions_from (S i) l cs
  end.

(** The positions of the columns labelled [l], in increasing order. *)
Definition positions (l : string) (cols : list string) : list nat :=
  positions_from 0 l cols.

Definition key (i : nat) (r : row) : cell := nth i r NaN.

Definition take (idxs : list nat) (r : row) : row :=
  map (fun i => key i r) idxs.

Definition rename_label (d : dict) (c : string) : string :=
  match Dict.get c d with
  | Some c' => c'
  | None => c
  end.

(** [df.rename(columns=d)] *)
Definition rename (d : dict) (df : DataFrame) : DataFrame :=
  mkDF (map (rename_label d) (columns df)) (rows df).

Fixpoint locate (labels : list string) (cols : list string)
  : result (list nat) :=
  match labels with
  | [] => Ok []
  | l :: ls =>
      match positions l cols with
      | [] => Raise (KeyError l)
      | ps => rest <- locate ls cols ;; Ok (ps ++ rest)
      end
  end.

(** [df[[l1, ..., ln]]] *)
Definition getitem_list (labels : list string) (df : DataFrame)
  : result DataFrame :=
  idxs <- locate labels (columns df) ;;
  Ok (mkDF (map (fun i => nth i (columns df) EmptyString) idxs)
           (map (take idxs) (rows df))).

(** [pd.to_numeric(..., errors="coerce")] on one value; [parse] reads a
    number from text. *)
Definition to_numeric (parse : string -> option Z) (c : cell) : cell :=
  match c with
  | Num z => Num z
  | Text s => match parse s with Some z => Num z | None => NaN end
  | NaN => NaN
  end.

Fixpoint update_nth (i : nat) (f : cell -> cell) (r : row) : row :=
  match r, i with
  | [], _ => []
  | c :: t, O => f c :: t
  | c :: t, S j => c :: update_nth j f t
  end.

(** [df[label] = pd.to_numeric(df[label], errors="coerce")] *)
Definition coerce_column (parse : string -> option Z) (label : string)
           (df : DataFrame) : result DataFrame :=
  match positions label (columns df) with
  | [] => Raise (KeyError label)
  | [i] => Ok (mkDF (columns df)
                    (map (update_nth i (to_numeric parse)) (rows df)))
  | _ => Raise TypeError
  end.

Fixpoint remove_nth {A : Type} (i : nat) (l : list A) : list A :=
  match l, i with
  | [], _ => []
  | _ :: t, O => t
  | x :: t, S j => x :: remove_nth j t
  end.

Fixpoint insert_row (i : nat) (x : row) (l : list row) : list row :=
  match l with
  | [] => [x]
  | y :: l' =>
      if cell_leb (key i x) (key i y) then x :: l
      else y :: insert_row i x l'
  end.

(** Stable sort of the rows by the key in column [i]. *)
Definition sort_rows (i : nat) (l : list row) : list row :=
  fold_right (insert_row i) [] l.

(** The rows of the sorted inner join; the key column of the right side
    is not repeated. *)
Definition join_rows (i j : nat) (L R : list row) : list row :=
  flat_map
    (fun l =>
       map (fun r => l ++ remove_nth j r)
           (filter (fun r => cell_eqb (key i l) (key j r)) R))
    (sort_rows i L).

Definition suffixed (on suffix : string) (mine theirs : list string)
           (c : string) : string :=
  if String.eqb c on then c
  else if str_in_list c mine && str_in_list c theirs then c ++ suffix
  else c.

(** [pd.merge(left, right, on=on, how="inner", sort=True)] *)
Definition merge (left right : DataFrame) (on : string)
  : result DataFrame :=
  match positions on (columns right) with
  | [] => Raise (KeyError on)
  | [j] =>
      match positions on (columns left) with
      | [] => Raise (KeyError on)
      | [i] =>
          let lrest := remove_nth i (columns left) in
          let rrest := remove_nth j (columns right) in
          Ok (mkDF (map (suffixed on "_x" lrest rrest) (columns left)
                    ++ map (suffixed on "_y" rrest lrest) rrest)
                   (join_rows i j (rows left) (rows right)))
      | _ => Raise (LabelNotUnique on)
      end
  | _ => Raise (LabelNotUnique on)
  end.

(** The values of the first column labelled [l]. *)
Definition column_values (l : string) (df : DataFrame) : list cell :=
  match positions l (columns df) with
  | i :: _ => map (key i) (rows df)
  | [] => []
  end.

End Pandas.
Import Pandas.

(* ================================================================= *)
(** ** The session merge: [merge_session] *)

Definition OUTPUT_COLS : list string :=
  ["timestamp"; "accel_x"; "accel_y"; "accel_z"; "gyro_x"; "gyro_y"; "gyro_z"].

(** [d[k]] *)
Definition getitem (k : string) (d : dict) : result string :=
  match Dict.get k d with
  | Some v => Ok v
  | None => Raise (KeyError k)
  end.

(** Lines 151-154: rename the detected timestamp column when it is not the
    common one. *)
Definition unify_timestamp (ts common_ts : string) (df : DataFrame)
  : DataFrame :=
  if negb (String.eqb common_ts ts) then rename [(ts, common_ts)] df else df.

(** Lines 164-165 with [sensor = "accel"], lines 166-167 with
    [sensor = "gyro"]. *)
Definition select_axes (sensor common_ts : string) (m : dict) (df : DataFrame)
  : result DataFrame :=
  mx <- getitem "x" m ;;
  my <- getitem "y" m ;;
  mz <- getitem "z" m ;;
  sel <- getitem_list [common_ts; mx; my; mz] df ;;
  Ok (rename (Dict.of_list [(mx, (sensor ++ "_x")%string);
                            (my, (sensor ++ "_y")%string);
                            (mz, (sensor ++ "_z")%string)]) sel).

(** Lines 170-174: the second conversion is not reached when the first one
    raises, and an exception leaves the frames as they are at that point. *)
Definition coerce_timestamps (parse : string -> option Z) (common_ts : string)
           (a_sel g_sel : DataFrame) : DataFrame * DataFrame :=
  match coerce_column parse common_ts a_sel with
  | Ok a' =>
      match coerce_column parse common_ts g_sel with
      | Ok g' => (a', g')
      | Raise _ => (a', g_sel)
      end
  | Raise _ => (a_sel, g_sel)
  end.

(** Lines 180-186: name the key column [timestamp] and keep the output
    columns that are present, in the order of [OUTPUT_COLS]. *)
Definition order_columns (common_ts : string) (merged : DataFrame)
  : result DataFrame :=
  let merged :=
    if negb (String.eqb common_ts "timestamp")
    then rename [(common_ts, "timestamp")] merged else merged in
  let cols_present :=
    filter (fun c => str_in_list c (columns merged)) OUTPUT_COLS in
  getitem_list cols_present merged.

(** [merge_session] on the two frames read at lines 140-141. [parse] is the
    number syntax of [pd.to_numeric]. *)
Definition merge_session (parse : string -> option Z) (a g : DataFrame)
  : result DataFrame :=
  ts_a <- choose_timestamp_column (columns a) ;;
  ts_g <- choose_timestamp_column (columns g) ;;
  let common_ts := if String.eqb ts_a ts_g then ts_a else "timestamp" in
  let a := unify_timestamp ts_a common_ts a in
  let g := unify_timestamp ts_g common_ts g in
  am <- detect_xyz_columns (columns a) ;;
  gm <- detect_xyz_columns (columns g) ;;
  a_sel <- select_axes "accel" common_ts am a ;;
  g_sel <- select_axes "gyro" common_ts gm g ;;
  let (a_sel, g_sel) := coerce_timestamps parse common_ts a_sel g_sel in
  merged <- merge a_sel g_sel common_ts ;;
  order_columns common_ts merged.

(** The values of the detected timestamp column of an input frame. *)
Definition timestamp_values (df : DataFrame) : list cell :=
  match choose_timestamp_column (columns df) with
  | Ok ts => column_values ts df
  | Raise _ => []
  end.

(** A number syntax used in the examples: unsigned decimal integers. *)
Fixpoint parse_digits (acc : Z) (s : string) : option Z :=
  match s with
  | EmptyString => Some acc
  | String c t =>
      if PyStr.between 48 57 c
      then parse_digits (10 * acc + Z.of_N (PyStr.code c - 48)) t
      else None
  end.

Definition parse_decimal (s : string) : option Z :=
  if PyStr.is_empty s then None else parse_digits 0 s.

(* ================================================================= *)
(** ** Definitions used to state the properties *)

(** A column is a candidate for an axis when one of the three passes of
    [detect_xyz_columns] can assign it. *)
Definition axis_candidate (axis col : string) : bool :=
  (negb (Re.search_alt_i TIME_LIKE col)
   && str_in_list axis (tokens (PyStr.lower col)))
  || PyStr.endswith (PyStr.lower col) axis
  || String.eqb (PyStr.lower (PyStr.strip PyStr.is_space col)) axis.

(** The sanitisation as the specification words it: lowercase, replace
    every maximal run of characters outside [[a-z0-9_-]] by one underscore,
    collapse repeated underscores, strip underscores at both ends.
    [squeeze] writes the underscore when a run ends. *)
Fixpoint squeeze (cls : ascii -> bool) (s : string) : string :=
  match s with
  | EmptyString => EmptyString
  | String c t =>
      if cls c
      then match t with
           | EmptyString => "_"
           | String c' _ => if cls c' then squeeze cls t
                            else String "_" (squeeze cls t)
           end
      else String c (squeeze cls t)
  end.

Definition sanitize_name_spec (name : string) : string :=
  let lowered := PyStr.lower name in
  let replaced := squeeze (fun c => negb (Re.is_name_char c)) lowered in
  let collapsed := squeeze Re.is_underscore replaced in
  PyStr.rstrip Re.is_underscore (PyStr.lstrip Re.is_underscore collapsed).

Fixpoint all_chars (p : ascii -> bool) (s : string) : bool :=
  match s with
  | EmptyString => true
  | String c t => p c && all_chars p t
  end.

(** A sanitised token: characters of [[a-z0-9_-]] only, no two underscores
    in a row, no underscore at either end. *)
Definition is_token (t : string) : bool :=
  all_chars Re.is_name_char t
  && negb (PyStr.contains "__" t)
  && negb (prefix "_" t)
  && negb (PyStr.endswith t "_").

(** A file name the loop of [find_sensor_files_in_session] accepts for the
    keyword set [kws]. *)
Definition sensor_match (fs : filesystem) (session_dir : string)
           (kws : list string) (f : string) : bool :=
  isfile fs (path_join session_dir f)
  && matches_keywords kws (PyStr.lower f).

(** The keys of a dict, in insertion order. *)
Definition keys (d : dict) : list string := map fst d.

(** What every pass maintains: the keys are distinct axis letters, and each
    is mapped to a column of the table that is a candidate for it. *)
Definition axes_invariant (cols : list string) (m : dict) : Prop :=
  NoDup (keys m)
  /\ forall k v, Dict.get k m = Some v ->
                 In k AXES /\ In v cols /\ axis_candidate k v = true.

(** The class [[^a-z0-9_-]]. *)
Definition bad_char (c : ascii) : bool := negb (Re.is_name_char c).

(** The three steps of [sanitize_name] after lowercasing. *)
Definition scrub (u : string) : string :=
  PyStr.strip Re.is_underscore
    (Re.sub_underscore Re.is_underscore (Re.sub_underscore bad_char u)).

(** The order of [sorted] on file names. *)
Definition str_le (a b : string) : Prop := String.leb a b = true.

(** A session directory with one file for both keyword sets. *)
Definition example_fs : filesystem :=
  {| listdir := fun _ => ["notes.txt"; "Gyro_Accel.CSV"; "Accelerometer.csv"];
     isfile := fun _ => true |}.

(** The order of the merge keys. *)
Definition cell_le (a b : cell) : Prop := cell_leb a b = true.

Definition cell_eq_dec (a b : cell) : {a = b} + {a <> b}.
Proof. decide equality; [apply Z.eq_dec | apply string_dec]. Defined.

(** Rows compared by their key in column [i]. *)
Definition row_le (i : nat) (a b : row) : Prop := cell_le (key i a) (key i b).

(** The right rows whose key in column [j] is [k]. *)
Definition matching (j : nat) (k : cell) (R : list row) : list row :=
  filter (fun r => cell_eqb k (key j r)) R.

(** The dict display of lines 165 and 167. *)
Definition axis_labels (mx my mz sx sy sz : string) : dict :=
  Dict.of_list [(mx, sx); (my, sy); (mz, sz)].

(** No output column of a sensor is a candidate for another axis. *)
Definition sensor_ok (sensor : string) : bool :=
  negb (axis_candidate "x" (sensor ++ "_y"))
  && negb (axis_candidate "x" (sensor ++ "_z"))
  && negb (axis_candidate "y" (sensor ++ "_x"))
  && negb (axis_candidate "y" (sensor ++ "_z"))
  && negb (axis_candidate "z" (sensor ++ "_x"))
  && negb (axis_candidate "z" (sensor ++ "_y")).

(** The labels of a frame after [unify_timestamp]. *)
Definition unify_columns (ts common_ts : string) (cols : list string)
  : list string :=
  if negb (String.eqb common_ts ts)
  then map (rename_label [(ts, common_ts)]) cols else cols.

(** The column labels of the two tables let [merge_session] go through: it
    returns on the two tables emptied of their rows. This contains that
    timestamp and axis detection succeed on both tables and that the
    selected labels do not collide. *)
Definition schema_merges (parse : string -> option Z) (ca cg : list string)
  : Prop :=
  exists m0, merge_session parse (mkDF ca []) (mkDF cg []) = Ok m0.

(** The timestamps as the join compares them. *)
Definition numeric_timestamps (parse : string -> option Z) (df : DataFrame)
  : list cell :=
  map (to_numeric parse) (timestamp_values df).

(** The rows of one side when the merge is reached: the selected columns,
    the first of them made numeric. *)
Definition side (parse : string -> option Z) (idxs : list nat)
           (rs : list row) : list row :=
  map (update_nth 0 (to_numeric parse)) (map (take idxs) rs).

(** A missing value. *)
Definition is_nan (c : cell) : bool :=
  match c with
  | NaN => true
  | _ => false
  end.

(** The row [r] of a table with the columns [cols] has a missing value in
    the column labelled [label]. *)
Definition null_at (label : string) (cols : list string) (r : row) : bool :=
  existsb is_nan (column_values label (mkDF cols [r])).

(** The timestamp of the row [r] of an input table with the columns [cols]
    is missing once made numeric: it was missing, or it fails the
    coercion. *)
Definition null_timestamp (parse : string -> option Z) (cols : list string)
           (r : row) : bool :=
  existsb is_nan (numeric_timestamps parse (mkDF cols [r])).

(** The rows of an input table whose timestamp is missing once made
    numeric, in the order of the table. *)
Definition null_rows (parse : string -> option Z) (df : DataFrame)
  : list row :=
  filter (null_timestamp parse (columns df)) (rows df).

(** What [merge_session] makes of one accelerometer row and one gyroscope
    row taken alone: the rows of the merge of the two one-row tables. *)
Definition pair_rows (parse : string -> option Z) (ca cg : list string)
           (l r : row) : list row :=
  match merge_session parse (mkDF ca [l]) (mkDF cg [r]) with
  | Ok m => rows m
  | Raise _ => []
  end.

(** The rows of [ra] and of [rg] merged one pair at a time, in the order of
    [ra], then of [rg]. *)
Definition pairwise (parse : string -> option Z) (ca cg : list string)
           (ra rg : list row) : list row :=
  flat_map (fun l => flat_map (pair_rows parse ca cg l) rg) ra.

(** The integers float64 represents exactly whatever their neighbours:
    those of absolute value at most [2^53]. *)
Definition float64_exact (c : cell) : bool :=
  match c with
  | Num z => Z.leb (Z.abs z) (2 ^ 53)
  | _ => true
  end.

(** The numeric timestamps of the table are exact in float64: the join
    compares them as the integers they are, whether pandas holds the column
    as int64 or as float64. *)
Definition exact_timestamps (parse : string -> option Z) (df : DataFrame)
  : Prop :=
  forallb float64_exact (numeric_timestamps parse df) = true.

(** Example tables. *)

Definition accel_123 : DataFrame :=
  mkDF ["time"; "ax"; "ay"; "az"]
       [[Num 3; Num 30; Num 31; Num 32];
        [Num 1; Num 10; Num 11; Num 12];
        [Num 2; Num 20; Num 21; Num 22]].

Definition gyro_234 : DataFrame :=
  mkDF ["seconds_elapsed"; "gz"; "gy"; "gx"]
       [[Num 4; Num 43; Num 42; Num 41];
        [Num 2; Num 23; Num 22; Num 21];
        [Num 3; Num 33; Num 32; Num 31]].

Definition accel_text : DataFrame :=
  mkDF ["timestamp"; "x"; "y"; "z"]
       [[Text "1"; Num 10; Num 11; Num 12];
        [Text "abc"; Num 20; Num 21; Num 22]].

Definition gyro_text : DataFrame :=
  mkDF ["timestamp"; "x"; "y"; "z"]
       [[Text "bad"; Num 40; Num 41; Num 42];
        [Text "2"; Num 50; Num 51; Num 52]].

Definition accel_abc : DataFrame :=
  mkDF ["timestamp"; "x"; "y"; "z"] [[Text "abc"; Num 1; Num 2; Num 3]].

Definition gyro_def : DataFrame :=
  mkDF ["timestamp"; "x"; "y"; "z"] [[Text "def"; Num 4; Num 5; Num 6]].

(** The separators of [tokens]: the class [[^a-z0-9]]. *)
Definition is_sep (c : ascii) : bool := negb (Re.is_lower_alnum c).

(** A whitespace character or one of the axis letters. *)
Definition space_or_axis (c : ascii) : bool :=
  PyStr.is_space c || PyStr.between 120 122 c.

Definition nonempty (t : string) : bool := negb (PyStr.is_empty t).

(** Lines 330-333 of [main]: the name of the combined file of an activity;
    an empty [name_token] gives no prefix. *)
Definition output_name (name_token activity_name : string) : string :=
  if negb (PyStr.is_empty name_token)
  then (name_token ++ "_" ++ activity_name ++ "_combined.csv")%string
  else (activity_name ++ "_combined.csv")%string.

(** The class [[a-z0-9-]]: the characters [sanitize_name] keeps and never
    strips. *)
Definition is_word_char (c : ascii) : bool :=
  Re.is_lower_alnum c || N.eqb (PyStr.code c) 45.

Fixpoint any_char (p : ascii -> bool) (s : string) : bool :=
  match s with
  | EmptyString => false
  | String c t => p c || any_char p t
  end.

(* ================================================================= *)
(** ** Paths and free file names: [make_unique_path], [unique_target_path]

    [os.path.basename] and [os.path.splitext] are modelled from the POSIX
    implementation of the Python library: the base name is what follows the
    last [/]; the extension starts at the last dot of the base name, unless
    only dots come before it. *)

(** The text before and after the last occurrence of [ch]. *)
Fixpoint rsplit_char (ch : ascii) (s : string) : option (string * string) :=
  match s with
  | EmptyString => None
  | String c t =>
      match rsplit_char ch t with
      | Some (before, after) => Some (String c before, after)
      | None => if Ascii.eqb c ch then Some (EmptyString, t) else None
      end
  end.

(** [os.path.basename(p)] *)
Definition basename (p : string) : string :=
  match rsplit_char "/" p with
  | Some (_, after) => after
  | None => p
  end.

(** What [basename] leaves out, the last [/] included. *)
Definition dirpart (p : string) : string :=
  match rsplit_char "/" p with
  | Some (before, _) => (before ++ "/")%string
  | None => EmptyString
  end.

Definition is_dot (c : ascii) : bool := Ascii.eqb c ".".

(** [os.path.splitext(p)] *)
Definition splitext (p : string) : string * string :=
  match rsplit_char "." (basename p) with
  | Some (pre, suf) =>
      if all_chars is_dot pre then (p, EmptyString)
      else ((dirpart p ++ pre)%string, String "." suf)
  | None => (p, EmptyString)
  end.

(** [str(idx)] for a natural number. *)
Definition str_of_nat (n : nat) : string :=
  NilEmpty.string_of_uint (Nat.to_uint n).

(** [f"{base}_{idx}{ext}"] *)
Definition numbered (base ext : string) (idx : nat) : string :=
  (base ++ "_" ++ str_of_nat idx ++ ext)%string.

(** The loop [while os.path.exists(candidate): idx += 1; candidate = ...],
    entered with the candidate of [idx] already built. [fuel] bounds the
    number of tests; [None] is a loop that has not ended within it. *)
Fixpoint first_free (path_exists : string -> bool) (candidate : nat -> string)
         (fuel idx : nat) : option string :=
  match fuel with
  | O => None
  | S fuel' =>
      if path_exists (candidate idx)
      then first_free path_exists candidate fuel' (S idx)
      else Some (candidate idx)
  end.

(** [make_unique_path] of [combine_csv.py], lines 190-199. *)
Definition make_unique_path (path_exists : string -> bool) (path : string)
           (overwrite : bool) (fuel : nat) : option string :=
  if overwrite || negb (path_exists path) then Some path
  else
    let (base, ext) := splitext path in
    first_free path_exists (numbered base ext) fuel 1.

(** The candidates of [unique_target_path]: the base name itself, then the
    numbered names, each joined to the destination directory. *)
Definition target_candidate (dest_dir basename_ : string) (idx : nat)
  : string :=
  match idx with
  | O => path_join dest_dir basename_
  | S _ =>
      let (base, ext) := splitext basename_ in
      path_join dest_dir (numbered base ext idx)
  end.

(** [unique_target_path] of [extract_from_zip.py], lines 76-91. *)
Definition unique_target_path (path_exists : string -> bool)
           (dest_dir basename_ : string) (overwrite : bool) (fuel : nat)
  : option string :=
  if overwrite then Some (path_join dest_dir basename_)
  else first_free path_exists (target_candidate dest_dir basename_) fuel 0.

(** The file system holds finitely many paths, all in [l]. *)
Definition finite_fs (path_exists : string -> bool) (l : list string) : Prop :=
  forall p, path_exists p = true -> In p l.

(** A directory that already holds the combined file of an activity and
    its first numbered copy. *)
Definition example_exists (p : string) : bool :=
  str_in_list p ["out/walking_combined.csv"; "out/walking_combined_1.csv"].

(* ================================================================= *)
(** ** Directory listings: [find_activities], [find_session_dirs] *)

(** What the two functions ask the file system: the entries of a directory
    ([None] when [os.listdir] raises) and whether a path is a directory. *)
Record dirtree : Type := {
  dir_entries : string -> option (list string);
  is_dir : string -> bool
}.

(** Lines 45-52; [None] is the exception of [os.listdir]. *)
Definition find_activities (tree : dirtree) (source_root : string)
  : option (list string) :=
  match dir_entries tree source_root with
  | None => None
  | Some entries =>
      Some (filter (is_dir tree)
                   (map (path_join source_root) (PyStr.sorted entries)))
  end.

(** Lines 55-65. *)
Definition find_session_dirs (tree : dirtree)
           (activity_dir extracted_subdir : string) : option (list string) :=
  let extracted_dir := path_join activity_dir extracted_subdir in
  if negb (is_dir tree extracted_dir) then Some []
  else
    match dir_entries tree extracted_dir with
    | None => None
    | Some entries =>
        Some (filter (is_dir tree)
                     (map (path_join extracted_dir) (PyStr.sorted entries)))
    end.

(** Every directory can be listed. *)
Definition listable (tree : dirtree) : Prop :=
  forall d, is_dir tree d = true -> dir_entries tree d <> None.

(* ================================================================= *)
(** ** Archives: [extract_from_zip.py] *)

Definition SENSOR_BASENAMES : list string :=
  ["accelerometer.csv"; "gyroscope.csv"].

(** Line 30-31. *)
Definition normalize_basename (path : string) : string :=
  PyStr.lower (PyStr.strip PyStr.is_space (basename path)).

Inductive zip_error : Type :=
| BadZip (zip_path : string)
    (* ValueError("Bad or unsupported zip file: ...") *)
| ExtractFailed (entry zip_path : string).
    (* RuntimeError("Failed to extract ... from ...") *)

(** [ZipInfo.is_dir()]: the entry name ends with a slash. *)
Definition entry_is_dir (filename : string) : bool :=
  PyStr.endswith filename "/".

(** Lines 50-62. [infolist] holds the entry names of the archive in archive
    order, or [None] when opening it raises [BadZipFile]. *)
Definition find_sensor_entries_in_zip (zip_path : string)
           (infolist : option (list string)) : zip_error + list string :=
  match infolist with
  | None => inl (BadZip zip_path)
  | Some names =>
      inr (filter
             (fun filename =>
                negb (entry_is_dir filename)
                && str_in_list (normalize_basename filename) SENSOR_BASENAMES)
             names)
  end.

(** The characters other than the path separator. *)
Definition not_slash (c : ascii) : bool := negb (Ascii.eqb c "/").

(** The paths that exist, as far as the extraction is concerned. *)
Definition fs_paths := list string.

(** [os.path.exists(p)] *)
Definition fs_exists (fs : fs_paths) (p : string) : bool := str_in_list p fs.

(** The three ways lines 109-110 can end: the entry is copied; the copy
    fails before the target is opened for writing; it fails after, the
    target then exists. *)
Inductive copy_outcome : Type :=
| Copied
| FailedUntouched
| FailedCreated.

(** [used.get(k, 0)] and [used[k] = v] for the dict of line 101. *)
Fixpoint used_get (k : string) (used : list (string * nat)) : nat :=
  match used with
  | [] => 0
  | (k', v) :: rest => if String.eqb k k' then v else used_get k rest
  end.

Fixpoint used_set (k : string) (v : nat) (used : list (string * nat))
  : list (string * nat) :=
  match used with
  | [] => [(k, v)]
  | (k', v') :: rest =>
      if String.eqb k k' then (k, v) :: rest else (k', v') :: used_set k v rest
  end.

(** What a run of a loop can be: it ends with a value, or an inner [while]
    loop has not ended within the fuel. *)
Inductive run (A : Type) : Type :=
| Ended (a : A)
| OutOfFuel.
Arguments Ended {A} a.
Arguments OutOfFuel {A}.

(** The loop of lines 102-113, from a given state of the file system, of
    [used] and of [extracted]. The result is the list of extracted paths or
    the [RuntimeError], with the paths that exist afterwards. *)
Fixpoint extract_loop (copy : fs_paths -> string -> string -> copy_outcome)
         (zip_path dest_dir : string) (overwrite : bool) (fuel : nat)
         (entries : list string) (fs : fs_paths)
         (used : list (string * nat)) (extracted : list string)
  : run ((zip_error + list string) * fs_paths) :=
  match entries with
  | [] => Ended (inr extracted, fs)
  | entry :: rest =>
      let orig_basename := basename entry in
      match unique_target_path (fs_exists fs) dest_dir orig_basename
                               overwrite fuel with
      | None => OutOfFuel
      | Some target =>
          let used :=
            used_set orig_basename (used_get orig_basename used + 1) used in
          match copy fs entry target with
          | Copied =>
              extract_loop copy zip_path dest_dir overwrite fuel rest
                           (target :: fs) used (extracted ++ [target])
          | FailedUntouched =>
              Ended (inl (ExtractFailed entry zip_path), fs)
          | FailedCreated =>
              Ended (inl (ExtractFailed entry zip_path), target :: fs)
          end
      end
  end.

(** [extract_entries_from_zip], lines 94-114, on an archive that opens. *)
Definition extract_entries_from_zip
           (copy : fs_paths -> string -> string -> copy_outcome)
           (zip_path : string) (entries : list string) (dest_dir : string)
           (overwrite : bool) (fuel : nat) (fs : fs_paths)
  : run ((zip_error + list string) * fs_paths) :=
  extract_loop copy zip_path dest_dir overwrite fuel entries fs [] [].

(** [list_zip_files_in_dir], lines 34-47. [walk] gives, for the recursive
    search, the directories under the source and their files, in the order
    of [os.walk]. *)
Definition is_zip_name (f : string) : bool :=
  PyStr.endswith (PyStr.lower f) ".zip".

Definition list_zip_files_in_dir (fs : filesystem)
           (walk : string -> list (string * list string))
           (source_dir : string) (recursive : bool) : list string :=
  if recursive
  then flat_map
         (fun root_files =>
            map (path_join (fst root_files))
                (filter is_zip_name (PyStr.sorted (snd root_files))))
         (walk source_dir)
  else map (path_join source_dir)
           (filter (fun entry => isfile fs (path_join source_dir entry)
                                 && is_zip_name entry)
                   (PyStr.sorted (listdir fs source_dir))).

(** [prepare_dest_for_zip], lines 65-73. [makedirs] is the effect of
    [os.makedirs(dest_dir, exist_ok=True)] on the existing paths, [None]
    when it raises. *)
Definition prepare_dest_for_zip
           (makedirs : fs_paths -> string -> option fs_paths)
           (fs : fs_paths) (dest_base zip_path : string)
  : option (string * fs_paths) :=
  let zip_basename := fst (splitext (basename zip_path)) in
  let dest_dir := path_join dest_base zip_basename in
  match makedirs fs dest_dir with
  | None => None
  | Some fs' => Some (dest_dir, fs')
  end.

Definition is_nil {A : Type} (l : list A) : bool :=
  match l with [] => true | _ :: _ => false end.

(** The loop of [process_all_zips], lines 129-159. [archives] gives the
    entry names of an archive, [None] for one that cannot be opened. The
    value is the pair (processed, extracted), or [None] for the exception of
    [os.makedirs], which the loop does not catch. *)
Fixpoint process_loop (archives : string -> option (list string))
         (makedirs : fs_paths -> string -> option fs_paths)
         (copy : fs_paths -> string -> string -> copy_outcome)
         (dest_base : string) (list_only overwrite : bool) (fuel : nat)
         (zip_files : list string) (fs : fs_paths)
         (processed total_extracted : nat)
  : run (option (nat * nat) * fs_paths) :=
  match zip_files with
  | [] => Ended (Some (processed, total_extracted), fs)
  | zf :: rest =>
      let processed := processed + 1 in
      match find_sensor_entries_in_zip zf (archives zf) with
      | inl _ =>
          process_loop archives makedirs copy dest_base list_only overwrite
                       fuel rest fs processed total_extracted
      | inr matches =>
          if is_nil matches
          then process_loop archives makedirs copy dest_base list_only
                            overwrite fuel rest fs processed total_extracted
          else
            match prepare_dest_for_zip makedirs fs dest_base zf with
            | None => Ended (None, fs)
            | Some (dest_dir, fs1) =>
                if list_only
                then process_loop archives makedirs copy dest_base list_only
                                  overwrite fuel rest fs1 processed
                                  total_extracted
                else
                  match extract_entries_from_zip copy zf matches dest_dir
                                                 overwrite fuel fs1 with
                  | OutOfFuel => OutOfFuel
                  | Ended (inr extracted, fs2) =>
                      process_loop archives makedirs copy dest_base list_only
                                   overwrite fuel rest fs2 processed
                                   (total_extracted + List.length extracted)
                  | Ended (inl _, fs2) =>
                      process_loop archives makedirs copy dest_base list_only
                                   overwrite fuel rest fs2 processed
                                   total_extracted
                  end
            end
      end
  end.

(** [process_all_zips], lines 117-161; [fs] is the set of paths that exist
    when it is called. *)
Definition process_all_zips (listing : filesystem)
           (walk : string -> list (string * list string))
           (archives : string -> option (list string))
           (makedirs : fs_paths -> string -> option fs_paths)
           (copy : fs_paths -> string -> string -> copy_outcome)
           (source_dir dest_base : string)
           (recursive list_only overwrite : bool) (fuel : nat) (fs : fs_paths)
  : run (option (nat * nat) * fs_paths) :=
  let zip_files := list_zip_files_in_dir listing walk source_dir recursive in
  if is_nil zip_files then Ended (Some (0, 0), fs)
  else process_loop archives makedirs copy dest_base list_only overwrite fuel
                    zip_files fs 0 0.

(** The sensor entries of an archive, none for one that cannot be opened. *)
Definition sensor_entries (archives : string -> option (list string))
           (zf : string) : list string :=
  match find_sensor_entries_in_zip zf (archives zf) with
  | inl _ => []
  | inr matches => matches
  end.

(* ================================================================= *)
(** * Properties *)

(** ** Generic list facts *)

Lemma filter_map_comm {A B : Type} (P : B -> bool) (f : A -> B) l :
  filter P (map f l) = map f (filter (fun x => P (f x)) l).
Proof.
  induction l as [|x l IH]; simpl; auto.
  destruct (P (f x)); simpl; now rewrite IH.
Qed.

Lemma find_split {A : Type} (f : A -> bool) (l : list A) (x : A) :
  find f l = Some x ->
  exists pre post,
    l = pre ++ x :: post /\ (forall y, In y pre -> f y = false) /\ f x = true.
Proof.
  induction l as [|a l IH]; simpl; intros H; [discriminate|].
  destruct (f a) eqn:Fa.
  - injection H as ->. exists [], l. repeat split; auto. intros y [].
  - destruct (IH H) as (pre & post & -> & Hpre & Hx).
    exists (a :: pre), post. repeat split; auto.
    intros y [<-|Hy]; auto.
Qed.

Lemma find_first {A : Type} (f : A -> bool) (pre post : list A) (x : A) :
  (forall y, In y pre -> f y = false) -> f x = true ->
  find f (pre ++ x :: post) = Some x.
Proof.
  induction pre as [|a pre IH]; simpl; intros Hpre Hx.
  - now rewrite Hx.
  - rewrite (Hpre a (or_introl eq_refl)). apply IH; auto.
Qed.

Lemma find_none_iff {A : Type} (f : A -> bool) (l : list A) :
  find f l = None <-> forall y, In y l -> f y = false.
Proof.
  split.
  - apply find_none.
  - induction l as [|a l IH]; simpl; intros H; auto.
    rewrite (H a (or_introl eq_refl)). apply IH. auto.
Qed.

(** ** [choose_timestamp_column] *)

Lemma search_patterns_In pats cols c :
  search_patterns pats cols = Some c -> In c cols.
Proof.
  induction pats as [|p ps IH]; simpl; [discriminate|].
  destruct (find (Re.search_i p) cols) eqn:F.
  - intros [= ->]. now apply find_some in F.
  - exact IH.
Qed.

Lemma search_i_timestamp_time : Re.search_i "time" "timestamp" = true.
Proof. reflexivity. Qed.

(** The first pattern, [time], decides as soon as one column contains it. *)
Lemma choose_first_time_column pre c post :
  (forall c', In c' pre -> Re.search_i "time" c' = false) ->
  Re.search_i "time" c = true ->
  choose_timestamp_column (pre ++ c :: post) = Ok c.
Proof.
  intros Hpre Hc. unfold choose_timestamp_column, TS_PATTERNS.
  cbn [search_patterns]. now rewrite (find_first _ pre post c Hpre Hc).
Qed.

(** C3, as the code has it: with a column literally named [timestamp] in the
    table, [choose_timestamp_column] returns the first column, in declared
    order, whose name contains [time] without regard to case; this is the
    column [timestamp] whenever no column before it contains [time]. *)
Theorem choose_timestamp_column_timestamp :
  forall cols : list string,
    In "timestamp" cols ->
    (exists pre c post,
        cols = pre ++ c :: post
        /\ (forall c', In c' pre -> Re.search_i "time" c' = false)
        /\ Re.search_i "time" c = true
        /\ choose_timestamp_column cols = Ok c)
    /\ (forall pre post,
           cols = pre ++ "timestamp" :: post ->
           (forall c', In c' pre -> Re.search_i "time" c' = false) ->
           choose_timestamp_column cols = Ok "timestamp").
Proof.
  intros cols Hin. split.
  - destruct (find (Re.search_i "time") cols) as [c|] eqn:F.
    + destruct (find_split _ _ _ F) as (pre & post & -> & Hpre & Hc).
      exists pre, c, post. repeat split; auto.
      now apply choose_first_time_column.
    + rewrite find_none_iff in F. specialize (F _ Hin).
      rewrite search_i_timestamp_time in F. discriminate.
  - intros pre post -> Hpre.
    apply choose_first_time_column; auto.
Qed.

Lemma choose_timestamp_column_timestamp_witness :
  In "timestamp" ["id"; "timestamp"; "x"]
  /\ choose_timestamp_column ["id"; "timestamp"; "x"] = Ok "timestamp".
Proof.
  split; [simpl; auto|].
  apply (proj2 (choose_timestamp_column_timestamp ["id"; "timestamp"; "x"]
                  (or_intror (or_introl eq_refl))) ["id"] ["x"] eq_refl).
  intros c' [<-|[]]. reflexivity.
Defined.

(** C3 as stated fails: a column named [datetime] placed before
    [timestamp] is returned instead. *)
Lemma choose_timestamp_column_datetime_first :
  In "timestamp" ["datetime"; "timestamp"]
  /\ choose_timestamp_column ["datetime"; "timestamp"] = Ok "datetime"
  /\ choose_timestamp_column ["datetime"; "timestamp"] <> Ok "timestamp".
Proof.
  repeat split; [simpl; auto | discriminate].
Qed.

(** C8: on a table with at least one column [choose_timestamp_column]
    returns the name of one of its columns; on a table without columns the
    fallback [df.columns[0]] raises [IndexError]. *)
Theorem choose_timestamp_column_total_on_nonempty :
  (forall cols : list string,
      cols <> [] ->
      exists c, choose_timestamp_column cols = Ok c /\ In c cols)
  /\ choose_timestamp_column [] = Raise IndexError.
Proof.
  split; [|reflexivity].
  intros cols Hne. unfold choose_timestamp_column.
  destruct (search_patterns TS_PATTERNS cols) as [c|] eqn:S.
  - exists c. split; auto. eapply search_patterns_In; eauto.
  - destruct cols as [|c cs]; [contradiction|].
    exists c. split; simpl; auto.
Qed.

Lemma choose_timestamp_column_total_on_nonempty_witness :
  ["a"; "b"] <> []
  /\ exists c, choose_timestamp_column ["a"; "b"] = Ok c /\ In c ["a"; "b"].
Proof.
  split; [discriminate|].
  apply (proj1 choose_timestamp_column_total_on_nonempty ["a"; "b"]).
  discriminate.
Defined.

(** ** Python dicts *)

Lemma get_set_same k v d : Dict.get k (Dict.set k v d) = Some v.
Proof.
  induction d as [|[k' v'] d IH]; simpl.
  - now rewrite String.eqb_refl.
  - destruct (String.eqb k k') eqn:E; simpl; rewrite ?String.eqb_refl; auto.
    now rewrite E.
Qed.

Lemma get_set_other k k' v d :
  k <> k' -> Dict.get k' (Dict.set k v d) = Dict.get k' d.
Proof.
  intros Hne. induction d as [|[k0 v0] d IH]; simpl.
  - destruct (String.eqb_spec k' k); congruence.
  - destruct (String.eqb_spec k k0) as [->|Hk]; simpl.
    + destruct (String.eqb_spec k' k0); congruence.
    + destruct (String.eqb_spec k' k0); auto.
Qed.

Lemma get_None_keys k d : Dict.get k d = None <-> ~ In k (keys d).
Proof.
  induction d as [|[k' v'] d IH]; simpl; [tauto|].
  destruct (String.eqb_spec k k') as [->|Hk].
  - split; [discriminate|]. intros H. exfalso. apply H. auto.
  - rewrite IH. split; [intros H [E|I]; congruence || auto|tauto].
Qed.

Lemma keys_set k v d :
  keys (Dict.set k v d) = if Dict.mem k d then keys d else keys d ++ [k].
Proof.
  unfold Dict.mem. induction d as [|[k' v'] d IH]; simpl; auto.
  destruct (String.eqb_spec k k') as [->|Hk]; simpl; auto.
  rewrite IH. now destruct (Dict.get k d).
Qed.

Lemma NoDup_keys_set k v d : NoDup (keys d) -> NoDup (keys (Dict.set k v d)).
Proof.
  intros Hnd. rewrite keys_set. unfold Dict.mem.
  destruct (Dict.get k d) eqn:G; auto.
  apply get_None_keys in G.
  apply NoDup_rev in Hnd. rewrite <- (rev_involutive (keys d ++ [k])).
  apply NoDup_rev. rewrite rev_app_distr. simpl.
  constructor; auto. now rewrite <- in_rev.
Qed.

Lemma fold_left_invariant {A B : Type} (P : A -> Prop) (f : A -> B -> A)
      (l : list B) (a : A) :
  (forall a' x, In x l -> P a' -> P (f a' x)) -> P a -> P (fold_left f l a).
Proof.
  revert a. induction l as [|x l IH]; simpl; intros a Hstep Ha.
  - exact Ha.
  - apply IH; auto.
Qed.

(** ** [detect_xyz_columns] *)

Lemma axes_invariant_set cols m axis col :
  axes_invariant cols m -> In axis AXES -> In col cols ->
  axis_candidate axis col = true ->
  axes_invariant cols (Dict.set axis col m).
Proof.
  intros [Hnd Hm] Ha Hc Hcand. split.
  - now apply NoDup_keys_set.
  - intros k v. destruct (String.eqb_spec axis k) as [<-|Hk].
    + rewrite get_set_same. intros [= <-]. auto.
    + rewrite get_set_other by auto. apply Hm.
Qed.

Lemma token_step_invariant cols m col :
  In col cols -> axes_invariant cols m -> axes_invariant cols (token_step m col).
Proof.
  intros Hc Hm. unfold token_step.
  destruct (Re.search_alt_i TIME_LIKE col) eqn:T; auto.
  apply fold_left_invariant; auto.
  intros m' axis Ha Hm'.
  destruct (str_in_list axis (tokens (PyStr.lower col))) eqn:K; simpl; auto.
  destruct (Dict.mem axis m'); simpl; auto.
  apply axes_invariant_set; auto.
  unfold axis_candidate. now rewrite T, K.
Qed.

Lemma suffix_axis_invariant cols m axis :
  In axis AXES -> axes_invariant cols m ->
  axes_invariant cols (suffix_axis cols m axis).
Proof.
  intros Ha Hm. unfold suffix_axis.
  destruct (Dict.mem axis m); simpl; auto.
  apply fold_left_invariant; auto.
  intros m' col Hc Hm'.
  destruct (PyStr.endswith (PyStr.lower col) axis) eqn:E; simpl; auto.
  destruct (Dict.mem axis m'); simpl; auto.
  apply axes_invariant_set; auto.
  unfold axis_candidate. rewrite E. now rewrite orb_true_r.
Qed.

Lemma exact_axis_invariant cols m axis :
  In axis AXES -> axes_invariant cols m ->
  axes_invariant cols (exact_axis cols m axis).
Proof.
  intros Ha Hm. unfold exact_axis.
  destruct (Dict.mem axis m); simpl; auto.
  apply fold_left_invariant; auto.
  intros m' col Hc Hm'.
  destruct (String.eqb (PyStr.lower (PyStr.strip PyStr.is_space col)) axis)
    eqn:E; auto.
  apply axes_invariant_set; auto.
  unfold axis_candidate. rewrite E. now rewrite orb_true_r.
Qed.

Lemma all_passes_invariant cols : axes_invariant cols (all_passes cols).
Proof.
  unfold all_passes, exact_pass, suffix_pass, token_pass.
  apply fold_left_invariant; [intros; now apply exact_axis_invariant|].
  apply fold_left_invariant; [intros; now apply suffix_axis_invariant|].
  apply fold_left_invariant; [intros; now apply token_step_invariant|].
  split; [constructor|]. intros k v; discriminate.
Qed.

Lemma axes_invariant_keys cols m :
  axes_invariant cols m -> incl (keys m) AXES.
Proof.
  intros [_ Hm] k Hk.
  destruct (Dict.get k m) as [v|] eqn:G.
  - now apply Hm in G.
  - apply get_None_keys in G. contradiction.
Qed.

Lemma missing_axis_length cols m axis :
  axes_invariant cols m -> In axis AXES -> Dict.get axis m = None ->
  List.length m < 3.
Proof.
  intros Hinv Ha G.
  assert (Hincl : incl (keys m) (remove string_dec axis AXES)).
  { intros k Hk. apply in_in_remove.
    - intros ->. apply get_None_keys in G. contradiction.
    - eapply axes_invariant_keys; eauto. }
  apply NoDup_incl_length in Hincl; [|apply Hinv].
  unfold keys in Hincl. rewrite length_map in Hincl.
  assert (List.length (remove string_dec axis AXES) = 2).
  { simpl in Ha. destruct Ha as [<-|[<-|[<-|[]]]]; reflexivity. }
  lia.
Qed.

(** C5: when the three passes leave fewer than three axes assigned,
    [detect_xyz_columns] raises the [ValueError] that carries the columns
    and the partial mapping; this is the case of every table in which no
    column is a candidate for some axis. *)
Theorem detect_xyz_columns_missing_axis :
  (forall cols : list string,
      List.length (all_passes cols) < 3 ->
      detect_xyz_columns cols = Raise (AxesNotFound cols (all_passes cols)))
  /\ (forall (cols : list string) (axis : string),
         In axis AXES ->
         (forall c, In c cols -> axis_candidate axis c = false) ->
         exists found,
           detect_xyz_columns cols = Raise (AxesNotFound cols found)
           /\ found = all_passes cols
           /\ Dict.get axis found = None).
Proof.
  assert (H1 : forall cols, List.length (all_passes cols) < 3 ->
     detect_xyz_columns cols = Raise (AxesNotFound cols (all_passes cols))).
  { intros cols Hlen. unfold detect_xyz_columns.
    destruct (Nat.eqb_spec (List.length (all_passes cols)) 3); [lia|].
    reflexivity. }
  split; [exact H1|].
  intros cols axis Ha Hnone.
  assert (G : Dict.get axis (all_passes cols) = None).
  { destruct (Dict.get axis (all_passes cols)) as [v|] eqn:G; auto.
    apply (proj2 (all_passes_invariant cols)) in G.
    destruct G as (_ & Hv & Hcand). rewrite (Hnone v Hv) in Hcand.
    discriminate. }
  exists (all_passes cols). repeat split; auto.
  apply H1. eapply missing_axis_length; eauto. apply all_passes_invariant.
Qed.

Lemma detect_xyz_columns_missing_axis_witness :
  List.length (all_passes ["timestamp"; "ax"; "ay"]) < 3
  /\ detect_xyz_columns ["timestamp"; "ax"; "ay"]
     = Raise (AxesNotFound ["timestamp"; "ax"; "ay"]
                           [("x", "ax"); ("y", "ay")]).
Proof.
  split; [vm_compute; lia|].
  apply (proj1 detect_xyz_columns_missing_axis ["timestamp"; "ax"; "ay"]).
  vm_compute; lia.
Defined.

(** The inner loop of the suffix pass assigns the first column whose
    lowercased name ends with the axis letter, once. *)
Lemma suffix_loop_assigned axis cols m :
  Dict.mem axis m = true ->
  fold_left
    (fun m col =>
       if PyStr.endswith (PyStr.lower col) axis && negb (Dict.mem axis m)
       then Dict.set axis col m else m) cols m = m.
Proof.
  induction cols as [|c cols IH]; simpl; intros Hm; auto.
  rewrite Hm, andb_false_r. now apply IH.
Qed.

Lemma suffix_loop_first axis cols m :
  Dict.mem axis m = false ->
  fold_left
    (fun m col =>
       if PyStr.endswith (PyStr.lower col) axis && negb (Dict.mem axis m)
       then Dict.set axis col m else m) cols m
  = match find (fun col => PyStr.endswith (PyStr.lower col) axis) cols with
    | Some c => Dict.set axis c m
    | None => m
    end.
Proof.
  induction cols as [|c cols IH]; simpl; intros Hm; auto.
  rewrite Hm. destruct (PyStr.endswith (PyStr.lower c) axis); simpl.
  - apply suffix_loop_assigned. unfold Dict.mem. now rewrite get_set_same.
  - now apply IH.
Qed.

Lemma token_step_no_token m col :
  (forall axis, In axis AXES ->
                Re.search_alt_i TIME_LIKE col = false ->
                str_in_list axis (tokens (PyStr.lower col)) = false) ->
  token_step m col = m.
Proof.
  intros H. unfold token_step.
  destruct (Re.search_alt_i TIME_LIKE col) eqn:T; auto.
  unfold AXES in *. simpl.
  rewrite !H by (simpl; auto). reflexivity.
Qed.

Lemma token_pass_no_token cols :
  (forall c axis, In c cols -> In axis AXES ->
                  Re.search_alt_i TIME_LIKE c = false ->
                  str_in_list axis (tokens (PyStr.lower c)) = false) ->
  token_pass cols = [].
Proof.
  intros H. unfold token_pass.
  apply fold_left_invariant; auto.
  intros m c Hc ->. apply token_step_no_token. intros; now apply H.
Qed.

(** C4, as the code has it: in a table where no column that the token pass
    looks at has a token [x], [y] or [z], and where [ax], [ay], [az] are the
    first columns whose lowercased names end with [x], [y], [z], the token
    pass assigns nothing and the suffix pass yields [{x: ax, y: ay, z: az}],
    which [detect_xyz_columns] returns. *)
Theorem detect_xyz_columns_ax_ay_az :
  forall cols : list string,
    (forall c axis, In c cols -> In axis AXES ->
                    Re.search_alt_i TIME_LIKE c = false ->
                    str_in_list axis (tokens (PyStr.lower c)) = false) ->
    find (fun c => PyStr.endswith (PyStr.lower c) "x") cols = Some "ax" ->
    find (fun c => PyStr.endswith (PyStr.lower c) "y") cols = Some "ay" ->
    find (fun c => PyStr.endswith (PyStr.lower c) "z") cols = Some "az" ->
    token_pass cols = []
    /\ suffix_pass cols (token_pass cols)
       = [("x", "ax"); ("y", "ay"); ("z", "az")]
    /\ detect_xyz_columns cols = Ok [("x", "ax"); ("y", "ay"); ("z", "az")].
Proof.
  intros cols Htok Hx Hy Hz.
  assert (T : token_pass cols = []) by now apply token_pass_no_token.
  assert (S : suffix_pass cols [] = [("x", "ax"); ("y", "ay"); ("z", "az")]).
  { unfold suffix_pass, AXES. cbn [fold_left].
    unfold suffix_axis at 3. cbn [Dict.mem Dict.get negb].
    rewrite suffix_loop_first, Hx by reflexivity. cbn [Dict.set].
    unfold suffix_axis at 2. cbn.
    rewrite suffix_loop_first, Hy by reflexivity. cbn [Dict.set].
    unfold suffix_axis. cbn.
    rewrite suffix_loop_first, Hz by reflexivity. reflexivity. }
  rewrite T. repeat split; auto.
  unfold detect_xyz_columns, all_passes. rewrite T, S. reflexivity.
Qed.

Lemma detect_xyz_columns_ax_ay_az_witness :
  detect_xyz_columns ["timestamp"; "ax"; "ay"; "az"]
  = Ok [("x", "ax"); ("y", "ay"); ("z", "az")].
Proof.
  apply (detect_xyz_columns_ax_ay_az ["timestamp"; "ax"; "ay"; "az"]);
    [|reflexivity..].
  intros c axis Hc Ha.
  simpl in Hc, Ha.
  destruct Hc as [<-|[<-|[<-|[<-|[]]]]];
    destruct Ha as [<-|[<-|[<-|[]]]]; vm_compute; congruence.
Defined.

(** C4 as stated fails: on the table [ax, ay, az] the token pass assigns no
    axis, since [ax] is the single token of the name [ax]; and a column with
    the token [x] is taken for the axis before [ax] is looked at. *)
Lemma token_pass_skips_ax_ay_az :
  ~ In "time_x" ["ax"; "ay"; "az"]
  /\ ~ In "time_y" ["ax"; "ay"; "az"]
  /\ ~ In "time_z" ["ax"; "ay"; "az"]
  /\ In "ax" ["ax"; "ay"; "az"]
  /\ In "ay" ["ax"; "ay"; "az"]
  /\ In "az" ["ax"; "ay"; "az"]
  /\ token_pass ["ax"; "ay"; "az"] = []
  /\ tokens (PyStr.lower "ax") = ["ax"]
  /\ detect_xyz_columns ["gyro_x"; "ax"; "ay"; "az"]
     = Ok [("x", "gyro_x"); ("y", "ay"); ("z", "az")].
Proof.
  repeat split; try (simpl; tauto);
    intros H; simpl in H; repeat destruct H as [H|H]; try discriminate; auto.
Qed.

(** ** Characters and strings *)

Ltac ascii_cases c := destruct c as [[] [] [] [] [] [] [] []].

Lemma underscore_eq c : Re.is_underscore c = true -> c = "_"%char.
Proof. ascii_cases c; vm_compute; congruence. Qed.

Lemma underscore_name_char c :
  Re.is_underscore c = true -> Re.is_name_char c = true.
Proof. intros H. apply underscore_eq in H. now subst. Qed.

Lemma name_char_lower c : Re.is_name_char c = true -> PyStr.lower_char c = c.
Proof. ascii_cases c; vm_compute; congruence. Qed.

Lemma name_char_not_space c :
  Re.is_name_char c = true -> PyStr.is_space c = false.
Proof. ascii_cases c; vm_compute; congruence. Qed.

Lemma space_lower_not_name_char c :
  PyStr.is_space c = true -> Re.is_name_char (PyStr.lower_char c) = false.
Proof. ascii_cases c; vm_compute; congruence. Qed.

Lemma prefix_empty s : prefix EmptyString s = true.
Proof. now destruct s. Qed.

Lemma prefix_cons a k c s :
  prefix (String a k) (String c s) = Ascii.eqb a c && prefix k s.
Proof.
  simpl. destruct (ascii_dec a c) as [->|Hne].
  - now rewrite Ascii.eqb_refl.
  - apply Ascii.eqb_neq in Hne. now rewrite Hne.
Qed.

Lemma eqb_underscore_char c : Ascii.eqb "_" c = Re.is_underscore c.
Proof. ascii_cases c; reflexivity. Qed.

Lemma prefix_underscore c s : prefix "_" (String c s) = Re.is_underscore c.
Proof.
  now rewrite prefix_cons, prefix_empty, andb_true_r, eqb_underscore_char.
Qed.

Lemma prefix_2underscore c s :
  prefix "__" (String c s) = Re.is_underscore c && prefix "_" s.
Proof. now rewrite prefix_cons, eqb_underscore_char. Qed.

Lemma eqb_underscore c s :
  String.eqb (String c s) "_" = Re.is_underscore c && PyStr.is_empty s.
Proof. ascii_cases c; destruct s; reflexivity. Qed.

Lemma is_empty_eq s : PyStr.is_empty s = true -> s = EmptyString.
Proof. destruct s; [reflexivity|discriminate]. Qed.

Section Strip.
Variable p : ascii -> bool.

Lemma strip_head c s : p c = true -> PyStr.strip p (String c s) = PyStr.strip p s.
Proof.
  intros Hc. unfold PyStr.strip. simpl. rewrite Hc. simpl.
  destruct (PyStr.rstrip p s) eqn:R; simpl; auto. now rewrite Hc.
Qed.

Lemma rstrip_lstrip s :
  PyStr.rstrip p (PyStr.lstrip p s) = PyStr.lstrip p (PyStr.rstrip p s).
Proof.
  induction s as [|c t IH]; auto.
  change (PyStr.lstrip p (PyStr.rstrip p (String c t)))
    with (PyStr.strip p (String c t)).
  simpl PyStr.lstrip. destruct (p c) eqn:Hc.
  - rewrite strip_head by auto. exact IH.
  - unfold PyStr.strip. simpl. rewrite Hc. simpl. now rewrite Hc.
Qed.

Lemma rstrip_empty_all s :
  PyStr.rstrip p s = EmptyString -> all_chars p s = true.
Proof.
  induction s as [|c t IH]; simpl; auto.
  destruct (p c); simpl; [|discriminate].
  destruct (PyStr.rstrip p t); simpl; [auto|discriminate].
Qed.

Lemma lstrip_none s :
  (forall c t, s = String c t -> p c = false) -> PyStr.lstrip p s = s.
Proof. destruct s as [|c t]; simpl; auto. intros H. now rewrite (H c t). Qed.

Lemma rstrip_none s :
  all_chars (fun c => negb (p c)) s = true -> PyStr.rstrip p s = s.
Proof.
  induction s as [|c t IH]; simpl; auto.
  intros H. apply andb_prop in H as [Hc Ht].
  apply negb_true_iff in Hc. rewrite Hc, IH; auto.
Qed.

Lemma all_chars_lstrip q s :
  all_chars q s = true -> all_chars q (PyStr.lstrip p s) = true.
Proof.
  induction s as [|c t IH]; simpl; auto.
  intros H. destruct (p c); auto.
  apply andb_prop in H as [_ Ht]. auto.
Qed.

Lemma all_chars_rstrip q s :
  all_chars q s = true -> all_chars q (PyStr.rstrip p s) = true.
Proof.
  induction s as [|c t IH]; simpl; auto.
  intros H. apply andb_prop in H as [Hc Ht].
  destruct (p c && PyStr.is_empty (PyStr.rstrip p t)); simpl; auto.
  now rewrite Hc, IH.
Qed.

(** [rstrip] yields a prefix, [lstrip] a suffix. *)
Lemma prefix_rstrip k s :
  prefix k (PyStr.rstrip p s) = true -> prefix k s = true.
Proof.
  revert k. induction s as [|c t IH]; intros k; simpl; auto.
  destruct (p c && PyStr.is_empty (PyStr.rstrip p t)).
  - destruct k; simpl; [auto|discriminate].
  - destruct k as [|a k]; simpl; auto.
    destruct (ascii_dec a c); auto.
Qed.

Lemma contains_rstrip k s :
  PyStr.contains k (PyStr.rstrip p s) = true -> PyStr.contains k s = true.
Proof.
  induction s as [|c t IH]; auto.
  pose proof (prefix_rstrip k (String c t)) as Hp.
  cbn [PyStr.rstrip] in *. cbn [PyStr.contains].
  destruct (p c && PyStr.is_empty (PyStr.rstrip p t)) eqn:E;
    cbn [PyStr.contains]; intros H.
  - now rewrite (Hp H).
  - apply orb_prop in H as [H|H].
    + now rewrite (Hp H).
    + rewrite (IH H). apply orb_true_r.
Qed.

Lemma contains_lstrip k s :
  PyStr.contains k (PyStr.lstrip p s) = true -> PyStr.contains k s = true.
Proof.
  induction s as [|c t IH]; auto.
  simpl PyStr.lstrip. destruct (p c); auto.
  intros H. simpl. rewrite (IH H). apply orb_true_r.
Qed.

Lemma endswith_lstrip s suf :
  PyStr.endswith (PyStr.lstrip p s) suf = true -> PyStr.endswith s suf = true.
Proof.
  induction s as [|c t IH]; auto.
  simpl PyStr.lstrip. destruct (p c); auto.
  intros H. simpl. rewrite (IH H). apply orb_true_r.
Qed.

End Strip.

Lemma endswith_rstrip_underscore s :
  PyStr.endswith (PyStr.rstrip Re.is_underscore s) "_" = false.
Proof.
  induction s as [|c t IH]; auto.
  simpl PyStr.rstrip.
  destruct (Re.is_underscore c && PyStr.is_empty (PyStr.rstrip Re.is_underscore t))
    eqn:E; auto.
  cbn [PyStr.endswith]. rewrite IH, eqb_underscore, E. reflexivity.
Qed.

Lemma rstrip_underscore_none s :
  PyStr.endswith s "_" = false -> PyStr.rstrip Re.is_underscore s = s.
Proof.
  induction s as [|c t IH]; auto.
  cbn [PyStr.endswith]. rewrite eqb_underscore. intros H.
  apply orb_false_iff in H as [H1 H2].
  simpl. rewrite (IH H2), H1. reflexivity.
Qed.

(** ** [sanitize_name] *)

Lemma squeeze_keep cls a t :
  cls a = false -> squeeze cls (String a t) = String a (squeeze cls t).
Proof. intros H. simpl. now rewrite H. Qed.

Lemma squeeze_run cls c a t :
  cls c = true ->
  squeeze cls (String c (String a t))
  = if cls a then squeeze cls (String a t)
    else String "_" (squeeze cls (String a t)).
Proof. intros H. cbn [squeeze]. now rewrite H. Qed.

(** The two ways of writing the replacement of runs agree. *)
Lemma sub_runs_squeeze cls s :
  Re.sub_runs cls s false = squeeze cls s
  /\ forall c, cls c = true ->
               String "_" (Re.sub_runs cls s true) = squeeze cls (String c s).
Proof.
  induction s as [|a t [IHa IHb]].
  - split; [reflexivity|]. intros c Hc. simpl. now rewrite Hc.
  - split.
    + cbn [Re.sub_runs]. destruct (cls a) eqn:Ha.
      * now apply IHb.
      * now rewrite squeeze_keep, IHa.
    + intros c Hc. rewrite squeeze_run by auto.
      cbn [Re.sub_runs]. destruct (cls a) eqn:Ha.
      * now apply IHb.
      * now rewrite squeeze_keep, IHa.
Qed.

Lemma sub_runs_flag cls s :
  Re.sub_runs cls s false = Re.sub_runs cls s true
  \/ Re.sub_runs cls s false = String "_" (Re.sub_runs cls s true).
Proof. destruct s as [|c t]; simpl; auto. destruct (cls c); auto. Qed.

Lemma strip_sub_underscore_flag w :
  PyStr.strip Re.is_underscore (Re.sub_runs Re.is_underscore w true)
  = PyStr.strip Re.is_underscore (Re.sub_runs Re.is_underscore w false).
Proof.
  destruct (sub_runs_flag Re.is_underscore w) as [->| ->]; auto.
  now rewrite strip_head.
Qed.

Lemma scrub_bad_head b u : bad_char b = true -> scrub (String b u) = scrub u.
Proof.
  intros Hb. unfold scrub, Re.sub_underscore.
  cbn [Re.sub_runs]. rewrite Hb. cbn [Re.sub_runs].
  change (Re.is_underscore "_") with true. cbv iota.
  rewrite strip_head by reflexivity.
  rewrite strip_sub_underscore_flag.
  destruct (sub_runs_flag bad_char u) as [->| ->]; auto.
  cbn [Re.sub_runs]. change (Re.is_underscore "_") with true. cbv iota.
  rewrite strip_head by reflexivity.
  now rewrite strip_sub_underscore_flag.
Qed.

Lemma scrub_lower_lstrip s :
  scrub (PyStr.lower (PyStr.lstrip PyStr.is_space s)) = scrub (PyStr.lower s).
Proof.
  induction s as [|c t IH]; auto.
  simpl PyStr.lstrip. destruct (PyStr.is_space c) eqn:Hc; auto.
  rewrite IH. cbn [PyStr.lower]. symmetry. apply scrub_bad_head.
  unfold bad_char. now rewrite space_lower_not_name_char.
Qed.

Lemma all_space_lower_bad s :
  all_chars PyStr.is_space s = true ->
  all_chars bad_char (PyStr.lower s) = true.
Proof.
  induction s as [|c t IH]; simpl; auto.
  intros H. apply andb_prop in H as [Hc Ht].
  unfold bad_char at 1. now rewrite space_lower_not_name_char, IH.
Qed.

Lemma sub_runs_all_true cls u :
  all_chars cls u = true -> Re.sub_runs cls u true = EmptyString.
Proof.
  induction u as [|c t IH]; simpl; auto.
  intros H. apply andb_prop in H as [Hc Ht]. rewrite Hc. auto.
Qed.

Lemma rstrip_scrub_all_bad u f1 f2 :
  all_chars bad_char u = true ->
  PyStr.rstrip Re.is_underscore
    (Re.sub_runs Re.is_underscore (Re.sub_runs bad_char u f1) f2) = EmptyString.
Proof.
  intros H. destruct u as [|c t]; [reflexivity|].
  simpl in H. apply andb_prop in H as [Hc Ht].
  cbn [Re.sub_runs]. rewrite Hc, (sub_runs_all_true _ _ Ht).
  destruct f1, f2; reflexivity.
Qed.

Lemma rstrip_scrub_lower_rstrip s f1 f2 :
  PyStr.rstrip Re.is_underscore
    (Re.sub_runs Re.is_underscore
       (Re.sub_runs bad_char (PyStr.lower (PyStr.rstrip PyStr.is_space s)) f1) f2)
  = PyStr.rstrip Re.is_underscore
      (Re.sub_runs Re.is_underscore
         (Re.sub_runs bad_char (PyStr.lower s) f1) f2).
Proof.
  revert f1 f2. induction s as [|c t IH]; intros f1 f2; auto.
  cbn [PyStr.rstrip].
  destruct (PyStr.is_space c && PyStr.is_empty (PyStr.rstrip PyStr.is_space t))
    eqn:E.
  - apply andb_prop in E as [Hc Ht]. apply is_empty_eq in Ht.
    apply rstrip_empty_all in Ht.
    symmetry. apply rstrip_scrub_all_bad. apply all_space_lower_bad.
    simpl. now rewrite Hc, Ht.
  - cbn [PyStr.lower Re.sub_runs].
    destruct (bad_char (PyStr.lower_char c)).
    + destruct f1.
      * apply IH.
      * cbn [Re.sub_runs]. change (Re.is_underscore "_") with true. cbv iota.
        destruct f2; [apply IH|].
        cbn [PyStr.rstrip]. now rewrite IH.
    + cbn [Re.sub_runs]. destruct (Re.is_underscore (PyStr.lower_char c)).
      * destruct f2; [apply IH|]. cbn [PyStr.rstrip]. now rewrite IH.
      * cbn [PyStr.rstrip]. now rewrite IH.
Qed.

Lemma scrub_lower_strip s :
  scrub (PyStr.lower (PyStr.strip PyStr.is_space s)) = scrub (PyStr.lower s).
Proof.
  unfold PyStr.strip. rewrite scrub_lower_lstrip.
  unfold scrub, PyStr.strip, Re.sub_underscore.
  now rewrite rstrip_scrub_lower_rstrip.
Qed.

Lemma sanitize_name_scrub s : sanitize_name s = scrub (PyStr.lower s).
Proof.
  unfold sanitize_name. destruct s as [|c t]; [reflexivity|].
  cbn [PyStr.is_empty]. apply scrub_lower_strip.
Qed.

Lemma sanitize_name_spec_scrub s : sanitize_name_spec s = scrub (PyStr.lower s).
Proof.
  unfold sanitize_name_spec, scrub, PyStr.strip, Re.sub_underscore.
  rewrite rstrip_lstrip.
  rewrite <- (proj1 (sub_runs_squeeze _ _)).
  rewrite <- (proj1 (sub_runs_squeeze _ _)).
  reflexivity.
Qed.

(** C7: [sanitize_name] computes what the specification describes:
    lowercase, replace every maximal run of characters outside [[a-z0-9_-]]
    by one underscore, collapse repeated underscores, strip underscores at
    both ends; the empty string gives the empty string, and the example of
    the specification gives [o_mar_jumps]. *)
Theorem sanitize_name_implements_spec :
  (forall s : string, sanitize_name s = sanitize_name_spec s)
  /\ sanitize_name EmptyString = EmptyString
  /\ sanitize_name " O'Mar  Jumps!! " = "o_mar_jumps".
Proof.
  split; [|split; reflexivity].
  intros s. now rewrite sanitize_name_scrub, sanitize_name_spec_scrub.
Qed.

Lemma all_chars_sub_bad u f :
  all_chars Re.is_name_char (Re.sub_runs bad_char u f) = true.
Proof.
  revert f. induction u as [|c t IH]; intros f; simpl; auto.
  unfold bad_char at 1. destruct (Re.is_name_char c) eqn:Hc; simpl.
  - now rewrite Hc, IH.
  - destruct f; simpl; auto.
Qed.

Lemma all_chars_sub_underscore w f :
  all_chars Re.is_name_char w = true ->
  all_chars Re.is_name_char (Re.sub_runs Re.is_underscore w f) = true.
Proof.
  revert f. induction w as [|c t IH]; intros f; simpl; auto.
  intros H. apply andb_prop in H as [Hc Ht].
  destruct (Re.is_underscore c); [destruct f|]; simpl; rewrite ?Hc; simpl;
    auto.
Qed.

Lemma sub_underscore_no_double w f :
  PyStr.contains "__" (Re.sub_runs Re.is_underscore w f) = false
  /\ (f = true -> prefix "_" (Re.sub_runs Re.is_underscore w f) = false).
Proof.
  revert f. induction w as [|c t IH]; intros f.
  - split; reflexivity.
  - cbn [Re.sub_runs]. destruct (Re.is_underscore c) eqn:Hc.
    + destruct f; [apply IH|]. split; [|discriminate].
      cbn [PyStr.contains]. rewrite prefix_2underscore.
      rewrite (proj2 (IH true) eq_refl), (proj1 (IH true)). reflexivity.
    + split.
      * cbn [PyStr.contains]. rewrite prefix_2underscore, Hc.
        apply (proj1 (IH false)).
      * intros _. now rewrite prefix_underscore.
Qed.

Lemma prefix_lstrip_underscore s :
  prefix "_" (PyStr.lstrip Re.is_underscore s) = false.
Proof.
  induction s as [|c t IH]; auto.
  simpl PyStr.lstrip. destruct (Re.is_underscore c) eqn:Hc; auto.
  now rewrite prefix_underscore.
Qed.

Lemma not_true_false b : (b = true -> False) -> b = false.
Proof. destruct b; intuition. Qed.

Lemma scrub_is_token u : is_token (scrub u) = true.
Proof.
  unfold is_token, scrub, PyStr.strip, Re.sub_underscore.
  rewrite all_chars_lstrip
    by (apply all_chars_rstrip, all_chars_sub_underscore, all_chars_sub_bad).
  rewrite prefix_lstrip_underscore.
  rewrite (not_true_false (PyStr.contains "__" _)).
  2:{ intros H. apply contains_lstrip, contains_rstrip in H.
      rewrite (proj1 (sub_underscore_no_double _ _)) in H. discriminate. }
  rewrite (not_true_false (PyStr.endswith _ "_")); [reflexivity|].
  intros H. apply endswith_lstrip in H.
  rewrite endswith_rstrip_underscore in H. discriminate.
Qed.

Lemma lower_name_chars t :
  all_chars Re.is_name_char t = true -> PyStr.lower t = t.
Proof.
  induction t as [|c t IH]; simpl; auto.
  intros H. apply andb_prop in H as [Hc Ht].
  now rewrite name_char_lower, IH.
Qed.

Lemma sub_bad_name_chars t :
  all_chars Re.is_name_char t = true -> Re.sub_runs bad_char t false = t.
Proof.
  induction t as [|c t IH]; simpl; auto.
  intros H. apply andb_prop in H as [Hc Ht].
  unfold bad_char at 1. rewrite Hc. simpl. now rewrite IH.
Qed.

Lemma sub_underscore_no_double_id t f :
  PyStr.contains "__" t = false ->
  (f = true -> prefix "_" t = false) ->
  Re.sub_runs Re.is_underscore t f = t.
Proof.
  revert f. induction t as [|c t IH]; intros f Hc Hf; auto.
  cbn [PyStr.contains] in Hc. rewrite prefix_2underscore in Hc.
  apply orb_false_iff in Hc as [Hp Hc].
  cbn [Re.sub_runs]. destruct (Re.is_underscore c) eqn:Hu.
  - simpl in Hp. destruct f.
    + specialize (Hf eq_refl). rewrite prefix_underscore in Hf. congruence.
    + apply underscore_eq in Hu. subst c. f_equal. apply IH; auto.
  - f_equal. apply IH; auto. discriminate.
Qed.

Lemma is_token_scrub t : is_token t = true -> scrub t = t.
Proof.
  unfold is_token. intros H.
  apply andb_prop in H as [H He]. apply andb_prop in H as [H Hp].
  apply andb_prop in H as [Ha Hc].
  apply negb_true_iff in He, Hp, Hc.
  unfold scrub, Re.sub_underscore.
  rewrite sub_bad_name_chars by auto.
  rewrite sub_underscore_no_double_id by (auto; discriminate).
  unfold PyStr.strip. rewrite rstrip_underscore_none by auto.
  apply lstrip_none. intros c t' ->. now rewrite prefix_underscore in Hp.
Qed.

(** C9: [sanitize_name] is idempotent; its results are tokens (characters of
    [[a-z0-9_-]] only, no repeated underscore, no underscore at either end);
    and every token is a fixed point. *)
Theorem sanitize_name_idempotent :
  (forall s : string, sanitize_name (sanitize_name s) = sanitize_name s)
  /\ (forall s : string, is_token (sanitize_name s) = true)
  /\ (forall t : string, is_token t = true -> sanitize_name t = t).
Proof.
  assert (Hfix : forall t, is_token t = true -> sanitize_name t = t).
  { intros t Ht. rewrite sanitize_name_scrub.
    rewrite lower_name_chars; [now apply is_token_scrub|].
    unfold is_token in Ht. repeat (apply andb_prop in Ht as [Ht _]). exact Ht. }
  assert (Htok : forall s, is_token (sanitize_name s) = true).
  { intros s. rewrite sanitize_name_scrub. apply scrub_is_token. }
  repeat split; auto.
Qed.

Lemma sanitize_name_idempotent_witness :
  is_token "o_mar-2" = true /\ sanitize_name "o_mar-2" = "o_mar-2".
Proof.
  split; [reflexivity|].
  apply (proj2 (proj2 sanitize_name_idempotent) "o_mar-2"). reflexivity.
Defined.

(** ** Sorting file names *)

Lemma ascii_compare_trans_lt a b c :
  Ascii.compare a b = Lt -> Ascii.compare b c = Lt -> Ascii.compare a c = Lt.
Proof.
  unfold Ascii.compare. rewrite !N.compare_lt_iff. apply N.lt_trans.
Qed.

Lemma string_compare_trans_not_gt a b c :
  String.compare a b <> Gt -> String.compare b c <> Gt ->
  String.compare a c <> Gt.
Proof.
  revert b c. induction a as [|x a IH]; intros [|y b] [|z c]; simpl;
    try congruence.
  destruct (Ascii.compare x y) eqn:Exy; try congruence.
  - apply Ascii.compare_eq_iff in Exy. subst y.
    destruct (Ascii.compare x z); try congruence. apply IH.
  - destruct (Ascii.compare y z) eqn:Eyz; try congruence.
    + apply Ascii.compare_eq_iff in Eyz. subst z. rewrite Exy. congruence.
    + rewrite (ascii_compare_trans_lt _ _ _ Exy Eyz). congruence.
Qed.

Lemma str_le_trans a b c : str_le a b -> str_le b c -> str_le a c.
Proof.
  unfold str_le, String.leb. intros H1 H2.
  pose proof (string_compare_trans_not_gt a b c) as H.
  destruct (String.compare a b), (String.compare b c),
    (String.compare a c); try discriminate; auto;
    exfalso; apply H; congruence.
Qed.

Lemma str_le_total a b : str_le a b \/ str_le b a.
Proof. apply String.leb_total. Qed.

Lemma insert_sorted_In x y l :
  In y (PyStr.insert_sorted x l) <-> y = x \/ In y l.
Proof.
  induction l as [|a l IH]; simpl.
  - intuition.
  - destruct (String.leb x a); simpl; rewrite ?IH; intuition.
Qed.

Lemma sorted_In y l : In y (PyStr.sorted l) <-> In y l.
Proof.
  induction l as [|a l IH]; simpl; [tauto|].
  rewrite insert_sorted_In, IH. intuition.
Qed.

Lemma insert_sorted_sorted x l :
  StronglySorted str_le l -> StronglySorted str_le (PyStr.insert_sorted x l).
Proof.
  induction 1 as [|a l Hl IH Ha]; simpl.
  - repeat constructor.
  - destruct (String.leb x a) eqn:E.
    + constructor; [now constructor|].
      constructor; auto.
      rewrite Forall_forall in *. intros y Hy.
      eapply str_le_trans; [exact E|]. now apply Ha.
    + constructor; auto.
      rewrite Forall_forall in *. intros y Hy.
      apply insert_sorted_In in Hy as [->|Hy]; auto.
      destruct (str_le_total x a) as [H|H]; auto.
      unfold str_le in H. congruence.
Qed.

Lemma sorted_sorted l : StronglySorted str_le (PyStr.sorted l).
Proof.
  induction l as [|a l IH]; simpl; [constructor|].
  now apply insert_sorted_sorted.
Qed.

Lemma sorted_app_le (pre post : list string) (x y : string) :
  StronglySorted str_le (pre ++ x :: post) -> In y pre -> str_le y x.
Proof.
  induction pre as [|a pre IH]; simpl; intros Hs Hy; [contradiction|].
  inversion Hs as [|? ? Hs' Ha]; subst.
  destruct Hy as [->|Hy]; auto.
  rewrite Forall_forall in Ha. apply Ha. apply in_or_app. simpl. auto.
Qed.

(** ** [find_sensor_files_in_session] *)

(** The loop keeps, for each sensor, the path of the last accepted name. *)
Lemma sensor_loop fs dir l st :
  fold_left (sensor_step fs dir) l st
  = (match find (sensor_match fs dir ACCEL_KEYWORDS) (rev l) with
     | Some f => Some (path_join dir f)
     | None => fst st
     end,
     match find (sensor_match fs dir GYRO_KEYWORDS) (rev l) with
     | Some f => Some (path_join dir f)
     | None => snd st
     end).
Proof.
  revert st. induction l as [|f l IH] using rev_ind; intros st.
  - now destruct st.
  - rewrite fold_left_app, rev_app_distr. cbn [fold_left rev app find].
    rewrite IH. unfold sensor_step, sensor_match. cbn [fst snd].
    destruct (isfile fs (path_join dir f)); cbn [negb andb]; [|reflexivity].
    destruct (matches_keywords ACCEL_KEYWORDS (PyStr.lower f)),
      (matches_keywords GYRO_KEYWORDS (PyStr.lower f)); reflexivity.
Qed.

(** The last accepted name of the sorted listing is the greatest accepted
    name of the directory. *)
Lemma last_match_greatest (m : string -> bool) (names : list string) f :
  find m (rev (PyStr.sorted names)) = Some f ->
  In f names /\ m f = true
  /\ forall f', In f' names -> m f' = true -> str_le f' f.
Proof.
  intros F. destruct (find_split _ _ _ F) as (after & before & E & Hafter & Hf).
  assert (E' : PyStr.sorted names = rev before ++ f :: rev after).
  { rewrite <- (rev_involutive (PyStr.sorted names)), E, rev_app_distr.
    simpl. now rewrite <- app_assoc. }
  split; [|split; auto].
  - apply sorted_In. rewrite E'. apply in_or_app. simpl. auto.
  - intros f' Hin Hm. apply (proj2 (sorted_In _ _)) in Hin. rewrite E' in Hin.
    apply in_app_or in Hin as [Hin|[<-|Hin]].
    + eapply sorted_app_le; [|exact Hin]. rewrite <- E'. apply sorted_sorted.
    + unfold str_le. destruct (str_le_total f f); auto.
    + apply in_rev in Hin. rewrite (Hafter _ Hin) in Hm. discriminate.
Qed.

Lemma last_match_none (m : string -> bool) (names : list string) :
  find m (rev (PyStr.sorted names)) = None <->
  forall f, In f names -> m f = false.
Proof.
  rewrite find_none_iff. split; intros H f Hf; apply H.
  - rewrite <- in_rev. now apply sorted_In.
  - rewrite <- in_rev in Hf. now apply (proj1 (sorted_In _ _)) in Hf.
Qed.

Lemma path_join_nonempty dir f :
  PyStr.is_empty f = false -> PyStr.is_empty (path_join dir f) = false.
Proof.
  unfold path_join. destruct f as [|c t]; [discriminate|]. intros _.
  destruct (prefix "/" (String c t)); auto.
  destruct (PyStr.is_empty dir || PyStr.endswith dir "/");
    destruct dir; reflexivity.
Qed.

Lemma sensor_match_nonempty fs dir kws f :
  sensor_match fs dir kws f = true -> PyStr.is_empty f = false.
Proof.
  destruct f; auto. unfold sensor_match, matches_keywords. simpl.
  now rewrite andb_false_r.
Qed.

Lemma find_sensor_files_eq fs dir :
  find_sensor_files_in_session fs dir
  = (option_map (path_join dir)
       (find (sensor_match fs dir ACCEL_KEYWORDS)
             (rev (PyStr.sorted (listdir fs dir)))),
     option_map (path_join dir)
       (find (sensor_match fs dir GYRO_KEYWORDS)
             (rev (PyStr.sorted (listdir fs dir))))).
Proof.
  unfold find_sensor_files_in_session. rewrite sensor_loop. simpl.
  f_equal; now destruct (find _ _).
Qed.

Lemma last_match_characterised (m : string -> bool) names dir :
  (forall p,
      option_map (path_join dir) (find m (rev (PyStr.sorted names))) = Some p ->
      exists f, p = path_join dir f /\ In f names /\ m f = true
                /\ forall f', In f' names -> m f' = true ->
                              String.leb f' f = true)
  /\ (option_map (path_join dir) (find m (rev (PyStr.sorted names))) = None
      <-> forall f, In f names -> m f = false).
Proof.
  split.
  - intros p. destruct (find m _) as [f|] eqn:F; [|discriminate].
    intros [= <-]. exists f. split; auto. now apply last_match_greatest.
  - rewrite <- last_match_none. destruct (find m _); simpl; split;
      congruence.
Qed.

Lemma greatest_match_found (m : string -> bool) names f :
  In f names -> m f = true ->
  (forall f', In f' names -> m f' = true -> String.leb f' f = true) ->
  find m (rev (PyStr.sorted names)) = Some f.
Proof.
  intros Hin Hm Hmax.
  destruct (find m (rev (PyStr.sorted names))) as [f0|] eqn:F.
  - apply last_match_greatest in F as (Hin0 & Hm0 & Hmax0).
    f_equal. apply String.leb_antisym; [apply Hmax|apply Hmax0]; auto.
  - rewrite last_match_none in F. rewrite (F f Hin) in Hm. discriminate.
Qed.

(** C10: for each sensor, [find_sensor_files_in_session] returns the path of
    the accepted file name that is greatest in the sorted order of the
    directory, and [None] when no name is accepted; a name accepted for both
    keyword sets makes both results present, so that [main] does not skip the
    session, and it is returned for both sensors when no accepted name
    sorts after it. *)
Theorem find_sensor_files_in_session_last_match :
  forall (fs : filesystem) (session_dir : string),
    (forall p,
        fst (find_sensor_files_in_session fs session_dir) = Some p ->
        exists f,
          p = path_join session_dir f
          /\ In f (listdir fs session_dir)
          /\ sensor_match fs session_dir ACCEL_KEYWORDS f = true
          /\ forall f', In f' (listdir fs session_dir) ->
                        sensor_match fs session_dir ACCEL_KEYWORDS f' = true ->
                        String.leb f' f = true)
    /\ (fst (find_sensor_files_in_session fs session_dir) = None
        <-> forall f, In f (listdir fs session_dir) ->
                      sensor_match fs session_dir ACCEL_KEYWORDS f = false)
    /\ (forall p,
           snd (find_sensor_files_in_session fs session_dir) = Some p ->
           exists f,
             p = path_join session_dir f
             /\ In f (listdir fs session_dir)
             /\ sensor_match fs session_dir GYRO_KEYWORDS f = true
             /\ forall f', In f' (listdir fs session_dir) ->
                           sensor_match fs session_dir GYRO_KEYWORDS f' = true ->
                           String.leb f' f = true)
    /\ (snd (find_sensor_files_in_session fs session_dir) = None
        <-> forall f, In f (listdir fs session_dir) ->
                      sensor_match fs session_dir GYRO_KEYWORDS f = false)
    /\ (forall f,
           In f (listdir fs session_dir) ->
           sensor_match fs session_dir ACCEL_KEYWORDS f = true ->
           sensor_match fs session_dir GYRO_KEYWORDS f = true ->
           session_skipped (find_sensor_files_in_session fs session_dir) = false
           /\ ((forall f', In f' (listdir fs session_dir) ->
                           sensor_match fs session_dir ACCEL_KEYWORDS f'
                           || sensor_match fs session_dir GYRO_KEYWORDS f' = true ->
                           String.leb f' f = true) ->
               find_sensor_files_in_session fs session_dir
               = (Some (path_join session_dir f),
                  Some (path_join session_dir f)))).
Proof.
  intros fs dir. rewrite find_sensor_files_eq. cbn [fst snd].
  pose proof (last_match_characterised
                (sensor_match fs dir ACCEL_KEYWORDS) (listdir fs dir) dir)
    as [Ha1 Ha2].
  pose proof (last_match_characterised
                (sensor_match fs dir GYRO_KEYWORDS) (listdir fs dir) dir)
    as [Hg1 Hg2].
  repeat (split; [assumption|]).
  intros f Hin Ha Hg. split.
  - unfold session_skipped. cbn [fst snd].
    destruct (find (sensor_match fs dir ACCEL_KEYWORDS) _) as [fa|] eqn:Fa.
    2:{ rewrite last_match_none in Fa. rewrite (Fa f Hin) in Ha.
        discriminate. }
    destruct (find (sensor_match fs dir GYRO_KEYWORDS) _) as [fg|] eqn:Fg.
    2:{ rewrite last_match_none in Fg. rewrite (Fg f Hin) in Hg.
        discriminate. }
    apply last_match_greatest in Fa as (_ & Ma & _).
    apply last_match_greatest in Fg as (_ & Mg & _).
    apply sensor_match_nonempty in Ma, Mg. simpl.
    now rewrite !path_join_nonempty.
  - intros Hmax.
    rewrite (greatest_match_found _ _ f), (greatest_match_found _ _ f); auto.
    + intros f' Hin' Hm. apply Hmax; auto. rewrite Hm. apply orb_true_r.
    + intros f' Hin' Hm. apply Hmax; auto. now rewrite Hm.
Qed.

Lemma find_sensor_files_in_session_last_match_witness :
  find_sensor_files_in_session example_fs "walk/s1"
  = (Some "walk/s1/Gyro_Accel.CSV", Some "walk/s1/Gyro_Accel.CSV").
Proof.
  destruct (find_sensor_files_in_session_last_match example_fs "walk/s1")
    as (_ & _ & _ & _ & H).
  apply (H "Gyro_Accel.CSV"); [simpl; auto | reflexivity | reflexivity |].
  intros f' Hin Hm. simpl in Hin.
  destruct Hin as [<-|[<-|[<-|[]]]]; vm_compute in Hm |- *; congruence.
Defined.

(** ** Keys, sorting and the inner join *)

Lemma cell_eqb_eq a b : cell_eqb a b = true <-> a = b.
Proof.
  destruct a, b; simpl; try (split; congruence).
  - rewrite Z.eqb_eq. split; congruence.
  - rewrite String.eqb_eq. split; congruence.
Qed.

Lemma cell_le_total a b : cell_le a b \/ cell_le b a.
Proof.
  unfold cell_le. destruct a, b; simpl; auto.
  - destruct (Z.leb_spec z z0); auto. right. apply Z.leb_le. lia.
  - apply String.leb_total.
Qed.

Lemma cell_le_trans a b c : cell_le a b -> cell_le b c -> cell_le a c.
Proof.
  unfold cell_le. destruct a, b, c; simpl; try congruence.
  - rewrite !Z.leb_le. lia.
  - apply str_le_trans.
Qed.

Lemma cell_le_antisym a b : cell_le a b -> cell_le b a -> a = b.
Proof.
  unfold cell_le. destruct a, b; simpl; try congruence.
  - rewrite !Z.leb_le. intros. f_equal. lia.
  - intros H1 H2. f_equal. now apply String.leb_antisym.
Qed.

Section SortedLists.
Context {A : Type} (le : A -> A -> Prop).

(** Two sorted arrangements of the same elements are equal when the order
    is antisymmetric on them. *)
Lemma sorted_permutation_eq (l l' : list A) :
  StronglySorted le l -> StronglySorted le l' -> Permutation l l' ->
  (forall x y, In x l -> In y l -> le x y -> le y x -> x = y) ->
  l = l'.
Proof.
  intros Hl. revert l'. induction Hl as [|a l Hl IH Ha]; intros l' Hl' P Hanti.
  - apply Permutation_nil in P. now subst.
  - destruct Hl' as [|b l' Hl' Hb].
    + apply Permutation_sym, Permutation_nil in P. discriminate.
    + rewrite Forall_forall in Ha, Hb.
      assert (Hab : a = b).
      { assert (Ia : In a (b :: l'))
          by (eapply Permutation_in; [exact P|simpl; auto]).
        assert (Ib : In b (a :: l))
          by (eapply Permutation_in;
              [apply Permutation_sym; exact P|simpl; auto]).
        destruct Ia as [Ia|Ia]; [congruence|].
        destruct Ib as [Ib|Ib]; [congruence|].
        apply Hanti; simpl; auto. }
      subst b. f_equal. apply IH; auto.
      * eapply Permutation_cons_inv; eauto.
      * intros x y Hx Hy. apply Hanti; simpl; auto.
Qed.
End SortedLists.

Section Join.
Variables i j : nat.

Lemma insert_row_perm x l : Permutation (insert_row i x l) (x :: l).
Proof.
  induction l as [|y l IH]; simpl; auto.
  destruct (cell_leb (key i x) (key i y)); auto.
  rewrite IH. apply perm_swap.
Qed.

Lemma sort_rows_perm l : Permutation (sort_rows i l) l.
Proof.
  induction l as [|x l IH]; simpl; auto.
  rewrite insert_row_perm. now constructor.
Qed.

Lemma insert_row_sorted x l :
  StronglySorted (row_le i) l -> StronglySorted (row_le i) (insert_row i x l).
Proof.
  induction 1 as [|a l Hl IH Ha]; simpl.
  - repeat constructor.
  - destruct (cell_leb (key i x) (key i a)) eqn:E.
    + constructor; [now constructor|].
      constructor; auto.
      rewrite Forall_forall in *. intros y Hy.
      eapply cell_le_trans; [exact E|]. now apply Ha.
    + constructor; auto.
      rewrite Forall_forall in *. intros y Hy.
      apply (Permutation_in _ (insert_row_perm x l)) in Hy.
      destruct Hy as [<-|Hy]; auto.
      destruct (cell_le_total (key i x) (key i a)) as [H|H]; auto.
      unfold cell_le in H. congruence.
Qed.

Lemma sort_rows_sorted l : StronglySorted (row_le i) (sort_rows i l).
Proof.
  induction l as [|a l IH]; simpl; [constructor|].
  now apply insert_row_sorted.
Qed.

Lemma sorted_map_key l :
  StronglySorted (row_le i) l -> StronglySorted cell_le (map (key i) l).
Proof.
  induction 1 as [|a l Hl IH Ha]; simpl; constructor; auto.
  rewrite Forall_forall in *. intros k Hk.
  apply in_map_iff in Hk as (r & <- & Hr). now apply Ha.
Qed.

(** The keys of the sorted rows are the sorted keys. *)
Lemma sort_rows_keys l ks :
  Permutation (map (key i) l) ks -> StronglySorted cell_le ks ->
  map (key i) (sort_rows i l) = ks.
Proof.
  intros P Hs. apply (sorted_permutation_eq cell_le); auto.
  - apply sorted_map_key, sort_rows_sorted.
  - rewrite <- P. apply Permutation_map, sort_rows_perm.
  - intros x y _ _. apply cell_le_antisym.
Qed.

Lemma NoDup_map_key_inj (l : list row) x y :
  NoDup (map (key i) l) -> In x l -> In y l -> key i x = key i y -> x = y.
Proof.
  induction l as [|a l IH]; simpl; intros Hnd Hx Hy E; [contradiction|].
  inversion Hnd as [|? ? Hna Hnd']; subst.
  destruct Hx as [<-|Hx], Hy as [<-|Hy]; auto.
  - exfalso. apply Hna. rewrite E. now apply in_map.
  - exfalso. apply Hna. rewrite <- E. now apply in_map.
Qed.

(** Rows with distinct keys have one sorted arrangement. *)
Lemma sort_rows_permutation l l' :
  NoDup (map (key i) l) -> Permutation l l' ->
  sort_rows i l' = sort_rows i l.
Proof.
  intros Hnd P. symmetry.
  apply (sorted_permutation_eq (row_le i)); try apply sort_rows_sorted.
  - rewrite !sort_rows_perm. exact P.
  - intros x y Hx Hy Hxy Hyx.
    apply (Permutation_in _ (sort_rows_perm l)) in Hx, Hy.
    eapply NoDup_map_key_inj; eauto. now apply cell_le_antisym.
Qed.

Lemma matching_length k R :
  List.length (matching j k R) = count_occ cell_eq_dec (map (key j) R) k.
Proof.
  induction R as [|r R IH]; simpl; auto.
  destruct (cell_eq_dec (key j r) k) as [E|E].
  - rewrite (proj2 (cell_eqb_eq k (key j r))) by auto. simpl. now rewrite IH.
  - destruct (cell_eqb k (key j r)) eqn:B; auto.
    apply cell_eqb_eq in B. congruence.
Qed.

Lemma matching_perm k R R' :
  Permutation R R' -> Permutation (matching j k R) (matching j k R').
Proof.
  unfold matching. induction 1; simpl; auto.
  - destruct (cell_eqb k (key j x)); auto.
  - destruct (cell_eqb k (key j x)), (cell_eqb k (key j y)); auto.
    apply perm_swap.
  - etransitivity; eauto.
Qed.

(** With distinct keys on the right, the rows matching j a key do not depend
    on the order of the right rows. *)
Lemma matching_permutation k R R' :
  NoDup (map (key j) R) -> Permutation R R' -> matching j k R' = matching j k R.
Proof.
  intros Hnd P.
  pose proof (matching_perm k R R' P) as PM.
  pose proof (matching_length k R) as HL.
  assert (Hc : count_occ cell_eq_dec (map (key j) R) k <= 1)
    by (now apply NoDup_count_occ).
  destruct (matching j k R) as [|r [|r' m]] eqn:E; simpl in HL; try lia.
  - apply Permutation_nil in PM. now rewrite PM.
  - apply Permutation_length_1_inv in PM. now rewrite PM.
Qed.

Lemma join_rows_permutation L L' R R' :
  NoDup (map (key i) L) -> NoDup (map (key j) R) ->
  Permutation L L' -> Permutation R R' ->
  join_rows i j L' R' = join_rows i j L R.
Proof.
  intros HL HR PL PR. unfold join_rows.
  rewrite (sort_rows_permutation L L') by auto.
  apply flat_map_ext. intros l.
  change (filter (fun r => cell_eqb (key i l) (key j r)) R')
    with (matching j (key i l) R').
  now rewrite (matching_permutation _ R R').
Qed.

(** The keys of the join: every key of the sorted left rows, as many times
    as it occurs on the right. *)
Lemma join_keys_sorted S R :
  (forall l, In l S -> i < List.length l) ->
  map (key i)
      (flat_map (fun l => map (fun r => l ++ remove_nth j r)
                              (matching j (key i l) R)) S)
  = flat_map (fun k => repeat k (count_occ cell_eq_dec (map (key j) R) k))
             (map (key i) S).
Proof.
  induction S as [|l S IH]; intros Hlen; [reflexivity|].
  cbn [flat_map map].
  rewrite map_app.
  f_equal; [|apply IH; intros; apply Hlen; simpl; auto].
  rewrite map_map, <- matching_length.
  assert (Hi : i < List.length l) by (apply Hlen; simpl; auto).
  generalize (matching j (key i l) R). intros m.
  induction m as [|r m IHm]; simpl; auto.
  f_equal; auto. unfold key. now apply app_nth1.
Qed.

Lemma join_keys L R :
  (forall l, In l L -> i < List.length l) ->
  map (key i) (join_rows i j L R)
  = flat_map (fun k => repeat k (count_occ cell_eq_dec (map (key j) R) k))
             (map (key i) (sort_rows i L)).
Proof.
  intros Hlen. unfold join_rows. apply join_keys_sorted.
  intros l Hl. apply Hlen. eapply Permutation_in; [|exact Hl].
  apply sort_rows_perm.
Qed.

(** Inner-join semantics on keys. *)
Lemma join_keys_In L R k :
  (forall l, In l L -> i < List.length l) ->
  In k (map (key i) (join_rows i j L R))
  <-> In k (map (key i) L) /\ In k (map (key j) R).
Proof.
  intros Hlen. rewrite join_keys by auto. rewrite in_flat_map.
  split.
  - intros (k' & Hk' & Hrep). apply repeat_spec in Hrep as E. subst k'.
    split.
    + eapply Permutation_in; [|exact Hk'].
      apply Permutation_map, sort_rows_perm.
    + apply (count_occ_In cell_eq_dec).
      destruct (count_occ cell_eq_dec (map (key j) R) k); [inversion Hrep|lia].
  - intros [HL HR]. exists k. split.
    + eapply Permutation_in; [|exact HL].
      apply Permutation_sym, Permutation_map, sort_rows_perm.
    + apply (count_occ_In cell_eq_dec) in HR.
      destruct (count_occ cell_eq_dec (map (key j) R) k); [lia|simpl; auto].
Qed.

Lemma join_rows_disjoint L R :
  (forall k, In k (map (key i) L) -> ~ In k (map (key j) R)) ->
  join_rows i j L R = [].
Proof.
  intros Hdis. unfold join_rows.
  assert (H : forall S, (forall l, In l S -> In l L) ->
    flat_map (fun l => map (fun r => l ++ remove_nth j r)
                           (matching j (key i l) R)) S = []).
  { induction S as [|l S IH]; intros HS; simpl; auto.
    rewrite IH by (intros; apply HS; simpl; auto).
    assert (E : matching j (key i l) R = []).
    { apply length_zero_iff_nil. rewrite matching_length.
      apply count_occ_not_In. apply Hdis. apply in_map. apply HS.
      simpl; auto. }
    now rewrite E. }
  apply H. intros l Hl. eapply Permutation_in; [|exact Hl].
  apply sort_rows_perm.
Qed.

End Join.

(** ** Column positions *)

Lemma positions_from_In n i l cols :
  In n (positions_from i l cols) <-> i <= n /\ nth_error cols (n - i) = Some l.
Proof.
  revert i. induction cols as [|c cs IH]; intros i; simpl.
  - split; [contradiction|]. intros [_ H]. now destruct (n - i).
  - assert (Hrest : In n (positions_from (S i) l cs)
                    <-> i <= n /\ n <> i /\ nth_error cs (n - S i) = Some l).
    { rewrite IH. intuition lia. }
    destruct (Nat.eq_dec n i) as [->|Hne].
    + rewrite Nat.sub_diag. simpl.
      destruct (String.eqb_spec c l) as [->|Hc]; simpl; rewrite ?Hrest.
      * intuition.
      * split; [intuition|]. intros [_ [= E]]. contradiction.
    + assert (E : n - i = S (n - S i) \/ n < i) by lia.
      destruct E as [E|E].
      * rewrite E. simpl.
        destruct (String.eqb c l); simpl; rewrite Hrest; intuition lia.
      * destruct (String.eqb c l); simpl; rewrite Hrest; intuition lia.
Qed.

Lemma positions_In n l cols :
  In n (positions l cols) <-> nth_error cols n = Some l.
Proof.
  unfold positions. rewrite positions_from_In, Nat.sub_0_r. intuition lia.
Qed.

Lemma positions_nth n l cols : In n (positions l cols) -> nth n cols EmptyString = l.
Proof. rewrite positions_In. apply nth_error_nth. Qed.

Lemma positions_nonempty l cols : In l cols -> positions l cols <> [].
Proof.
  intros Hin E. apply In_nth_error in Hin as [n Hn].
  apply positions_In in Hn. rewrite E in Hn. contradiction.
Qed.

Lemma positions_cons_same l T :
  positions l (l :: T) = 0 :: positions_from 1 l T.
Proof. unfold positions. simpl. now rewrite String.eqb_refl. Qed.

Lemma positions_from_one_nil l T : positions_from 1 l T = [] -> ~ In l T.
Proof.
  intros E Hin. apply In_nth_error in Hin as [n Hn].
  assert (H : In (S n) (positions_from 1 l T)).
  { apply positions_from_In. split; [lia|].
    now replace (S n - 1) with n by lia. }
  rewrite E in H. contradiction.
Qed.

(** The labels found at the positions of [l] are all [l]. *)
Lemma map_nth_positions l cols ps :
  (forall p, In p ps -> In p (positions l cols)) ->
  map (fun i => nth i cols EmptyString) ps = map (fun _ => l) ps.
Proof.
  intros H. apply map_ext_in. intros p Hp. apply positions_nth. now apply H.
Qed.

Lemma locate_present labels cols :
  (forall l, In l labels -> In l cols) ->
  exists idxs, locate labels cols = Ok idxs.
Proof.
  induction labels as [|l ls IH]; intros H; simpl; [eauto|].
  destruct (positions l cols) as [|p ps] eqn:P.
  - exfalso. apply (positions_nonempty l cols); auto. apply H. simpl; auto.
  - destruct IH as [rest ->]; [intros; apply H; simpl; auto|].
    simpl. eauto.
Qed.

Lemma str_in_list_In s l : str_in_list s l = true <-> In s l.
Proof.
  unfold str_in_list. rewrite existsb_exists. split.
  - intros (x & Hx & E). apply String.eqb_eq in E. now subst.
  - intros H. exists s. split; auto. apply String.eqb_refl.
Qed.

(** ** Rows *)

Lemma update_nth_length n f r :
  List.length (update_nth n f r) = List.length r.
Proof.
  revert n. induction r as [|c t IH]; intros [|n]; simpl; auto.
Qed.

Lemma key_update_head f c t : key 0 (update_nth 0 f (c :: t)) = f c.
Proof. reflexivity. Qed.

Lemma key_take_head p ps r : key 0 (take (p :: ps) r) = key p r.
Proof. reflexivity. Qed.

(** ** The relabelling of the axis columns *)

Lemma get_set k v c d :
  Dict.get c (Dict.set k v d)
  = if String.eqb k c then Some v else Dict.get c d.
Proof.
  destruct (String.eqb_spec k c) as [->|Hne].
  - apply get_set_same.
  - now apply get_set_other.
Qed.

Lemma rename_axis_labels mx my mz sx sy sz c :
  rename_label (axis_labels mx my mz sx sy sz) c
  = if String.eqb mz c then sz
    else if String.eqb my c then sy
    else if String.eqb mx c then sx
    else c.
Proof.
  unfold rename_label, axis_labels, Dict.of_list. cbn [fold_left fst snd].
  rewrite !get_set. simpl.
  destruct (String.eqb mz c), (String.eqb my c), (String.eqb mx c); auto.
Qed.

(** A label produced by the relabelling is left alone by it, as soon as no
    axis column is named like the output column of another axis. *)
Lemma rename_axis_labels_idem mx my mz sx sy sz c :
  mx <> sy -> mx <> sz -> my <> sx -> my <> sz -> mz <> sx -> mz <> sy ->
  rename_label (axis_labels mx my mz sx sy sz)
               (rename_label (axis_labels mx my mz sx sy sz) c)
  = rename_label (axis_labels mx my mz sx sy sz) c.
Proof.
  intros. rewrite !rename_axis_labels.
  repeat match goal with
         | |- context [String.eqb ?a ?b] => destruct (String.eqb_spec a b)
         end; congruence.
Qed.

Lemma candidate_neq axis c c' :
  axis_candidate axis c = true -> axis_candidate axis c' = false -> c <> c'.
Proof. intros H1 H2 ->. congruence. Qed.

(** ** One side of the merge: selection and relabelling *)

Lemma select_axes_shape sensor common m cols rs sel ka :
  axes_invariant cols m ->
  sensor_ok sensor = true ->
  select_axes sensor common m (mkDF cols rs) = Ok sel ->
  positions common (columns sel) = [ka] ->
  ka = 0
  /\ exists p rest T,
      positions common cols = [p]
      /\ ~ In common T
      /\ forall rs',
          select_axes sensor common m (mkDF cols rs')
          = Ok (mkDF (common :: T) (map (take (p :: rest)) rs')).
Proof.
  intros [_ Hinv] Hs.
  unfold sensor_ok in Hs.
  repeat (apply andb_prop in Hs as [Hs ?]).
  repeat match goal with
         | H : negb _ = true |- _ => apply negb_true_iff in H
         end.
  unfold select_axes, getitem.
  destruct (Dict.get "x" m) as [mx|] eqn:Gx; [|discriminate].
  destruct (Dict.get "y" m) as [my|] eqn:Gy; [|discriminate].
  destruct (Dict.get "z" m) as [mz|] eqn:Gz; [|discriminate].
  apply Hinv in Gx as (_ & _ & Cx).
  apply Hinv in Gy as (_ & _ & Cy).
  apply Hinv in Gz as (_ & _ & Cz).
  cbn [bind]. unfold getitem_list. cbn [columns rows].
  fold (axis_labels mx my mz (sensor ++ "_x") (sensor ++ "_y") (sensor ++ "_z")).
  set (d := axis_labels mx my mz _ _ _).
  assert (Hidem : forall c, rename_label d (rename_label d c) = rename_label d c).
  { intros c. apply rename_axis_labels_idem; eapply candidate_neq; eauto. }
  cbn [locate].
  destruct (positions common cols) as [|p pk] eqn:Pk; [discriminate|].
  destruct (positions mx cols) as [|? ?]; [discriminate|].
  destruct (positions my cols) as [|? ?]; [discriminate|].
  destruct (positions mz cols) as [|? ?]; [discriminate|].
  cbn [bind]. intros [= <-]. unfold rename. cbn [columns rows].
  intros P.
  assert (Hp : forall q, In q (p :: pk) -> nth q cols EmptyString = common).
  { intros q Hq. apply positions_nth. now rewrite Pk. }
  assert (Hc : rename_label d common = common).
  { assert (Hk : In ka [ka]) by (simpl; auto).
    rewrite <- P in Hk. apply positions_In, nth_error_In in Hk.
    apply in_map_iff in Hk as (lbl & <- & _). apply Hidem. }
  cbn [app map] in P. rewrite (Hp p), Hc in P by (simpl; auto).
  rewrite positions_cons_same in P. injection P as <- P.
  apply positions_from_one_nil in P.
  split; [reflexivity|].
  destruct pk as [|p' pk].
  - eexists p, _, _. split; [reflexivity|]. split; [exact P|].
    intros rs'. cbn [app map]. rewrite (Hp p), Hc by (simpl; auto).
    reflexivity.
  - exfalso. apply P. cbn [app map].
    rewrite (Hp p'), Hc by (simpl; auto). simpl; auto.
Qed.

Lemma choose_timestamp_column_In cols c :
  choose_timestamp_column cols = Ok c -> In c cols.
Proof.
  unfold choose_timestamp_column.
  destruct (search_patterns TS_PATTERNS cols) as [c'|] eqn:S.
  - intros [= <-]. eapply search_patterns_In; eauto.
  - destruct cols as [|c' cs]; [discriminate|]. intros [= <-]. simpl; auto.
Qed.

Lemma unify_timestamp_mk ts common cols rows :
  unify_timestamp ts common (mkDF cols rows)
  = mkDF (unify_columns ts common cols) rows.
Proof.
  unfold unify_timestamp, unify_columns, rename.
  now destruct (negb (String.eqb common ts)).
Qed.

(** The single column labelled [common_ts] after unification is the
    detected timestamp column. *)
Lemma unify_columns_position ts common cols p :
  In ts cols ->
  positions common (unify_columns ts common cols) = [p] ->
  exists ps, positions ts cols = p :: ps.
Proof.
  intros Hin P.
  destruct (positions ts cols) as [|q ps] eqn:Q.
  - exfalso. now apply (positions_nonempty ts cols).
  - exists ps. f_equal.
    assert (Hq : In q (positions ts cols)) by (rewrite Q; simpl; auto).
    apply positions_In in Hq.
    assert (Hq' : In q (positions common (unify_columns ts common cols))).
    { apply positions_In. unfold unify_columns.
      destruct (String.eqb_spec common ts) as [->|Hne]; simpl; auto.
      rewrite nth_error_map, Hq. simpl. unfold rename_label. simpl.
      now rewrite String.eqb_refl. }
    rewrite P in Hq'. simpl in Hq'. intuition.
Qed.

Lemma positions_cons_unique l T : ~ In l T -> positions l (l :: T) = [0].
Proof.
  intros Hn. rewrite positions_cons_same. f_equal.
  destruct (positions_from 1 l T) as [|n ns] eqn:E; auto.
  exfalso. apply Hn.
  assert (Hin : In n (positions_from 1 l T)) by (rewrite E; simpl; auto).
  apply positions_from_In in Hin as [_ Hin]. eapply nth_error_In; eauto.
Qed.

Lemma detect_xyz_columns_invariant cols m :
  detect_xyz_columns cols = Ok m -> axes_invariant cols m.
Proof.
  unfold detect_xyz_columns.
  destruct (negb (Nat.eqb (List.length (all_passes cols)) 3)); [discriminate|].
  intros [= <-]. apply all_passes_invariant.
Qed.

(** ** The last step: column order *)

Lemma order_columns_shape common T :
  exists fidx oc,
    forall rs,
      order_columns common (mkDF (common :: T) rs)
      = Ok (mkDF ("timestamp" :: oc) (map (take (0 :: fidx)) rs)).
Proof.
  unfold order_columns.
  set (T' := if negb (String.eqb common "timestamp")
             then map (rename_label [(common, "timestamp")]) T else T).
  assert (E : forall rs,
             (if negb (String.eqb common "timestamp")
              then rename [(common, "timestamp")] (mkDF (common :: T) rs)
              else mkDF (common :: T) rs)
             = mkDF ("timestamp" :: T') rs).
  { intros rs. unfold T', rename, rename_label.
    destruct (String.eqb_spec common "timestamp") as [->|Hne]; simpl; auto.
    now rewrite String.eqb_refl. }
  destruct (locate_present
              (filter (fun c => str_in_list c ("timestamp" :: T'))
                      (tl OUTPUT_COLS)) ("timestamp" :: T')) as [rest Hrest].
  { intros l Hl. apply filter_In in Hl as [_ Hl]. now apply str_in_list_In. }
  exists (positions_from 1 "timestamp" T' ++ rest).
  eexists. intros rs. rewrite E. cbn [columns].
  unfold OUTPUT_COLS in *. cbn [filter tl] in *.
  replace (str_in_list "timestamp" ("timestamp" :: T')) with true
    by (symmetry; apply str_in_list_In; simpl; auto).
  unfold getitem_list. cbn [columns rows locate].
  rewrite positions_cons_same, Hrest. cbn [bind app map nth]. reflexivity.
Qed.

(** ** The rows of [merge_session] *)

Lemma sensor_ok_accel : sensor_ok "accel" = true.
Proof. reflexivity. Qed.

Lemma sensor_ok_gyro : sensor_ok "gyro" = true.
Proof. reflexivity. Qed.

Lemma merge_unique_keys common Ta Tg :
  ~ In common Ta -> ~ In common Tg ->
  exists T,
    forall La Lg,
      merge (mkDF (common :: Ta) La) (mkDF (common :: Tg) Lg) common
      = Ok (mkDF (common :: T) (join_rows 0 0 La Lg)).
Proof.
  intros Ha Hg. eexists. intros La Lg. unfold merge. cbn [columns rows].
  rewrite !positions_cons_unique by auto.
  cbn [remove_nth map app]. unfold suffixed at 1.
  rewrite String.eqb_refl. reflexivity.
Qed.

Lemma coerce_unique_key parse common T L :
  ~ In common T ->
  coerce_column parse common (mkDF (common :: T) L)
  = Ok (mkDF (common :: T) (map (update_nth 0 (to_numeric parse)) L)).
Proof.
  intros H. unfold coerce_column. cbn [columns rows].
  now rewrite positions_cons_unique.
Qed.

(** A successful merge depends on the rows as follows: each side is reduced
    to its timestamp column, made numeric, followed by its axis columns; the
    two sides are joined on that first column; the columns of the join are
    reordered, the key first. Which columns are taken is decided by the
    column labels alone. *)
Lemma merge_session_rows parse ca cg ra rg m :
  merge_session parse (mkDF ca ra) (mkDF cg rg) = Ok m ->
  exists pa ia pg ig fidx oc,
    (forall ra', timestamp_values (mkDF ca ra') = map (key pa) ra')
    /\ (forall rg', timestamp_values (mkDF cg rg') = map (key pg) rg')
    /\ forall ra' rg',
        merge_session parse (mkDF ca ra') (mkDF cg rg')
        = Ok (mkDF ("timestamp" :: oc)
                (map (take (0 :: fidx))
                   (join_rows 0 0
                      (map (update_nth 0 (to_numeric parse))
                           (map (take (pa :: ia)) ra'))
                      (map (update_nth 0 (to_numeric parse))
                           (map (take (pg :: ig)) rg'))))).
Proof.
  intros H. unfold merge_session in H. cbn [columns] in H.
  destruct (choose_timestamp_column ca) as [ts_a|] eqn:Ta; [|discriminate].
  destruct (choose_timestamp_column cg) as [ts_g|] eqn:Tg; [|discriminate].
  cbn [bind] in H.
  set (common := if String.eqb ts_a ts_g then ts_a else "timestamp") in H.
  rewrite !unify_timestamp_mk in H. cbn [columns] in H.
  destruct (detect_xyz_columns (unify_columns ts_a common ca)) as [am|] eqn:Da;
    [|discriminate].
  destruct (detect_xyz_columns (unify_columns ts_g common cg)) as [gm|] eqn:Dg;
    [|discriminate].
  cbn [bind] in H.
  destruct (select_axes "accel" common am _) as [a_sel|] eqn:Sa; [|discriminate].
  destruct (select_axes "gyro" common gm _) as [g_sel|] eqn:Sg; [|discriminate].
  cbn [bind] in H.
  assert (Hpos : exists ka kg, positions common (columns a_sel) = [ka]
                               /\ positions common (columns g_sel) = [kg]).
  { unfold coerce_timestamps, coerce_column in H.
    destruct (positions common (columns a_sel)) as [|ka [|? ?]] eqn:Pa;
      destruct (positions common (columns g_sel)) as [|kg [|? ?]] eqn:Pg;
      unfold merge in H; cbn [columns rows] in H; rewrite ?Pa, ?Pg in H;
      try discriminate.
    eauto. }
  destruct Hpos as (ka & kg & Pa & Pg).
  destruct (select_axes_shape _ _ _ _ _ _ _
              (detect_xyz_columns_invariant _ _ Da) sensor_ok_accel Sa Pa)
    as (_ & pa & ia & TA & Ppa & HTA & Hsa).
  destruct (select_axes_shape _ _ _ _ _ _ _
              (detect_xyz_columns_invariant _ _ Dg) sensor_ok_gyro Sg Pg)
    as (_ & pg & ig & TG & Ppg & HTG & Hsg).
  destruct (unify_columns_position _ _ _ _
              (choose_timestamp_column_In _ _ Ta) Ppa) as [psa Qa].
  destruct (unify_columns_position _ _ _ _
              (choose_timestamp_column_In _ _ Tg) Ppg) as [psg Qg].
  destruct (merge_unique_keys common TA TG HTA HTG) as [T HT].
  destruct (order_columns_shape common T) as (fidx & oc & Hord).
  exists pa, ia, pg, ig, fidx, oc.
  split; [|split].
  - intros ra'. unfold timestamp_values, column_values. cbn [columns rows].
    now rewrite Ta, Qa.
  - intros rg'. unfold timestamp_values, column_values. cbn [columns rows].
    now rewrite Tg, Qg.
  - intros ra' rg'. unfold merge_session. cbn [columns].
    rewrite Ta, Tg. cbn [bind]. fold common.
    rewrite !unify_timestamp_mk. cbn [columns].
    rewrite Da, Dg. cbn [bind]. rewrite Hsa, Hsg. cbn [bind].
    unfold coerce_timestamps. rewrite !coerce_unique_key by auto.
    rewrite HT. cbn [bind]. apply Hord.
Qed.

Lemma side_keys parse p ps rs :
  map (key 0) (side parse (p :: ps) rs)
  = map (to_numeric parse) (map (key p) rs).
Proof. unfold side. rewrite !map_map. reflexivity. Qed.

Lemma side_nonempty parse p ps rs l :
  In l (side parse (p :: ps) rs) -> 0 < List.length l.
Proof.
  unfold side. rewrite map_map. intros H.
  apply in_map_iff in H as (r & <- & _).
  rewrite update_nth_length. simpl. lia.
Qed.

Lemma ordered_timestamps oc fidx J :
  column_values "timestamp" (mkDF ("timestamp" :: oc) (map (take (0 :: fidx)) J))
  = map (key 0) J.
Proof.
  unfold column_values. cbn [columns rows].
  rewrite positions_cons_same, map_map. reflexivity.
Qed.

(** What [merge_session] returns, in terms of the timestamps of its two
    arguments. *)
Lemma merge_session_result parse ca cg :
  schema_merges parse ca cg ->
  exists pa ia pg ig fidx oc,
    forall ra rg,
      merge_session parse (mkDF ca ra) (mkDF cg rg)
      = Ok (mkDF ("timestamp" :: oc)
              (map (take (0 :: fidx))
                 (join_rows 0 0 (side parse (pa :: ia) ra)
                            (side parse (pg :: ig) rg))))
      /\ map (key 0) (side parse (pa :: ia) ra)
         = numeric_timestamps parse (mkDF ca ra)
      /\ map (key 0) (side parse (pg :: ig) rg)
         = numeric_timestamps parse (mkDF cg rg).
Proof.
  intros [m0 H0].
  apply merge_session_rows in H0
    as (pa & ia & pg & ig & fidx & oc & Hta & Htg & Hm).
  exists pa, ia, pg, ig, fidx, oc. intros ra rg.
  unfold numeric_timestamps. rewrite Hta, Htg, !side_keys.
  repeat split. apply Hm.
Qed.

Lemma schema_merges_of_result parse a g m :
  merge_session parse a g = Ok m ->
  schema_merges parse (columns a) (columns g).
Proof.
  destruct a as [ca ra], g as [cg rg]. intros H.
  apply merge_session_rows in H as (? & ? & ? & ? & ? & ? & _ & _ & Hm).
  eexists. apply Hm.
Qed.

(** Inner-join semantics of [merge_session] on timestamps. *)
Lemma merge_session_timestamps parse a g m k :
  merge_session parse a g = Ok m ->
  In k (column_values "timestamp" m)
  <-> In k (numeric_timestamps parse a) /\ In k (numeric_timestamps parse g).
Proof.
  intros H. pose proof (schema_merges_of_result _ _ _ _ H) as Hs.
  destruct a as [ca ra], g as [cg rg]. cbn [columns] in Hs.
  destruct (merge_session_result _ _ _ Hs)
    as (pa & ia & pg & ig & fidx & oc & Hres).
  destruct (Hres ra rg) as (Hm & Ka & Kg).
  rewrite Hm in H. injection H as <-.
  rewrite ordered_timestamps, <- Ka, <- Kg.
  apply join_keys_In. apply side_nonempty.
Qed.

(** ** [merge_session] *)

Lemma sorted_123 : StronglySorted cell_le [Num 1; Num 2; Num 3].
Proof. repeat constructor. Qed.

Lemma NoDup_123 : NoDup [Num 1; Num 2; Num 3].
Proof.
  repeat constructor; simpl; intros H;
    repeat destruct H as [H|H]; try discriminate; auto.
Qed.

Lemma NoDup_234 : NoDup [Num 2; Num 3; Num 4].
Proof.
  repeat constructor; simpl; intros H;
    repeat destruct H as [H|H]; try discriminate; auto.
Qed.

(** C1: when the timestamp column of the accelerometer table holds 1, 2, 3
    and that of the gyroscope table holds 2, 3, 4, in any order of the rows,
    [merge_session] returns exactly two rows, with timestamps 2 and 3 in
    that order, and returns the same table for every permutation of the
    rows of either input. *)
Theorem merge_session_123_234 :
  forall (parse : string -> option Z) (a g : DataFrame),
    schema_merges parse (columns a) (columns g) ->
    Permutation (timestamp_values a) [Num 1; Num 2; Num 3] ->
    Permutation (timestamp_values g) [Num 2; Num 3; Num 4] ->
    exists m,
      merge_session parse a g = Ok m
      /\ List.length (rows m) = 2
      /\ column_values "timestamp" m = [Num 2; Num 3]
      /\ forall a' g',
          columns a' = columns a -> Permutation (rows a) (rows a') ->
          columns g' = columns g -> Permutation (rows g) (rows g') ->
          merge_session parse a' g' = Ok m.
Proof.
  intros parse [ca ra] [cg rg] Hs Pa Pg. cbn [columns rows] in *.
  destruct (merge_session_result _ _ _ Hs)
    as (pa & ia & pg & ig & fidx & oc & Hres).
  destruct (Hres ra rg) as (Hm & Ka & Kg).
  set (L := side parse (pa :: ia) ra) in *.
  set (R := side parse (pg :: ig) rg) in *.
  assert (PL : Permutation (map (key 0) L) [Num 1; Num 2; Num 3]).
  { rewrite Ka. unfold numeric_timestamps.
    apply (Permutation_map (to_numeric parse)) in Pa. exact Pa. }
  assert (PR : Permutation (map (key 0) R) [Num 2; Num 3; Num 4]).
  { rewrite Kg. unfold numeric_timestamps.
    apply (Permutation_map (to_numeric parse)) in Pg. exact Pg. }
  assert (KJ : map (key 0) (join_rows 0 0 L R) = [Num 2; Num 3]).
  { rewrite join_keys by apply side_nonempty.
    rewrite (sort_rows_keys 0 L _ PL sorted_123).
    cbn [map flat_map].
    rewrite !(proj1 (Permutation_count_occ cell_eq_dec _ _) PR).
    reflexivity. }
  eexists. split; [exact Hm|]. cbn [rows].
  split; [|split].
  - rewrite length_map, <- (length_map (key 0)), KJ. reflexivity.
  - now rewrite ordered_timestamps.
  - intros [ca' ra'] [cg' rg']. cbn [columns rows].
    intros -> Pra -> Prg.
    destruct (Hres ra' rg') as (Hm' & _ & _). rewrite Hm'.
    do 3 f_equal. apply join_rows_permutation.
    + eapply Permutation_NoDup; [apply Permutation_sym, PL|apply NoDup_123].
    + eapply Permutation_NoDup; [apply Permutation_sym, PR|apply NoDup_234].
    + unfold L, side. now do 2 apply Permutation_map.
    + unfold R, side. now do 2 apply Permutation_map.
Qed.

Lemma merge_session_123_234_witness :
  exists m,
    merge_session parse_decimal accel_123 gyro_234 = Ok m
    /\ List.length (rows m) = 2
    /\ column_values "timestamp" m = [Num 2; Num 3]
    /\ forall a' g',
        columns a' = columns accel_123 ->
        Permutation (rows accel_123) (rows a') ->
        columns g' = columns gyro_234 ->
        Permutation (rows gyro_234) (rows g') ->
        merge_session parse_decimal a' g' = Ok m.
Proof.
  apply (merge_session_123_234 parse_decimal accel_123 gyro_234).
  - eexists. vm_compute. reflexivity.
  - change (timestamp_values accel_123) with [Num 3; Num 1; Num 2].
    apply (@Permutation_cons_app cell _ [Num 1; Num 2] [] (Num 3)).
    apply Permutation_refl.
  - change (timestamp_values gyro_234) with [Num 4; Num 2; Num 3].
    apply (@Permutation_cons_app cell _ [Num 2; Num 3] [] (Num 4)).
    apply Permutation_refl.
Defined.

(** ** Rows with a missing timestamp *)

Lemma key_app_nonempty (l x : row) :
  0 < List.length l -> key 0 (l ++ x) = key 0 l.
Proof. destruct l; simpl; [lia|reflexivity]. Qed.

(** The sort is stable and puts missing keys last: it leaves the rows with
    a missing key in their order. *)
Lemma insert_row_null x l :
  filter (fun r => is_nan (key 0 r)) (insert_row 0 x l)
  = filter (fun r => is_nan (key 0 r)) (x :: l).
Proof.
  induction l as [|y l IH]; [reflexivity|].
  cbn [insert_row].
  destruct (cell_leb (key 0 x) (key 0 y)) eqn:E; [reflexivity|].
  cbn [filter] in *. rewrite IH.
  destruct (key 0 x), (key 0 y); simpl in *; try reflexivity; discriminate.
Qed.

Lemma sort_rows_null l :
  filter (fun r => is_nan (key 0 r)) (sort_rows 0 l)
  = filter (fun r => is_nan (key 0 r)) l.
Proof.
  induction l as [|x l IH]; [reflexivity|].
  change (sort_rows 0 (x :: l)) with (insert_row 0 x (sort_rows 0 l)).
  rewrite insert_row_null. cbn [filter]. now rewrite IH.
Qed.

Lemma filter_null_left (l : row) (f : row -> row) X :
  0 < List.length l ->
  filter (fun x => is_nan (key 0 x)) (map (fun r => l ++ f r) X)
  = if is_nan (key 0 l) then map (fun r => l ++ f r) X else [].
Proof.
  intros H. induction X as [|r X IH]; cbn [map filter].
  - now destruct (is_nan (key 0 l)).
  - rewrite key_app_nonempty, IH by exact H.
    now destruct (is_nan (key 0 l)).
Qed.

(** The rows of the join with a missing key: every left row with a missing
    key with every right row with a missing key, in the left order, then in
    the right order. *)
Lemma join_rows_null L R :
  (forall l, In l L -> 0 < List.length l) ->
  filter (fun x => is_nan (key 0 x)) (join_rows 0 0 L R)
  = flat_map (fun l => map (fun r => l ++ remove_nth 0 r)
                           (filter (fun r => is_nan (key 0 r)) R))
             (filter (fun l => is_nan (key 0 l)) L).
Proof.
  intros Hlen. rewrite <- (sort_rows_null L). unfold join_rows.
  assert (HS : forall l, In l (sort_rows 0 L) -> 0 < List.length l).
  { intros l Hl. apply Hlen.
    eapply Permutation_in; [apply sort_rows_perm|exact Hl]. }
  revert HS. generalize (sort_rows 0 L) as S.
  induction S as [|l S IH]; intros HS; [reflexivity|].
  cbn [flat_map filter].
  rewrite filter_app, filter_null_left by (apply HS; simpl; auto).
  specialize (IH (fun l0 H0 => HS l0 (or_intror H0))).
  destruct (key 0 l) eqn:K; cbn [is_nan flat_map app]; try exact IH.
  f_equal. exact IH.
Qed.

Lemma side_map parse idxs rs :
  side parse idxs rs
  = map (fun r => update_nth 0 (to_numeric parse) (take idxs r)) rs.
Proof. unfold side. now rewrite map_map. Qed.

Lemma null_at_first l oc x : null_at l (l :: oc) x = is_nan (key 0 x).
Proof.
  unfold null_at, column_values. cbn [columns rows].
  rewrite positions_cons_same. cbn [map existsb]. apply orb_false_r.
Qed.

(** [merge_session] row by row: each side maps its rows one by one, the
    timestamp first; the images are joined on the timestamp and each joined
    row is mapped to an output row, the timestamp first. *)
Lemma merge_session_pairs parse ca cg :
  schema_merges parse ca cg ->
  exists (sa sg out : row -> row) oc,
    (forall ra rg,
        merge_session parse (mkDF ca ra) (mkDF cg rg)
        = Ok (mkDF ("timestamp" :: oc)
                (map out (join_rows 0 0 (map sa ra) (map sg rg)))))
    /\ (forall l, 0 < List.length (sa l))
    /\ (forall x, key 0 (out x) = key 0 x)
    /\ (forall ra, numeric_timestamps parse (mkDF ca ra)
                   = map (fun l => key 0 (sa l)) ra)
    /\ (forall rg, numeric_timestamps parse (mkDF cg rg)
                   = map (fun r => key 0 (sg r)) rg).
Proof.
  intros Hs.
  destruct (merge_session_result _ _ _ Hs)
    as (pa & ia & pg & ig & fidx & oc & Hres).
  exists (fun r => update_nth 0 (to_numeric parse) (take (pa :: ia) r)),
         (fun r => update_nth 0 (to_numeric parse) (take (pg :: ig) r)),
         (take (0 :: fidx)), oc.
  split; [|split; [|split; [|split]]].
  - intros ra rg. destruct (Hres ra rg) as (Hm & _ & _).
    now rewrite <- !side_map.
  - intros l. rewrite update_nth_length. simpl. lia.
  - reflexivity.
  - intros ra. destruct (Hres ra []) as (_ & Ka & _).
    now rewrite <- Ka, side_map, map_map.
  - intros rg. destruct (Hres [] rg) as (_ & _ & Kg).
    now rewrite <- Kg, side_map, map_map.
Qed.

Lemma cross_row {B E : Type} (f : B -> E) (pr : B -> list E) Y :
  (forall r, In r Y -> pr r = [f r]) -> map f Y = flat_map pr Y.
Proof.
  induction Y as [|r Y IH]; intros H; simpl; [reflexivity|].
  rewrite (H r) by (simpl; auto).
  rewrite IH by (intros; apply H; simpl; auto). reflexivity.
Qed.

Lemma cross_pairs {A B C D E F : Type} (sa : A -> C) (sg : B -> D)
      (c : C -> D -> E) (out : E -> F) (pr : A -> B -> list F) X Y :
  (forall l r, In l X -> In r Y -> pr l r = [out (c (sa l) (sg r))]) ->
  map out (flat_map (fun l' => map (c l') (map sg Y)) (map sa X))
  = flat_map (fun l => flat_map (pr l) Y) X.
Proof.
  induction X as [|l X IH]; intros H; cbn [map flat_map]; [reflexivity|].
  rewrite map_app, IH by (intros; apply H; simpl; auto).
  f_equal. rewrite !map_map. apply cross_row.
  intros r Hr. apply H; simpl; auto.
Qed.

Lemma cross_row_filter {B E : Type} (e : B -> bool) (f : B -> E)
      (pr : B -> list E) Y :
  (forall r, pr r = if e r then [f r] else []) ->
  map f (filter e Y) = flat_map pr Y.
Proof.
  intros H. induction Y as [|r Y IH]; simpl; [reflexivity|].
  rewrite H. destruct (e r); simpl; now rewrite IH.
Qed.

Lemma cross_pairs_filter {A B C D E F : Type} (sa : A -> C) (sg : B -> D)
      (c : C -> D -> E) (out : E -> F) (e : C -> D -> bool)
      (pr : A -> B -> list F) X Y :
  (forall l r, pr l r
               = if e (sa l) (sg r) then [out (c (sa l) (sg r))] else []) ->
  map out (flat_map (fun l' => map (c l') (filter (e l') (map sg Y)))
                    (map sa X))
  = flat_map (fun l => flat_map (pr l) Y) X.
Proof.
  intros H. induction X as [|l X IH]; cbn [map flat_map]; [reflexivity|].
  rewrite map_app, IH. f_equal.
  rewrite filter_map_comm, !map_map.
  apply cross_row_filter. intros r. apply H.
Qed.

Lemma length_cross {A B E : Type} (c : A -> B -> E) (G : list A) (F : list B) :
  List.length (flat_map (fun l => map (c l) F) G)
  = List.length G * List.length F.
Proof.
  induction G as [|l G IH]; simpl; [reflexivity|].
  now rewrite length_app, length_map, IH.
Qed.

(** C2, as the code has it: a row whose timestamp is missing after numeric
    coercion is merged with exactly the rows of the other table whose
    timestamp is missing too. The output rows with a missing timestamp are
    the merges of every such accelerometer row with every such gyroscope
    row, in the order of the tables; such a pair merges into one row, with
    a missing timestamp, and a pair of which one timestamp only is missing
    merges into nothing. So the output has a missing timestamp exactly when
    both tables have one. For timestamps that are exact in float64, the
    output is, up to the order of its rows, the merge of all the pairs. *)
Theorem merge_session_null_timestamps :
  forall (parse : string -> option Z) (a g m : DataFrame),
    merge_session parse a g = Ok m ->
    filter (null_at "timestamp" (columns m)) (rows m)
    = pairwise parse (columns a) (columns g)
               (null_rows parse a) (null_rows parse g)
    /\ (forall l r,
           null_timestamp parse (columns a) l = true ->
           null_timestamp parse (columns g) r = true ->
           exists out,
             pair_rows parse (columns a) (columns g) l r = [out]
             /\ null_at "timestamp" (columns m) out = true)
    /\ (forall l r,
           null_timestamp parse (columns a) l
           <> null_timestamp parse (columns g) r ->
           pair_rows parse (columns a) (columns g) l r = [])
    /\ List.length (filter (null_at "timestamp" (columns m)) (rows m))
       = List.length (null_rows parse a) * List.length (null_rows parse g)
    /\ (In NaN (column_values "timestamp" m)
        <-> In NaN (numeric_timestamps parse a)
            /\ In NaN (numeric_timestamps parse g))
    /\ (~ In NaN (numeric_timestamps parse a)
        \/ ~ In NaN (numeric_timestamps parse g) ->
        ~ In NaN (column_values "timestamp" m))
    /\ (exact_timestamps parse a -> exact_timestamps parse g ->
        Permutation (rows m)
          (pairwise parse (columns a) (columns g) (rows a) (rows g))).
Proof.
  intros parse a g m H.
  pose proof (schema_merges_of_result _ _ _ _ H) as Hs.
  pose proof (merge_session_timestamps _ _ _ _ NaN H) as Hnan.
  destruct a as [ca ra], g as [cg rg]. cbn [columns rows] in *.
  destruct (merge_session_pairs _ _ _ Hs)
    as (sa & sg & out & oc & Hm & Hlen & Hout & Ka & Kg).
  rewrite Hm in H. injection H as <-. cbn [columns rows].
  set (N := fun x : row => is_nan (key 0 x)).
  assert (Hpair : forall l r,
             pair_rows parse ca cg l r
             = if cell_eqb (key 0 (sa l)) (key 0 (sg r))
               then [out (sa l ++ remove_nth 0 (sg r))] else []).
  { intros l r. unfold pair_rows. rewrite Hm. cbn [rows map].
    unfold join_rows, sort_rows.
    cbn [fold_right insert_row flat_map filter].
    destruct (cell_eqb (key 0 (sa l)) (key 0 (sg r))); reflexivity. }
  assert (Hna : forall l, null_timestamp parse ca l = N (sa l)).
  { intros l. unfold null_timestamp. rewrite Ka.
    cbn [map existsb]. apply orb_false_r. }
  assert (Hng : forall r, null_timestamp parse cg r = N (sg r)).
  { intros r. unfold null_timestamp. rewrite Kg.
    cbn [map existsb]. apply orb_false_r. }
  assert (Hnull :
            filter (null_at "timestamp" ("timestamp" :: oc))
                   (map out (join_rows 0 0 (map sa ra) (map sg rg)))
            = map out
                (flat_map (fun l => map (fun r => l ++ remove_nth 0 r)
                                        (map sg (null_rows parse (mkDF cg rg))))
                          (map sa (null_rows parse (mkDF ca ra))))).
  { rewrite filter_map_comm.
    rewrite (filter_ext _ N)
      by (intros x; rewrite null_at_first; apply (f_equal is_nan), Hout).
    unfold N. rewrite join_rows_null.
    - fold N. rewrite !filter_map_comm. unfold null_rows. cbn [columns rows].
      rewrite (filter_ext _ _ Hna), (filter_ext _ _ Hng). reflexivity.
    - intros l Hl. apply in_map_iff in Hl as (l0 & <- & _). apply Hlen. }
  split; [|split; [|split; [|split; [|split; [|split]]]]].
  - rewrite Hnull. unfold pairwise.
    apply (cross_pairs sa sg (fun l r => l ++ remove_nth 0 r) out).
    intros l r Hl Hr. unfold null_rows in Hl, Hr. cbn [columns rows] in Hl, Hr.
    apply filter_In in Hl as [_ Hl]. apply filter_In in Hr as [_ Hr].
    rewrite Hna in Hl. rewrite Hng in Hr. unfold N in Hl, Hr.
    rewrite Hpair.
    destruct (key 0 (sa l)); try discriminate.
    destruct (key 0 (sg r)); try discriminate. reflexivity.
  - intros l r Hl Hr. rewrite Hna in Hl. rewrite Hng in Hr.
    rewrite Hpair. unfold N in Hl, Hr.
    destruct (key 0 (sa l)) eqn:Kl; try discriminate.
    destruct (key 0 (sg r)) eqn:Kr; try discriminate.
    eexists. split; [reflexivity|].
    rewrite null_at_first, Hout, key_app_nonempty by apply Hlen.
    now rewrite Kl.
  - intros l r Hne. rewrite Hna, Hng in Hne. rewrite Hpair. unfold N in Hne.
    destruct (key 0 (sa l)), (key 0 (sg r)); simpl in *;
      try reflexivity; congruence.
  - rewrite Hnull, length_map, length_cross, !length_map. reflexivity.
  - exact Hnan.
  - intros Hno Hin. apply Hnan in Hin. tauto.
  - intros _ _. unfold pairwise, join_rows.
    transitivity
      (map out
         (flat_map
            (fun l => map (fun r => l ++ remove_nth 0 r)
                          (filter (fun r => cell_eqb (key 0 l) (key 0 r))
                                  (map sg rg)))
            (map sa ra))).
    + apply Permutation_map, Permutation_flat_map, sort_rows_perm.
    + apply Permutation_refl'.
      apply (cross_pairs_filter sa sg (fun l r => l ++ remove_nth 0 r) out
               (fun l r => cell_eqb (key 0 l) (key 0 r))).
      exact Hpair.
Qed.

Lemma merge_session_null_timestamps_witness :
  filter (null_at "timestamp"
            ["timestamp"; "accel_x"; "accel_y"; "accel_z";
             "gyro_x"; "gyro_y"; "gyro_z"])
         [[NaN; Num 20; Num 21; Num 22; Num 40; Num 41; Num 42]]
  = pairwise parse_decimal (columns accel_text) (columns gyro_text)
             [[Text "abc"; Num 20; Num 21; Num 22]]
             [[Text "bad"; Num 40; Num 41; Num 42]].
Proof.
  apply (proj1 (merge_session_null_timestamps
                  parse_decimal accel_text gyro_text _ eq_refl)).
Defined.

(** C2 as stated fails: two rows whose timestamps both fail coercion are
    joined, and the merged row has a missing timestamp. *)
Lemma merge_session_null_keys_match :
  merge_session parse_decimal accel_text gyro_text
  = Ok (mkDF ["timestamp"; "accel_x"; "accel_y"; "accel_z";
              "gyro_x"; "gyro_y"; "gyro_z"]
             [[NaN; Num 20; Num 21; Num 22; Num 40; Num 41; Num 42]])
  /\ to_numeric parse_decimal (Text "abc") = NaN
  /\ to_numeric parse_decimal (Text "bad") = NaN
  /\ In NaN (column_values "timestamp"
               (mkDF ["timestamp"; "accel_x"; "accel_y"; "accel_z";
                      "gyro_x"; "gyro_y"; "gyro_z"]
                     [[NaN; Num 20; Num 21; Num 22; Num 40; Num 41; Num 42]])).
Proof. repeat split. vm_compute. auto. Qed.

(** C6, as the code has it: when the two headers let the merge go through
    and the timestamps of the two tables, after numeric coercion and with
    the missing value counted as a timestamp, are exact in float64 and
    disjoint, [merge_session] returns a table without rows and raises
    nothing. *)
Theorem merge_session_disjoint :
  forall (parse : string -> option Z) (a g : DataFrame),
    schema_merges parse (columns a) (columns g) ->
    exact_timestamps parse a ->
    exact_timestamps parse g ->
    (forall k, In k (numeric_timestamps parse a) ->
               ~ In k (numeric_timestamps parse g)) ->
    exists m, merge_session parse a g = Ok m /\ rows m = [].
Proof.
  intros parse [ca ra] [cg rg] Hs _ _ Hdis. cbn [columns] in Hs.
  destruct (merge_session_result _ _ _ Hs)
    as (pa & ia & pg & ig & fidx & oc & Hres).
  destruct (Hres ra rg) as (Hm & Ka & Kg).
  eexists. split; [exact Hm|]. cbn [rows].
  rewrite join_rows_disjoint; [reflexivity|].
  rewrite Ka, Kg. exact Hdis.
Qed.

Lemma merge_session_disjoint_witness :
  exists m, merge_session parse_decimal accel_123
              (mkDF ["t"; "x"; "y"; "z"] [[Num 7; Num 0; Num 0; Num 0]])
            = Ok m /\ rows m = [].
Proof.
  apply (merge_session_disjoint parse_decimal accel_123
           (mkDF ["t"; "x"; "y"; "z"] [[Num 7; Num 0; Num 0; Num 0]])).
  - eexists. vm_compute. reflexivity.
  - reflexivity.
  - reflexivity.
  - vm_compute. intros k [H|[H|[H|[]]]] [H'|[]]; congruence.
Defined.

(** C6 as stated fails: the timestamps [abc] and [def] are different
    values, both become the missing value, and the merge has one row. And
    on two tables [x, y, z], where both detections return (the timestamp
    falls back to the first column, which is also taken for the axis [x]),
    the merge raises [KeyError]. *)
Lemma merge_session_disjoint_text :
  (forall v, In v (timestamp_values accel_abc) ->
             ~ In v (timestamp_values gyro_def))
  /\ merge_session parse_decimal accel_abc gyro_def
     = Ok (mkDF ["timestamp"; "accel_x"; "accel_y"; "accel_z";
                 "gyro_x"; "gyro_y"; "gyro_z"]
                [[NaN; Num 1; Num 2; Num 3; Num 4; Num 5; Num 6]])
  /\ rows (mkDF ["timestamp"; "accel_x"; "accel_y"; "accel_z";
                 "gyro_x"; "gyro_y"; "gyro_z"]
                [[NaN; Num 1; Num 2; Num 3; Num 4; Num 5; Num 6]]) <> []
  /\ choose_timestamp_column ["x"; "y"; "z"] = Ok "x"
  /\ detect_xyz_columns ["x"; "y"; "z"]
     = Ok [("x", "x"); ("y", "y"); ("z", "z")]
  /\ merge_session parse_decimal
       (mkDF ["x"; "y"; "z"] [[Num 1; Num 0; Num 0]])
       (mkDF ["x"; "y"; "z"] [[Num 2; Num 0; Num 0]])
     = Raise (KeyError "x").
Proof.
  repeat split; try discriminate.
  vm_compute. intros v [H|[]] [H'|[]]. congruence.
Qed.

(* ================================================================= *)
(** * Further properties *)

(** ** [merge_session]: errors, order, multiplicity, output schema *)

Lemma cell_le_refl a : cell_le a a.
Proof. destruct (cell_le_total a a); auto. Qed.

Lemma sorted_repeat_keys (n : cell -> nat) ks :
  StronglySorted cell_le ks ->
  StronglySorted cell_le (flat_map (fun k => repeat k (n k)) ks).
Proof.
  induction 1 as [|k ks Hs IH Hk]; simpl; [constructor|].
  rewrite Forall_forall in Hk.
  induction (n k) as [|c IHc]; simpl; auto.
  constructor; auto. apply Forall_forall. intros x Hx.
  apply in_app_or in Hx as [Hx|Hx].
  - apply repeat_spec in Hx. subst. apply cell_le_refl.
  - apply in_flat_map in Hx as (k' & Hk' & Hx).
    apply repeat_spec in Hx. subst. now apply Hk.
Qed.

Lemma NoDup_repeat_keys (n : cell -> nat) ks :
  NoDup ks -> (forall k, In k ks -> n k <= 1) ->
  NoDup (flat_map (fun k => repeat k (n k)) ks).
Proof.
  induction 1 as [|k ks Hk Hnd IH]; intros Hn; simpl; [constructor|].
  assert (Hrest : NoDup (flat_map (fun k => repeat k (n k)) ks))
    by (apply IH; intros; apply Hn; simpl; auto).
  assert (H1 : n k <= 1) by (apply Hn; simpl; auto).
  destruct (n k) as [|[|c]]; simpl; auto; [|lia].
  constructor; auto. intros Hin.
  apply in_flat_map in Hin as (k' & Hk' & Hx).
  apply repeat_spec in Hx. subst. contradiction.
Qed.

(** The result of a merge that returns, read off the two tables. *)
Lemma merge_session_keys parse a g m :
  merge_session parse a g = Ok m ->
  exists L R,
    Permutation (map (key 0) L) (numeric_timestamps parse a)
    /\ StronglySorted cell_le (map (key 0) L)
    /\ map (key 0) R = numeric_timestamps parse g
    /\ column_values "timestamp" m
       = flat_map (fun k => repeat k (count_occ cell_eq_dec (map (key 0) R) k))
                  (map (key 0) L)
    /\ List.length (rows m) = List.length (column_values "timestamp" m).
Proof.
  intros H. pose proof (schema_merges_of_result _ _ _ _ H) as Hs.
  destruct a as [ca ra], g as [cg rg]. cbn [columns] in Hs.
  destruct (merge_session_result _ _ _ Hs)
    as (pa & ia & pg & ig & fidx & oc & Hres).
  destruct (Hres ra rg) as (Hm & Ka & Kg).
  rewrite Hm in H. injection H as <-.
  exists (sort_rows 0 (side parse (pa :: ia) ra)), (side parse (pg :: ig) rg).
  rewrite ordered_timestamps. cbn [rows]. rewrite !length_map.
  repeat split.
  - rewrite <- Ka. apply Permutation_map, sort_rows_perm.
  - apply sorted_map_key, sort_rows_sorted.
  - exact Kg.
  - apply join_keys, side_nonempty.
Qed.

(** X1: whether [merge_session] raises is decided by the column labels of
    the two tables: when it returns on two tables, it returns on every two
    tables with the same headers, whatever their rows, and the result has
    the same columns. *)
Theorem merge_session_errors_by_headers :
  forall (parse : string -> option Z) (a g a' g' m : DataFrame),
    merge_session parse a g = Ok m ->
    columns a' = columns a -> columns g' = columns g ->
    exists m', merge_session parse a' g' = Ok m' /\ columns m' = columns m.
Proof.
  intros parse [ca ra] [cg rg] [ca' ra'] [cg' rg'] m H.
  cbn [columns]. intros -> ->.
  apply merge_session_rows in H as Hr.
  destruct Hr as (pa & ia & pg & ig & fidx & oc & _ & _ & Hm).
  rewrite (Hm ra rg) in H. injection H as <-.
  eexists. split; [apply Hm|reflexivity].
Qed.

Lemma merge_session_errors_by_headers_witness :
  exists m',
    merge_session parse_decimal
      (mkDF (columns accel_123) [[Text "late"; NaN; NaN; NaN]])
      (mkDF (columns gyro_234) [])
    = Ok m'
    /\ columns m' = ["timestamp"; "accel_x"; "accel_y"; "accel_z";
                     "gyro_x"; "gyro_y"; "gyro_z"].
Proof.
  apply (merge_session_errors_by_headers parse_decimal accel_123 gyro_234
           (mkDF (columns accel_123) [[Text "late"; NaN; NaN; NaN]])
           (mkDF (columns gyro_234) []) _ eq_refl); reflexivity.
Defined.

(** X2: when the timestamps of the two tables are exact in float64, the
    rows of a merge that returns are in ascending order of timestamp,
    missing timestamps last. *)
Theorem merge_session_sorted :
  forall (parse : string -> option Z) (a g m : DataFrame),
    merge_session parse a g = Ok m ->
    exact_timestamps parse a ->
    exact_timestamps parse g ->
    StronglySorted cell_le (column_values "timestamp" m).
Proof.
  intros parse a g m H _ _.
  destruct (merge_session_keys _ _ _ _ H) as (L & R & _ & HL & _ & -> & _).
  now apply sorted_repeat_keys.
Qed.

Lemma merge_session_sorted_witness :
  StronglySorted cell_le [Num 2; Num 3].
Proof.
  apply (merge_session_sorted parse_decimal accel_123 gyro_234 _ eq_refl);
    reflexivity.
Defined.

(** X3: the merge is a cross product on equal timestamps: when the
    timestamps of the two tables are exact in float64, it has as many rows
    as there are pairs of an accelerometer row and a gyroscope row with the
    same timestamp after numeric coercion. *)
Theorem merge_session_row_count :
  forall (parse : string -> option Z) (a g m : DataFrame),
    merge_session parse a g = Ok m ->
    exact_timestamps parse a ->
    exact_timestamps parse g ->
    List.length (rows m)
    = list_sum
        (map (fun t => count_occ cell_eq_dec (numeric_timestamps parse g) t)
             (numeric_timestamps parse a)).
Proof.
  intros parse a g m H _ _.
  destruct (merge_session_keys _ _ _ _ H) as (L & R & PL & _ & HR & Hc & Hlen).
  rewrite Hlen, Hc, length_flat_map, <- HR.
  transitivity
    (list_sum (map (fun t => count_occ cell_eq_dec (map (key 0) R) t)
                   (map (key 0) L))).
  - f_equal. apply map_ext. intros k. apply repeat_length.
  - apply Permutation_list_sum, Permutation_map, PL.
Qed.

Lemma merge_session_row_count_witness :
  List.length
    (rows (mkDF ["timestamp"; "accel_x"; "accel_y"; "accel_z";
                 "gyro_x"; "gyro_y"; "gyro_z"]
                [[Num 5; Num 1; Num 1; Num 1; Num 7; Num 7; Num 7];
                 [Num 5; Num 1; Num 1; Num 1; Num 8; Num 8; Num 8];
                 [Num 5; Num 2; Num 2; Num 2; Num 7; Num 7; Num 7];
                 [Num 5; Num 2; Num 2; Num 2; Num 8; Num 8; Num 8]]))
  = 4.
Proof.
  apply (merge_session_row_count parse_decimal
           (mkDF ["t"; "x"; "y"; "z"]
                 [[Num 5; Num 1; Num 1; Num 1]; [Num 5; Num 2; Num 2; Num 2]])
           (mkDF ["t"; "x"; "y"; "z"]
                 [[Num 5; Num 7; Num 7; Num 7]; [Num 5; Num 8; Num 8; Num 8]])
           _ eq_refl); reflexivity.
Defined.

(** X4: when the timestamps of the two tables are exact in float64 and
    neither table repeats a timestamp (after numeric coercion), the merge
    that returns has no repeated timestamp either. *)
Theorem merge_session_unique_timestamps :
  forall (parse : string -> option Z) (a g m : DataFrame),
    merge_session parse a g = Ok m ->
    exact_timestamps parse a ->
    exact_timestamps parse g ->
    NoDup (numeric_timestamps parse a) ->
    NoDup (numeric_timestamps parse g) ->
    NoDup (column_values "timestamp" m).
Proof.
  intros parse a g m H _ _ Ha Hg.
  destruct (merge_session_keys _ _ _ _ H) as (L & R & PL & _ & HR & -> & _).
  apply NoDup_repeat_keys.
  - eapply Permutation_NoDup; [apply Permutation_sym, PL|exact Ha].
  - intros k _. rewrite HR. now apply NoDup_count_occ.
Qed.

Lemma merge_session_unique_timestamps_witness :
  NoDup [Num 2; Num 3].
Proof.
  apply (merge_session_unique_timestamps parse_decimal accel_123 gyro_234
           _ eq_refl).
  - reflexivity.
  - reflexivity.
  - change (numeric_timestamps parse_decimal accel_123)
      with [Num 3; Num 1; Num 2].
    repeat constructor; simpl; intros H;
      repeat destruct H as [H|H]; try discriminate; auto.
  - change (numeric_timestamps parse_decimal gyro_234)
      with [Num 4; Num 2; Num 3].
    repeat constructor; simpl; intros H;
      repeat destruct H as [H|H]; try discriminate; auto.
Defined.

Lemma locate_columns labels cols idxs :
  locate labels cols = Ok idxs ->
  map (fun i => nth i cols EmptyString) idxs
  = flat_map (fun l => repeat l (List.length (positions l cols))) labels.
Proof.
  revert idxs. induction labels as [|l ls IH]; intros idxs; simpl.
  - now intros [= <-].
  - destruct (positions l cols) as [|p ps] eqn:P; [discriminate|].
    destruct (locate ls cols) as [rest|]; [|discriminate].
    cbn [bind]. intros [= <-].
    change (p :: ps ++ rest) with ((p :: ps) ++ rest).
    rewrite map_app, (IH rest eq_refl), <- P.
    f_equal.
    rewrite (map_nth_positions l cols (positions l cols)) by auto.
    generalize (positions l cols). intros qs.
    induction qs as [|q qs IHq]; simpl; congruence.
Qed.

Lemma flat_map_filter {A B : Type} (P : A -> bool) (f : A -> list B) l :
  flat_map f (filter P l) = flat_map (fun x => if P x then f x else []) l.
Proof.
  induction l as [|x l IH]; simpl; auto.
  destruct (P x); simpl; now rewrite IH.
Qed.

Lemma merge_session_order_columns parse a g m :
  merge_session parse a g = Ok m ->
  exists common merged, order_columns common merged = Ok m.
Proof.
  unfold merge_session. intros H.
  destruct (choose_timestamp_column (columns a)); [|discriminate].
  destruct (choose_timestamp_column (columns g)); [|discriminate].
  cbn [bind] in H.
  destruct (detect_xyz_columns _); [|discriminate].
  destruct (detect_xyz_columns _); [|discriminate].
  cbn [bind] in H.
  destruct (select_axes "accel" _ _ _); [|discriminate].
  destruct (select_axes "gyro" _ _ _); [|discriminate].
  cbn [bind] in H.
  destruct (coerce_timestamps _ _ _ _) as [asel gsel].
  destruct (merge asel gsel _); [|discriminate].
  cbn [bind] in H. eauto.
Qed.

(** X5: a merge that returns has the canonical schema: its columns are those
    of [OUTPUT_COLS], in that order, each present once or more (an absent
    one zero times), [timestamp] present and first; and every row has one
    cell per column, also when input rows were ragged. *)
Theorem merge_session_schema :
  forall (parse : string -> option Z) (a g m : DataFrame),
    merge_session parse a g = Ok m ->
    (exists n : string -> nat,
        columns m = flat_map (fun l => repeat l (n l)) OUTPUT_COLS
        /\ 0 < n "timestamp")
    /\ (exists rest, columns m = "timestamp" :: rest)
    /\ (forall r, In r (rows m) -> List.length r = List.length (columns m)).
Proof.
  intros parse a g m H.
  assert (Hhead : exists rest, columns m = "timestamp" :: rest).
  { destruct a as [ca ra], g as [cg rg].
    apply merge_session_rows in H as Hr.
    destruct Hr as (pa & ia & pg & ig & fidx & oc & _ & _ & Hm).
    rewrite (Hm ra rg) in H. injection H as <-. cbn [columns]. eauto. }
  destruct (merge_session_order_columns _ _ _ _ H) as (common & merged & Ho).
  unfold order_columns, getitem_list in Ho.
  set (merged' := if negb (String.eqb common "timestamp")
                  then rename [(common, "timestamp")] merged else merged) in Ho.
  destruct (locate _ (columns merged')) as [idxs|] eqn:L; [|discriminate].
  cbn [bind] in Ho. injection Ho as <-. cbn [columns rows] in *.
  rewrite (locate_columns _ _ _ L), flat_map_filter in *.
  split; [|split; [exact Hhead|]].
  - exists (fun l => if str_in_list l (columns merged')
                     then List.length (positions l (columns merged')) else 0).
    split.
    + apply flat_map_ext. intros l.
      now destruct (str_in_list l (columns merged')).
    + destruct Hhead as [rest Hrest].
      assert (Hin : In "timestamp"
                (flat_map
                   (fun x => if str_in_list x (columns merged')
                             then repeat x (List.length
                                              (positions x (columns merged')))
                             else []) OUTPUT_COLS))
        by (rewrite Hrest; simpl; auto).
      apply in_flat_map in Hin as (l & _ & Hl).
      destruct (str_in_list l (columns merged')) eqn:E; [|contradiction].
      apply repeat_spec in Hl as El. subst l. rewrite E.
      destruct (positions "timestamp" (columns merged')); [contradiction|].
      simpl. lia.
  - intros r Hr. apply in_map_iff in Hr as (r0 & <- & _).
    unfold take. rewrite length_map.
    rewrite <- flat_map_filter, <- (locate_columns _ _ _ L).
    now rewrite length_map.
Qed.

Lemma merge_session_schema_witness :
  exists rest,
    ["timestamp"; "accel_y"; "accel_y"; "accel_z"; "gyro_x"; "gyro_y"; "gyro_z"]
    = "timestamp" :: rest.
Proof.
  apply (proj1 (proj2 (merge_session_schema parse_decimal
           (mkDF ["t"; "x_y"; "z"] [[Num 1; Num 2; Num 3]])
           (mkDF ["t"; "x"; "y"; "z"] [[Num 1; Num 2; Num 3; Num 4]])
           _ eq_refl))).
Defined.

(** ** Column detection: what a successful detection returns *)

(** X6: when [detect_xyz_columns] returns, the mapping has exactly the keys
    [x], [y], [z], and each is mapped to a column of the table that one of
    the three passes accepts for that axis. *)
Theorem detect_xyz_columns_sound :
  forall (cols : list string) (m : dict),
    detect_xyz_columns cols = Ok m ->
    List.length m = 3
    /\ forall axis, In axis AXES ->
         exists c, Dict.get axis m = Some c
                   /\ In c cols /\ axis_candidate axis c = true.
Proof.
  intros cols m H.
  pose proof (detect_xyz_columns_invariant _ _ H) as Hinv.
  unfold detect_xyz_columns in H.
  destruct (Nat.eqb_spec (List.length (all_passes cols)) 3) as [E|E];
    [|discriminate].
  injection H as <-. split; [exact E|].
  intros axis Ha.
  assert (Hk : In axis (keys (all_passes cols))).
  { apply (@NoDup_length_incl _ (keys (all_passes cols)) AXES (proj1 Hinv));
      auto.
    - unfold keys. rewrite length_map, E. simpl. lia.
    - eapply axes_invariant_keys; eauto. }
  destruct (Dict.get axis (all_passes cols)) as [c|] eqn:G.
  - exists c. split; auto. now apply (proj2 Hinv) in G.
  - apply get_None_keys in G. contradiction.
Qed.

Lemma detect_xyz_columns_sound_witness :
  exists c, Dict.get "z" [("x", "Acc X"); ("y", "Acc Y"); ("z", "Acc Z")]
            = Some c
            /\ In c ["Time (s)"; "Acc X"; "Acc Y"; "Acc Z"]
            /\ axis_candidate "z" c = true.
Proof.
  apply (proj2 (detect_xyz_columns_sound
                  ["Time (s)"; "Acc X"; "Acc Y"; "Acc Z"] _ eq_refl)).
  simpl; auto.
Defined.

(** X8: [choose_timestamp_column] returns either a column that matches one
    of the patterns, or, when no column matches any pattern, the first
    column. Pattern order comes before column order: the first column that
    matches a pattern is returned as soon as no column matches an earlier
    pattern. *)
Lemma search_patterns_result pats cols c :
  search_patterns pats cols = Some c ->
  exists p, In p pats /\ Re.search_i p c = true.
Proof.
  induction pats as [|p ps IH]; simpl; [discriminate|].
  destruct (find (Re.search_i p) cols) eqn:F.
  - intros [= <-]. exists p. split; auto. now apply find_some in F.
  - intros H. destruct (IH H) as (p' & Hp' & Hm). eauto.
Qed.

Lemma search_patterns_none pats cols :
  search_patterns pats cols = None ->
  forall c p, In c cols -> In p pats -> Re.search_i p c = false.
Proof.
  induction pats as [|p ps IH]; simpl; [intros _ c p _ []|].
  destruct (find (Re.search_i p) cols) eqn:F; [discriminate|].
  intros H c p' Hc [<-|Hp]; [|now apply IH].
  now apply (find_none _ _ F).
Qed.

Lemma search_patterns_priority pre p post cols c :
  (forall p' c', In p' pre -> In c' cols -> Re.search_i p' c' = false) ->
  find (Re.search_i p) cols = Some c ->
  search_patterns (pre ++ p :: post) cols = Some c.
Proof.
  induction pre as [|q pre IH]; simpl; intros Hpre F.
  - now rewrite F.
  - rewrite (proj2 (find_none_iff (Re.search_i q) cols))
      by (intros; apply Hpre; auto).
    apply IH; auto.
Qed.

Theorem choose_timestamp_column_priority :
  forall cols : list string,
    (forall c,
        choose_timestamp_column cols = Ok c ->
        (exists p, In p TS_PATTERNS /\ Re.search_i p c = true)
        \/ ((forall c' p, In c' cols -> In p TS_PATTERNS ->
                          Re.search_i p c' = false)
            /\ exists rest, cols = c :: rest))
    /\ (forall pre p post c,
           TS_PATTERNS = pre ++ p :: post ->
           (forall p' c', In p' pre -> In c' cols ->
                          Re.search_i p' c' = false) ->
           find (Re.search_i p) cols = Some c ->
           choose_timestamp_column cols = Ok c).
Proof.
  intros cols. split.
  - intros c. unfold choose_timestamp_column.
    destruct (search_patterns TS_PATTERNS cols) as [c0|] eqn:S.
    + intros [= <-]. left. eapply search_patterns_result; eauto.
    + destruct cols as [|c0 rest]; [discriminate|]. intros [= <-].
      right. split; [|eauto]. now apply search_patterns_none.
  - intros pre p post c E Hpre F. unfold choose_timestamp_column.
    rewrite E, (search_patterns_priority _ _ _ _ _ Hpre F). reflexivity.
Qed.

Lemma choose_timestamp_column_priority_witness :
  choose_timestamp_column ["sec_x"; "Seconds"] = Ok "Seconds".
Proof.
  apply (proj2 (choose_timestamp_column_priority ["sec_x"; "Seconds"])
           ["time"; "timestamp"; "ts"] "seconds" ["sec"; "elapsed"]);
    [reflexivity| |reflexivity].
  intros p' c' Hp Hc. simpl in Hp, Hc.
  destruct Hp as [<-|[<-|[<-|[]]]]; destruct Hc as [<-|[<-|[]]]; reflexivity.
Defined.

(** ** The exact-match pass of [detect_xyz_columns] *)

Lemma mem_set_same k v d : Dict.mem k (Dict.set k v d) = true.
Proof. unfold Dict.mem. now rewrite get_set_same. Qed.

Lemma mem_set_mono k k' v d :
  Dict.mem k d = true -> Dict.mem k (Dict.set k' v d) = true.
Proof.
  unfold Dict.mem. rewrite get_set.
  now destruct (String.eqb k' k).
Qed.

(** An assignment loop over the axes or over the columns only adds keys. *)
Lemma assign_loop_mono {A : Type} (cond : dict -> A -> bool)
      (k : A -> string) (v : A -> string) (l : list A) (m : dict) axis :
  Dict.mem axis m = true ->
  Dict.mem axis
    (fold_left (fun m x => if cond m x then Dict.set (k x) (v x) m else m) l m)
  = true.
Proof.
  revert m. induction l as [|x l IH]; simpl; intros m Hm; auto.
  apply IH. destruct (cond m x); auto. now apply mem_set_mono.
Qed.

Lemma token_step_mono m col axis :
  Dict.mem axis m = true -> Dict.mem axis (token_step m col) = true.
Proof.
  intros Hm. unfold token_step.
  destruct (Re.search_alt_i TIME_LIKE col); auto.
  apply (assign_loop_mono
           (fun m ax => str_in_list ax (tokens (PyStr.lower col))
                        && negb (Dict.mem ax m))
           (fun ax => ax) (fun _ => col)); auto.
Qed.

Lemma token_step_assigns m col axis :
  In axis AXES ->
  Re.search_alt_i TIME_LIKE col = false ->
  str_in_list axis (tokens (PyStr.lower col)) = true ->
  Dict.mem axis (token_step m col) = true.
Proof.
  intros Ha Ht Hk. unfold token_step. rewrite Ht.
  revert m. unfold AXES in *.
  assert (Hgen : forall axes m,
             In axis axes ->
             Dict.mem axis
               (fold_left
                  (fun m ax =>
                     if str_in_list ax (tokens (PyStr.lower col))
                        && negb (Dict.mem ax m)
                     then Dict.set ax col m else m) axes m) = true).
  { induction axes as [|ax axes IH]; intros m Hin; [contradiction|].
    destruct Hin as [<-|Hin]; simpl.
    - apply (assign_loop_mono
               (fun m ax => str_in_list ax (tokens (PyStr.lower col))
                            && negb (Dict.mem ax m))
               (fun ax => ax) (fun _ => col)).
      rewrite Hk. destruct (Dict.mem ax m) eqn:E; simpl; auto.
      apply mem_set_same.
    - now apply IH. }
  intros m. now apply Hgen.
Qed.

Lemma token_pass_assigns cols m axis :
  In axis AXES ->
  Dict.mem axis m = true
  \/ (exists col, In col cols
                  /\ Re.search_alt_i TIME_LIKE col = false
                  /\ str_in_list axis (tokens (PyStr.lower col)) = true) ->
  Dict.mem axis (fold_left token_step cols m) = true.
Proof.
  intros Ha. revert m. induction cols as [|c cols IH]; simpl; intros m H.
  - destruct H as [H|(col & [] & _)]; auto.
  - apply IH. destruct H as [H|(col & [<-|Hin] & Ht & Hk)].
    + left. now apply token_step_mono.
    + left. now apply token_step_assigns.
    + right. eauto.
Qed.

Lemma suffix_pass_mono cols m axis :
  Dict.mem axis m = true -> Dict.mem axis (suffix_pass cols m) = true.
Proof.
  unfold suffix_pass. generalize AXES. intros axes. revert m.
  induction axes as [|ax axes IH]; simpl; intros m Hm; auto.
  apply IH. unfold suffix_axis. destruct (negb (Dict.mem ax m)); auto.
  apply (assign_loop_mono
           (fun m col => PyStr.endswith (PyStr.lower col) ax
                         && negb (Dict.mem ax m))
           (fun _ => ax) (fun col => col)); auto.
Qed.

(** *** A column named by the axis letter alone has that letter as token *)

Lemma lower_app s t :
  PyStr.lower (s ++ t) = (PyStr.lower s ++ PyStr.lower t)%string.
Proof. induction s as [|c s IH]; simpl; congruence. Qed.

Lemma all_chars_app p s t :
  all_chars p (s ++ t) = all_chars p s && all_chars p t.
Proof.
  induction s as [|c s IH]; simpl; auto. now rewrite IH, andb_assoc.
Qed.

Lemma all_chars_impl (p q : ascii -> bool) s :
  (forall c, p c = true -> q c = true) ->
  all_chars p s = true -> all_chars q s = true.
Proof.
  intros Hpq. induction s as [|c s IH]; simpl; auto.
  intros H. apply andb_prop in H as [Hc Hs]. now rewrite (Hpq c Hc), IH.
Qed.

Lemma all_chars_lower p q s :
  (forall c, p c = true -> q (PyStr.lower_char c) = true) ->
  all_chars p s = true -> all_chars q (PyStr.lower s) = true.
Proof.
  intros Hpq. induction s as [|c s IH]; simpl; auto.
  intros H. apply andb_prop in H as [Hc Hs]. now rewrite (Hpq c Hc), IH.
Qed.

Lemma lstrip_split p s :
  exists w, s = (w ++ PyStr.lstrip p s)%string /\ all_chars p w = true.
Proof.
  induction s as [|c s (w & E & Hw)].
  - exists EmptyString. auto.
  - simpl. destruct (p c) eqn:Hc.
    + exists (String c w). split.
      * simpl. f_equal. exact E.
      * simpl. now rewrite Hc, Hw.
    + exists EmptyString. auto.
Qed.

Lemma rstrip_split p s :
  exists w, s = (PyStr.rstrip p s ++ w)%string /\ all_chars p w = true.
Proof.
  induction s as [|c s (w & E & Hw)].
  - exists EmptyString. auto.
  - cbn [PyStr.rstrip].
    destruct (p c && PyStr.is_empty (PyStr.rstrip p s)) eqn:B.
    + apply andb_prop in B as [Hc He]. apply is_empty_eq in He.
      rewrite He in E. simpl in E. exists (String c s). split; auto.
      simpl. rewrite Hc. simpl. rewrite E. exact Hw.
    + exists w. split; auto. simpl. f_equal. exact E.
Qed.

Lemma strip_single p s c :
  PyStr.strip p s = String c EmptyString ->
  exists w1 w2,
    s = (w1 ++ String c w2)%string
    /\ all_chars p w1 = true /\ all_chars p w2 = true.
Proof.
  unfold PyStr.strip. intros H.
  destruct (rstrip_split p s) as (w2 & E2 & H2).
  destruct (lstrip_split p (PyStr.rstrip p s)) as (w1 & E1 & H1).
  rewrite H in E1. rewrite E1 in E2.
  exists w1, w2. split; auto.
  rewrite E2. clear. induction w1; simpl; congruence.
Qed.

Lemma tokens_eq s :
  tokens s = filter nonempty (Re.split_runs is_sep s EmptyString false).
Proof. reflexivity. Qed.

Lemma split_runs_flag s :
  filter nonempty (Re.split_runs is_sep s EmptyString true)
  = filter nonempty (Re.split_runs is_sep s EmptyString false).
Proof. destruct s as [|c s]; simpl; auto. now destruct (is_sep c). Qed.

Lemma split_runs_all_sep w f :
  all_chars is_sep w = true ->
  filter nonempty (Re.split_runs is_sep w EmptyString f) = [].
Proof.
  revert f. induction w as [|c w IH]; intros f; simpl; auto.
  intros H. apply andb_prop in H as [Hc Hw]. rewrite Hc.
  destruct f; simpl; auto.
Qed.

Lemma split_runs_skip w rest f :
  all_chars is_sep w = true ->
  filter nonempty (Re.split_runs is_sep (w ++ rest) EmptyString f)
  = filter nonempty (Re.split_runs is_sep rest EmptyString f).
Proof.
  revert f. induction w as [|c w IH]; intros f; simpl; auto.
  intros H. apply andb_prop in H as [Hc Hw]. rewrite Hc.
  destruct f; simpl; rewrite (IH true Hw); auto using split_runs_flag.
Qed.

Lemma tokens_single w1 a w2 :
  all_chars is_sep w1 = true -> is_sep a = false ->
  all_chars is_sep w2 = true ->
  tokens (w1 ++ String a w2) = [String a EmptyString].
Proof.
  intros H1 Ha H2. rewrite tokens_eq, split_runs_skip by auto.
  cbn [Re.split_runs]. rewrite Ha. simpl append.
  destruct w2 as [|c w2]; [reflexivity|].
  simpl in H2. apply andb_prop in H2 as [Hc Hw].
  cbn [Re.split_runs]. rewrite Hc. cbn [filter nonempty PyStr.is_empty negb].
  now rewrite split_runs_all_sep.
Qed.

Lemma contains_all_chars (q : ascii -> bool) a k s :
  PyStr.contains (String a k) s = true -> all_chars q s = true -> q a = true.
Proof.
  induction s as [|c s IH]; [discriminate|].
  cbn [PyStr.contains all_chars]. rewrite prefix_cons.
  intros H Hq. apply andb_prop in Hq as [Hc Hs].
  apply orb_prop in H as [H|H]; auto.
  apply andb_prop in H as [E _]. apply Ascii.eqb_eq in E. now subst.
Qed.

Lemma space_lower_sep c :
  PyStr.is_space c = true -> is_sep (PyStr.lower_char c) = true.
Proof. ascii_cases c; vm_compute; congruence. Qed.

Lemma space_lower_space_or_axis c :
  PyStr.is_space c = true -> space_or_axis (PyStr.lower_char c) = true.
Proof. ascii_cases c; vm_compute; congruence. Qed.

Lemma exact_name_has_token col axis :
  In axis AXES ->
  PyStr.lower (PyStr.strip PyStr.is_space col) = axis ->
  Re.search_alt_i TIME_LIKE col = false
  /\ str_in_list axis (tokens (PyStr.lower col)) = true.
Proof.
  intros Ha E.
  destruct (PyStr.strip PyStr.is_space col) as [|c [|c' t]] eqn:S;
    simpl in E;
    try (subst axis; simpl in Ha; intuition discriminate).
  destruct (strip_single _ _ _ S) as (w1 & w2 & -> & H1 & H2).
  assert (Hsep : is_sep (PyStr.lower_char c) = false
                 /\ space_or_axis (PyStr.lower_char c) = true).
  { simpl in Ha. destruct Ha as [<-|[<-|[<-|[]]]];
      injection E as ->; split; reflexivity. }
  destruct Hsep as [Hsep Haxis].
  rewrite lower_app. cbn [PyStr.lower]. split.
  - assert (Hall : all_chars space_or_axis
                     (PyStr.lower w1 ++ String (PyStr.lower_char c)
                                               (PyStr.lower w2)) = true).
    { rewrite all_chars_app. cbn [all_chars]. rewrite Haxis.
      rewrite !(all_chars_lower PyStr.is_space space_or_axis)
        by auto using space_lower_space_or_axis.
      reflexivity. }
    unfold Re.search_alt_i, TIME_LIKE, Re.search_i. cbn [existsb].
    rewrite lower_app. cbn [PyStr.lower].
    repeat match goal with
           | |- context [PyStr.contains ?k ?s] =>
               let B := fresh "B" in
               destruct (PyStr.contains k s) eqn:B;
               [apply (contains_all_chars space_or_axis) in B;
                [discriminate|exact Hall]|]
           end.
    reflexivity.
  - rewrite tokens_single; auto.
    + apply str_in_list_In. left. exact E.
    + apply (all_chars_lower PyStr.is_space); auto using space_lower_sep.
    + apply (all_chars_lower PyStr.is_space); auto using space_lower_sep.
Qed.

Lemma exact_axis_unchanged cols m axis :
  (forall col, In col cols ->
               PyStr.lower (PyStr.strip PyStr.is_space col) = axis ->
               Dict.mem axis m = true) ->
  exact_axis cols m axis = m.
Proof.
  intros H. unfold exact_axis.
  destruct (Dict.mem axis m) eqn:Hm; simpl; auto.
  assert (Hno : forall col, In col cols ->
     String.eqb (PyStr.lower (PyStr.strip PyStr.is_space col)) axis = false).
  { intros col Hc. apply String.eqb_neq. intros E.
    specialize (H col Hc E). congruence. }
  clear H Hm. induction cols as [|c cols IH]; simpl; auto.
  rewrite (Hno c) by (simpl; auto). apply IH. intros; apply Hno; simpl; auto.
Qed.

(** X7: the third pass of [detect_xyz_columns] (lines 120-124) never changes
    the mapping: a column whose trimmed, lowercased name is the axis letter
    has that letter as a token, so the token pass has already filled the
    axis. What [detect_xyz_columns] returns is decided by the token and
    suffix passes. *)
Theorem exact_pass_never_assigns :
  forall cols : list string,
    all_passes cols = suffix_pass cols (token_pass cols)
    /\ detect_xyz_columns cols
       = (if negb (Nat.eqb (List.length (suffix_pass cols (token_pass cols))) 3)
          then Raise (AxesNotFound cols (suffix_pass cols (token_pass cols)))
          else Ok (suffix_pass cols (token_pass cols))).
Proof.
  intros cols.
  assert (E : all_passes cols = suffix_pass cols (token_pass cols)).
  { unfold all_passes.
    set (m := suffix_pass cols (token_pass cols)).
    assert (Hm : forall col axis, In col cols -> In axis AXES ->
                   PyStr.lower (PyStr.strip PyStr.is_space col) = axis ->
                   Dict.mem axis m = true).
    { intros col axis Hc Ha Hx. apply suffix_pass_mono.
      apply token_pass_assigns; auto. right. exists col.
      destruct (exact_name_has_token col axis Ha Hx). auto. }
    unfold exact_pass, AXES in *. cbn [fold_left].
    rewrite (exact_axis_unchanged cols m "x")
      by (intros col Hc Hx; eapply Hm; eauto; simpl; auto).
    rewrite (exact_axis_unchanged cols m "y")
      by (intros col Hc Hx; eapply Hm; eauto; simpl; auto).
    apply exact_axis_unchanged.
    intros col Hc Hx; eapply Hm; eauto; simpl; auto. }
  split; [exact E|]. unfold detect_xyz_columns. now rewrite E.
Qed.

(** ** [sanitize_name]: when the result is empty *)

Lemma any_char_sub_runs p cls s f :
  (forall c, p c = true -> cls c = false) ->
  any_char p s = true -> any_char p (Re.sub_runs cls s f) = true.
Proof.
  intros Hp. revert f. induction s as [|c s IH]; intros f; simpl; auto.
  intros H. destruct (p c) eqn:Pc.
  - rewrite (Hp c Pc). simpl. now rewrite Pc.
  - simpl in H. destruct (cls c); [destruct f|]; simpl;
      rewrite ?Pc, ?IH; auto using orb_true_r.
Qed.

Lemma any_char_lstrip p q s :
  (forall c, p c = true -> q c = false) ->
  any_char p s = true -> any_char p (PyStr.lstrip q s) = true.
Proof.
  intros Hp. induction s as [|c s IH]; simpl; auto.
  intros H. destruct (p c) eqn:Pc.
  - rewrite (Hp c Pc). simpl. now rewrite Pc.
  - simpl in H. destruct (q c); auto. simpl. now rewrite Pc.
Qed.

Lemma any_char_rstrip p q s :
  (forall c, p c = true -> q c = false) ->
  any_char p s = true -> any_char p (PyStr.rstrip q s) = true.
Proof.
  intros Hp. induction s as [|c s IH]; auto.
  cbn [any_char PyStr.rstrip]. intros H. destruct (p c) eqn:Pc.
  - rewrite (Hp c Pc). simpl. now rewrite Pc.
  - simpl in H. specialize (IH H).
    destruct (PyStr.rstrip q s) as [|c' r]; [discriminate|].
    rewrite andb_false_r. cbn [any_char]. now rewrite Pc.
Qed.

Lemma any_char_all_chars p s :
  any_char p s = negb (all_chars (fun c => negb (p c)) s).
Proof.
  induction s as [|c s IH]; simpl; auto.
  rewrite IH. now destruct (p c).
Qed.

Lemma word_char_not_bad c : is_word_char c = true -> bad_char c = false.
Proof. ascii_cases c; vm_compute; congruence. Qed.

Lemma word_char_not_underscore c :
  is_word_char c = true -> Re.is_underscore c = false.
Proof. ascii_cases c; vm_compute; congruence. Qed.

Lemma not_word_char_cases c :
  is_word_char c = false -> bad_char c = true \/ c = "_"%char.
Proof. ascii_cases c; vm_compute; intros; auto; discriminate. Qed.

Lemma sub_bad_all_underscore u f :
  all_chars (fun c => negb (is_word_char c)) u = true ->
  all_chars Re.is_underscore (Re.sub_runs bad_char u f) = true.
Proof.
  revert f. induction u as [|c u IH]; intros f; simpl; auto.
  intros H. apply andb_prop in H as [Hc Hu]. apply negb_true_iff in Hc.
  destruct (not_word_char_cases c Hc) as [Hb| ->].
  - rewrite Hb. destruct f; simpl; auto.
  - simpl. auto.
Qed.

Lemma strip_sub_all_underscore w :
  all_chars Re.is_underscore w = true ->
  PyStr.strip Re.is_underscore (Re.sub_underscore Re.is_underscore w)
  = EmptyString.
Proof.
  unfold Re.sub_underscore. destruct w as [|c w]; [reflexivity|].
  simpl. intros H. apply andb_prop in H as [Hc Hw].
  rewrite Hc, (sub_runs_all_true _ _ Hw). reflexivity.
Qed.

Lemma scrub_empty_iff u :
  scrub u = EmptyString <-> any_char is_word_char u = false.
Proof.
  split.
  - intros E. destruct (any_char is_word_char u) eqn:A; auto.
    assert (H : any_char is_word_char (scrub u) = true).
    { unfold scrub, PyStr.strip, Re.sub_underscore.
      apply any_char_lstrip; [apply word_char_not_underscore|].
      apply any_char_rstrip; [apply word_char_not_underscore|].
      apply any_char_sub_runs; [apply word_char_not_underscore|].
      apply any_char_sub_runs; [apply word_char_not_bad|]. exact A. }
    rewrite E in H. discriminate.
  - intros A. rewrite any_char_all_chars in A. apply negb_false_iff in A.
    unfold scrub. apply strip_sub_all_underscore.
    now apply sub_bad_all_underscore.
Qed.

Lemma any_char_lower p s :
  any_char p (PyStr.lower s) = any_char (fun c => p (PyStr.lower_char c)) s.
Proof. induction s as [|c s IH]; simpl; congruence. Qed.

(** X9: [sanitize_name] returns the empty string exactly when no character
    of the name is, once lowercased, a letter [a-z], a digit or a dash; then
    the combined file of [main] gets no prefix. Otherwise the result is a
    non-empty token, and the file name is that token, an underscore, the
    activity name and the suffix. *)
Theorem sanitize_name_empty_iff :
  (forall s : string,
      sanitize_name s = EmptyString
      <-> any_char (fun c => is_word_char (PyStr.lower_char c)) s = false)
  /\ (forall s activity : string,
         any_char (fun c => is_word_char (PyStr.lower_char c)) s = false ->
         output_name (sanitize_name s) activity
         = (activity ++ "_combined.csv")%string)
  /\ (forall s activity : string,
         any_char (fun c => is_word_char (PyStr.lower_char c)) s = true ->
         sanitize_name s <> EmptyString
         /\ output_name (sanitize_name s) activity
            = (sanitize_name s ++ "_" ++ activity ++ "_combined.csv")%string).
Proof.
  assert (H : forall s, sanitize_name s = EmptyString
     <-> any_char (fun c => is_word_char (PyStr.lower_char c)) s = false).
  { intros s. now rewrite sanitize_name_scrub, scrub_empty_iff, any_char_lower. }
  split; [exact H|]. split.
  - intros s activity Hs. apply H in Hs. now rewrite Hs.
  - intros s activity Hs.
    assert (Hne : sanitize_name s <> EmptyString).
    { intros E. apply H in E. congruence. }
    split; auto. unfold output_name.
    destruct (sanitize_name s); [contradiction|reflexivity].
Qed.

Lemma sanitize_name_empty_iff_witness :
  output_name (sanitize_name " _?!_ ") "walking" = "walking_combined.csv"
  /\ output_name (sanitize_name "Dr. Who") "walking"
     = "dr_who_walking_combined.csv".
Proof.
  split.
  - apply (proj1 (proj2 sanitize_name_empty_iff) " _?!_ " "walking").
    reflexivity.
  - apply (proj2 (proj2 (proj2 sanitize_name_empty_iff) "Dr. Who" "walking"
                    eq_refl)).
Defined.

(** ** Free file names *)

Lemma first_free_some ex cand fuel i q :
  first_free ex cand fuel i = Some q ->
  exists k, i <= k /\ k < i + fuel /\ q = cand k /\ ex q = false
            /\ forall j, i <= j -> j < k -> ex (cand j) = true.
Proof.
  revert i. induction fuel as [|fuel IH]; intros i; simpl; [discriminate|].
  destruct (ex (cand i)) eqn:E.
  - intros H. destruct (IH _ H) as (k & Hik & Hk & -> & Hq & Hj).
    exists k. repeat split; auto; try lia.
    intros j H1 H2. destruct (Nat.eq_dec j i) as [->|Hne]; auto.
    apply Hj; lia.
  - intros [= <-]. exists i. repeat split; auto; try lia.
Qed.

Lemma first_free_enough ex cand fuel i k :
  i <= k -> k < i + fuel -> ex (cand k) = false ->
  exists q, first_free ex cand fuel i = Some q.
Proof.
  revert i. induction fuel as [|fuel IH]; intros i Hik Hk E; [lia|].
  simpl. destruct (ex (cand i)) eqn:Ei; [|eauto].
  apply IH; auto; try lia.
  destruct (Nat.eq_dec i k) as [->|Hne]; [congruence|lia].
Qed.

(** Among more candidates than there are paths, all different, one is
    free. *)
Lemma free_candidate ex cand l i :
  finite_fs ex l ->
  (forall j k, i <= j -> i <= k -> cand j = cand k -> j = k) ->
  exists k, i <= k /\ k <= i + List.length l /\ ex (cand k) = false.
Proof.
  intros Hfin Hinj.
  destruct (forallb (fun k => ex (cand k)) (seq i (S (List.length l))))
    eqn:F.
  - exfalso. rewrite forallb_forall in F.
    assert (Hnd : NoDup (map cand (seq i (S (List.length l))))).
    { assert (Hg : forall n, NoDup (map cand (seq i n))).
      { intros n. induction n as [|n IHn]; [constructor|].
        rewrite seq_S, map_app. simpl.
        apply NoDup_rev in IHn. rewrite <- (rev_involutive (_ ++ _)).
        apply NoDup_rev. rewrite rev_app_distr. simpl.
        constructor; auto. rewrite <- in_rev. intros Hin.
        apply in_map_iff in Hin as (j & Ej & Hj). apply in_seq in Hj.
        apply Hinj in Ej; lia. }
      apply Hg. }
    apply NoDup_incl_length with (l' := l) in Hnd.
    + rewrite length_map, length_seq in Hnd. lia.
    + intros p Hp. apply in_map_iff in Hp as (k & <- & Hk).
      apply Hfin, F, Hk.
  - assert (Hex : existsb (fun k => negb (ex (cand k)))
                          (seq i (S (List.length l))) = true).
    { clear -F. induction (seq i (S (List.length l))) as [|k ks IH];
        simpl in *; [discriminate|].
      destruct (ex (cand k)); simpl in *; auto. }
    apply existsb_exists in Hex as (k & Hk & E). apply in_seq in Hk.
    exists k. repeat split; try lia. now apply negb_true_iff in E.
Qed.

(** *** String concatenation *)

Lemma append_assoc (a b c : string) : ((a ++ b) ++ c = a ++ (b ++ c))%string.
Proof. induction a; simpl; congruence. Qed.

Lemma append_empty_r (a : string) : (a ++ EmptyString)%string = a.
Proof. induction a; simpl; congruence. Qed.

Lemma append_length (a b : string) :
  String.length (a ++ b) = String.length a + String.length b.
Proof. induction a; simpl; congruence. Qed.

Lemma append_cancel_l (a b c : string) : (a ++ b = a ++ c)%string -> b = c.
Proof. induction a; simpl; intros H; auto. injection H. auto. Qed.

Lemma append_cancel_r (a b c : string) : (a ++ c = b ++ c)%string -> a = b.
Proof.
  revert b. induction a as [|x a IH]; intros [|y b] H; simpl in H; auto.
  - apply (f_equal String.length) in H. simpl in H.
    rewrite append_length in H. lia.
  - apply (f_equal String.length) in H. simpl in H.
    rewrite append_length in H. lia.
  - injection H as -> H. f_equal. now apply IH.
Qed.

Lemma str_of_nat_inj j k : str_of_nat j = str_of_nat k -> j = k.
Proof.
  unfold str_of_nat. intros H.
  apply Unsigned.to_uint_inj.
  apply (f_equal NilEmpty.uint_of_string) in H.
  rewrite !NilEmpty.usu in H. congruence.
Qed.

Lemma numbered_inj base ext j k :
  numbered base ext j = numbered base ext k -> j = k.
Proof.
  unfold numbered. intros H.
  apply append_cancel_l in H. simpl in H. injection H as H.
  apply append_cancel_r in H. now apply str_of_nat_inj.
Qed.

(** *** [basename] and [splitext] *)

Lemma rsplit_char_some ch s before after :
  rsplit_char ch s = Some (before, after) ->
  s = (before ++ String ch after)%string
  /\ all_chars (fun c => negb (Ascii.eqb c ch)) after = true.
Proof.
  revert before. induction s as [|c s IH]; intros before; simpl;
    [discriminate|].
  destruct (rsplit_char ch s) as [[b a]|] eqn:R.
  - intros [= <- <-]. destruct (IH b eq_refl) as [-> Ha]. auto.
  - destruct (Ascii.eqb_spec c ch) as [->|Hne]; [|discriminate].
    intros [= <- <-]. split; auto.
    clear IH. revert R. induction s as [|c s IH]; simpl; auto.
    destruct (rsplit_char ch s) as [[b a]|]; [discriminate|].
    destruct (Ascii.eqb c ch); [discriminate|]. intros _. now apply IH.
Qed.

Lemma dirpart_basename p : (dirpart p ++ basename p)%string = p.
Proof.
  unfold dirpart, basename.
  destruct (rsplit_char "/" p) as [[b a]|] eqn:R; auto.
  apply rsplit_char_some in R as [-> _]. now rewrite append_assoc.
Qed.

Lemma splitext_join p :
  (fst (splitext p) ++ snd (splitext p))%string = p.
Proof.
  unfold splitext.
  destruct (rsplit_char "." (basename p)) as [[pre suf]|] eqn:R;
    [|apply append_empty_r].
  destruct (all_chars is_dot pre); [apply append_empty_r|].
  apply rsplit_char_some in R as [E _]. cbn [fst snd].
  rewrite append_assoc, <- E. apply dirpart_basename.
Qed.

(** ** [make_unique_path] *)

(** X10: [make_unique_path] returns the path itself when overwriting is
    allowed or the path is free. Otherwise it returns the path with [_k]
    inserted before its extension, for the least [k >= 1] whose path is
    free: what it returns without [overwrite] never exists. On a file system
    with finitely many paths the loop ends. *)
Theorem make_unique_path_first_free :
  forall (ex : string -> bool) (path : string),
    (forall overwrite fuel,
        overwrite = true \/ ex path = false ->
        make_unique_path ex path overwrite fuel = Some path)
    /\ (forall fuel q,
           make_unique_path ex path false fuel = Some q ->
           ex q = false
           /\ (fst (splitext path) ++ snd (splitext path))%string = path
           /\ (ex path = true ->
               exists k,
                 1 <= k
                 /\ q = (fst (splitext path) ++ "_" ++ str_of_nat k
                         ++ snd (splitext path))%string
                 /\ forall j, 1 <= j -> j < k ->
                      ex (fst (splitext path) ++ "_" ++ str_of_nat j
                          ++ snd (splitext path))%string = true))
    /\ (forall overwrite l fuel,
           finite_fs ex l -> List.length l < fuel ->
           exists q, make_unique_path ex path overwrite fuel = Some q).
Proof.
  intros ex path. split; [|split].
  - intros overwrite fuel H. unfold make_unique_path.
    destruct H as [-> | ->]; [reflexivity|]. now rewrite orb_true_r.
  - intros fuel q. unfold make_unique_path. cbn [orb].
    destruct (ex path) eqn:E; cbn [negb].
    + destruct (splitext path) as [base ext] eqn:S.
      intros H. apply first_free_some in H
        as (k & Hk1 & _ & -> & Hq & Hj).
      split; [exact Hq|]. split.
      * now rewrite <- (splitext_join path), S.
      * intros _. exists k. cbn [fst snd]. repeat split; auto.
    + intros [= <-]. split; [exact E|]. split; [apply splitext_join|].
      discriminate.
  - intros overwrite l fuel Hfin Hlen. unfold make_unique_path.
    destruct (overwrite || negb (ex path)); [eauto|].
    destruct (splitext path) as [base ext].
    destruct (free_candidate ex (numbered base ext) l 1 Hfin)
      as (k & Hk1 & Hk2 & Hk).
    { intros j k _ _. apply numbered_inj. }
    apply (first_free_enough _ _ _ _ k); auto. lia.
Qed.

Lemma make_unique_path_first_free_witness :
  make_unique_path example_exists "out/walking_combined.csv" false 3
  = Some "out/walking_combined_2.csv"
  /\ example_exists "out/walking_combined_2.csv" = false.
Proof.
  destruct (proj2 (proj2 (make_unique_path_first_free
                            example_exists "out/walking_combined.csv"))
              false ["out/walking_combined.csv"; "out/walking_combined_1.csv"]
              3) as [q Hq].
  - intros p Hp. apply str_in_list_In. exact Hp.
  - simpl. lia.
  - destruct (proj1 (proj2 (make_unique_path_first_free
                              example_exists "out/walking_combined.csv"))
                3 q Hq) as (Hfree & _ & _).
    vm_compute in Hq. injection Hq as <-. split; [reflexivity|exact Hfree].
Defined.

(** ** [unique_target_path] *)

Lemma path_join_numbered dest base ext :
  exists P, forall k,
      path_join dest (numbered base ext k)
      = (P ++ "_" ++ str_of_nat k ++ ext)%string.
Proof.
  unfold path_join, numbered.
  destruct base as [|c base].
  - destruct (PyStr.is_empty dest || PyStr.endswith dest "/").
    + exists dest. intros k. reflexivity.
    + exists (dest ++ "/")%string. intros k. cbn [append].
      now rewrite append_assoc.
  - cbn [append]. destruct (Ascii.eqb "/" c) eqn:E.
    + exists (String c base). intros k.
      now rewrite prefix_cons, E, prefix_empty.
    + destruct (PyStr.is_empty dest || PyStr.endswith dest "/").
      * exists (dest ++ String c base)%string. intros k.
        rewrite prefix_cons, E. cbn [andb]. now rewrite append_assoc.
      * exists (dest ++ "/" ++ String c base)%string. intros k.
        rewrite prefix_cons, E. cbn [andb].
        now rewrite !append_assoc.
Qed.

Lemma target_candidate_inj dest b j k :
  1 <= j -> 1 <= k ->
  target_candidate dest b j = target_candidate dest b k -> j = k.
Proof.
  intros Hj Hk. unfold target_candidate.
  destruct j as [|j]; [lia|]. destruct k as [|k]; [lia|].
  destruct (splitext b) as [base ext].
  destruct (path_join_numbered dest base ext) as [P HP].
  rewrite !HP. intros H. apply (numbered_inj P ext). exact H.
Qed.

(** X11: with [overwrite], [unique_target_path] returns the base name joined
    to the destination, whether it exists or not. Without it, the result is
    the first candidate that does not exist, in the order: the base name,
    then the base name with [_1], [_2], ... before its extension; so the
    result never exists. On a file system with finitely many paths the loop
    ends. *)
Theorem unique_target_path_first_free :
  forall (ex : string -> bool) (dest_dir basename_ : string),
    (forall fuel,
        unique_target_path ex dest_dir basename_ true fuel
        = Some (path_join dest_dir basename_))
    /\ (forall fuel q,
           unique_target_path ex dest_dir basename_ false fuel = Some q ->
           ex q = false
           /\ exists k,
               q = target_candidate dest_dir basename_ k
               /\ forall j, j < k ->
                    ex (target_candidate dest_dir basename_ j) = true)
    /\ (forall overwrite l fuel,
           finite_fs ex l -> S (List.length l) < fuel ->
           exists q,
             unique_target_path ex dest_dir basename_ overwrite fuel = Some q).
Proof.
  intros ex dest b. split; [reflexivity|]. split.
  - intros fuel q H. unfold unique_target_path in H.
    apply first_free_some in H as (k & _ & _ & -> & Hq & Hj).
    split; [exact Hq|]. exists k. split; auto.
    intros j Hjk. apply Hj; lia.
  - intros overwrite l fuel Hfin Hlen. unfold unique_target_path.
    destruct overwrite; [eauto|].
    destruct (free_candidate ex (target_candidate dest b) l 1 Hfin)
      as (k & Hk1 & Hk2 & Hk).
    { intros j k. apply target_candidate_inj. }
    apply (first_free_enough _ _ _ _ k); auto; lia.
Qed.

Lemma unique_target_path_first_free_witness :
  exists q,
    unique_target_path
      (fun p => str_in_list p ["d/gyroscope.csv"]) "d" "gyroscope.csv"
      false 3 = Some q
    /\ q = "d/gyroscope_1.csv".
Proof.
  destruct (proj2 (proj2 (unique_target_path_first_free
                            (fun p => str_in_list p ["d/gyroscope.csv"])
                            "d" "gyroscope.csv"))
              false ["d/gyroscope.csv"] 3) as [q Hq].
  - intros p Hp. apply str_in_list_In. exact Hp.
  - simpl. lia.
  - exists q. split; [exact Hq|].
    vm_compute in Hq. now injection Hq as <-.
Defined.

(** ** [find_activities] and [find_session_dirs] *)

Lemma sorted_filter {A : Type} (le : A -> A -> Prop) (P : A -> bool) l :
  StronglySorted le l -> StronglySorted le (filter P l).
Proof.
  induction 1 as [|a l Hl IH Ha]; simpl; [constructor|].
  destruct (P a); auto. constructor; auto.
  rewrite Forall_forall in *. intros x Hx.
  apply filter_In in Hx as [Hx _]. auto.
Qed.

Lemma listed_dirs tree dir entries :
  exists names,
    filter (is_dir tree) (map (path_join dir) (PyStr.sorted entries))
    = map (path_join dir) names
    /\ StronglySorted str_le names
    /\ forall e, In e names
                 <-> In e entries /\ is_dir tree (path_join dir e) = true.
Proof.
  exists (filter (fun e => is_dir tree (path_join dir e))
                 (PyStr.sorted entries)).
  split; [apply filter_map_comm|]. split.
  - apply sorted_filter, sorted_sorted.
  - intros e. rewrite filter_In, sorted_In. reflexivity.
Qed.

(** X12: when the directory can be listed, [find_activities] returns the
    paths of exactly those entries that are directories, in the sorted order
    of their names. *)
Theorem find_activities_sorted_dirs :
  forall (tree : dirtree) (source_root : string) (entries : list string),
    dir_entries tree source_root = Some entries ->
    exists names,
      find_activities tree source_root
      = Some (map (path_join source_root) names)
      /\ StronglySorted str_le names
      /\ forall e, In e names
                   <-> In e entries
                       /\ is_dir tree (path_join source_root e) = true.
Proof.
  intros tree root entries H. unfold find_activities. rewrite H.
  destruct (listed_dirs tree root entries) as (names & E & Hs & Hin).
  exists names. rewrite E. auto.
Qed.

Lemma find_activities_sorted_dirs_witness :
  exists names,
    find_activities
      {| dir_entries := fun _ => Some ["walking"; "notes.txt"; "jumping"];
         is_dir := fun p => negb (PyStr.endswith p ".txt") |} "data"
    = Some (map (path_join "data") names)
    /\ StronglySorted str_le names
    /\ forall e, In e names
                 <-> In e ["walking"; "notes.txt"; "jumping"]
                     /\ negb (PyStr.endswith (path_join "data" e) ".txt")
                        = true.
Proof.
  apply (find_activities_sorted_dirs
           {| dir_entries := fun _ => Some ["walking"; "notes.txt"; "jumping"];
              is_dir := fun p => negb (PyStr.endswith p ".txt") |}
           "data" ["walking"; "notes.txt"; "jumping"] eq_refl).
Defined.

(** X13: where every directory can be listed, [find_session_dirs] raises
    nothing, whether the extracted folder exists or not, and returns the
    paths, under the extracted folder, of exactly those of its entries that
    are directories, in the sorted order of their names; when the extracted
    folder is no directory there is none. *)
Theorem find_session_dirs_sorted_dirs :
  forall (tree : dirtree) (activity_dir extracted_subdir : string),
    listable tree ->
    exists names,
      find_session_dirs tree activity_dir extracted_subdir
      = Some (map (path_join (path_join activity_dir extracted_subdir)) names)
      /\ StronglySorted str_le names
      /\ forall e,
          In e names
          <-> is_dir tree (path_join activity_dir extracted_subdir) = true
              /\ (exists entries,
                     dir_entries tree (path_join activity_dir extracted_subdir)
                     = Some entries
                     /\ In e entries)
              /\ is_dir tree
                   (path_join (path_join activity_dir extracted_subdir) e)
                 = true.
Proof.
  intros tree a x Hl. unfold find_session_dirs.
  destruct (is_dir tree (path_join a x)) eqn:D; cbn [negb].
  - specialize (Hl _ D).
    destruct (dir_entries tree (path_join a x)) as [entries|] eqn:E;
      [|contradiction].
    destruct (listed_dirs tree (path_join a x) entries)
      as (names & -> & Hs & Hin).
    exists names. split; [reflexivity|]. split; [exact Hs|].
    intros e. rewrite Hin. split.
    + intros [He Hd]. eauto.
    + intros (_ & (entries' & [= <-] & He) & Hd). auto.
  - exists []. split; [reflexivity|]. split; [constructor|].
    intros e. split; [intros []|intros [? _]; discriminate].
Qed.

Lemma find_session_dirs_sorted_dirs_witness :
  exists names,
    find_session_dirs
      {| dir_entries := fun _ => Some ["s2"; "readme.md"; "s1"];
         is_dir := fun p => negb (PyStr.endswith p ".md") |}
      "data/walking" "extracted"
    = Some (map (path_join (path_join "data/walking" "extracted")) names)
    /\ StronglySorted str_le names
    /\ forall e,
        In e names
        <-> negb (PyStr.endswith (path_join "data/walking" "extracted") ".md")
            = true
            /\ (exists entries,
                   Some ["s2"; "readme.md"; "s1"] = Some entries
                   /\ In e entries)
            /\ negb (PyStr.endswith
                       (path_join (path_join "data/walking" "extracted") e)
                       ".md") = true.
Proof.
  apply (find_session_dirs_sorted_dirs
           {| dir_entries := fun _ => Some ["s2"; "readme.md"; "s1"];
              is_dir := fun p => negb (PyStr.endswith p ".md") |}
           "data/walking" "extracted").
  intros d _. discriminate.
Defined.

(** ** [normalize_basename] and [find_sensor_entries_in_zip] *)

Lemma rsplit_char_none ch s :
  all_chars (fun c => negb (Ascii.eqb c ch)) s = true ->
  rsplit_char ch s = None.
Proof.
  induction s as [|c s IH]; simpl; auto.
  intros H. apply andb_prop in H as [Hc Hs].
  rewrite (IH Hs). apply negb_true_iff in Hc. now rewrite Hc.
Qed.

Lemma rsplit_char_app ch before after :
  all_chars (fun c => negb (Ascii.eqb c ch)) after = true ->
  rsplit_char ch (before ++ String ch after) = Some (before, after).
Proof.
  intros H. induction before as [|c b IH]; simpl.
  - now rewrite (rsplit_char_none _ _ H), Ascii.eqb_refl.
  - now rewrite IH.
Qed.

Lemma endswith_split s suf :
  PyStr.endswith s suf = true -> exists d, s = (d ++ suf)%string.
Proof.
  induction s as [|c s IH]; cbn [PyStr.endswith]; intros H;
    apply orb_prop in H as [H|H]; try discriminate.
  - apply String.eqb_eq in H. exists EmptyString. auto.
  - apply String.eqb_eq in H. exists EmptyString. auto.
  - destruct (IH H) as [d ->]. exists (String c d). reflexivity.
Qed.

Lemma basename_of_dir_entry f : entry_is_dir f = true -> basename f = EmptyString.
Proof.
  intros H. apply endswith_split in H as [d ->].
  unfold basename. now rewrite rsplit_char_app.
Qed.

Lemma basename_join d n :
  all_chars not_slash n = true -> basename (d ++ "/" ++ n) = n.
Proof.
  intros H. unfold basename. cbn [append]. now rewrite rsplit_char_app.
Qed.

Lemma basename_plain n : all_chars not_slash n = true -> basename n = n.
Proof. intros H. unfold basename. now rewrite rsplit_char_none. Qed.

Lemma lower_char_slash c :
  Ascii.eqb (PyStr.lower_char c) "/" = Ascii.eqb c "/".
Proof. ascii_cases c; reflexivity. Qed.

Lemma lower_char_space c :
  PyStr.is_space (PyStr.lower_char c) = PyStr.is_space c.
Proof. ascii_cases c; reflexivity. Qed.

Lemma lower_char_idem c :
  PyStr.lower_char (PyStr.lower_char c) = PyStr.lower_char c.
Proof. ascii_cases c; reflexivity. Qed.

Lemma rsplit_slash_lower s :
  rsplit_char "/" (PyStr.lower s)
  = option_map (fun ba => (PyStr.lower (fst ba), PyStr.lower (snd ba)))
               (rsplit_char "/" s).
Proof.
  induction s as [|c s IH]; simpl; auto.
  rewrite IH. destruct (rsplit_char "/" s) as [[b a]|]; simpl; auto.
  rewrite lower_char_slash. now destruct (Ascii.eqb c "/").
Qed.

Lemma basename_lower s : basename (PyStr.lower s) = PyStr.lower (basename s).
Proof.
  unfold basename. rewrite rsplit_slash_lower.
  now destruct (rsplit_char "/" s) as [[b a]|].
Qed.

Lemma lstrip_lower s :
  PyStr.lstrip PyStr.is_space (PyStr.lower s)
  = PyStr.lower (PyStr.lstrip PyStr.is_space s).
Proof.
  induction s as [|c s IH]; simpl; auto.
  rewrite lower_char_space. now destruct (PyStr.is_space c).
Qed.

Lemma rstrip_lower s :
  PyStr.rstrip PyStr.is_space (PyStr.lower s)
  = PyStr.lower (PyStr.rstrip PyStr.is_space s).
Proof.
  induction s as [|c s IH]; simpl; auto.
  rewrite IH, lower_char_space.
  destruct (PyStr.rstrip PyStr.is_space s); simpl;
    now destruct (PyStr.is_space c).
Qed.

Lemma lower_idem s : PyStr.lower (PyStr.lower s) = PyStr.lower s.
Proof. induction s as [|c s IH]; simpl; auto. now rewrite lower_char_idem, IH. Qed.

(** X14: [find_sensor_entries_in_zip] raises the [ValueError] for an archive
    that cannot be opened; otherwise it returns, in archive order, exactly
    the entries whose base name, trimmed and lowercased, is
    [accelerometer.csv] or [gyroscope.csv]. The test for directory entries
    removes nothing more, the directory inside the archive does not matter,
    and neither does case. *)
Theorem find_sensor_entries_in_zip_selects :
  (forall zip_path, find_sensor_entries_in_zip zip_path None
                    = inl (BadZip zip_path))
  /\ (forall zip_path names,
         find_sensor_entries_in_zip zip_path (Some names)
         = inr (filter (fun f => str_in_list (normalize_basename f)
                                             SENSOR_BASENAMES) names))
  /\ (forall d n, all_chars not_slash n = true ->
                  normalize_basename (d ++ "/" ++ n) = normalize_basename n)
  /\ (forall p, normalize_basename (PyStr.lower p) = normalize_basename p).
Proof.
  split; [reflexivity|]. split; [|split].
  - intros zp names. unfold find_sensor_entries_in_zip. f_equal.
    apply filter_ext. intros f.
    destruct (entry_is_dir f) eqn:D; auto.
    unfold normalize_basename. now rewrite (basename_of_dir_entry f D).
  - intros d n H. unfold normalize_basename.
    now rewrite basename_join, basename_plain.
  - intros p. unfold normalize_basename, PyStr.strip.
    now rewrite basename_lower, rstrip_lower, lstrip_lower, lower_idem.
Qed.

Lemma find_sensor_entries_in_zip_selects_witness :
  normalize_basename ("Session 1/raw" ++ "/" ++ "Gyroscope.CSV ")
  = normalize_basename "Gyroscope.CSV ".
Proof.
  apply (proj1 (proj2 (proj2 find_sensor_entries_in_zip_selects))
           "Session 1/raw" "Gyroscope.CSV ").
  reflexivity.
Defined.

(** ** [extract_entries_from_zip] *)

Lemma fs_exists_finite fs : finite_fs (fs_exists fs) fs.
Proof. intros p Hp. now apply str_in_list_In. Qed.

Lemma unique_target_path_total ex dest b overwrite l fuel :
  finite_fs ex l -> S (List.length l) < fuel ->
  exists q, unique_target_path ex dest b overwrite fuel = Some q.
Proof.
  intros Hfin Hlen. unfold unique_target_path.
  destruct overwrite; [eauto|].
  destruct (free_candidate ex (target_candidate dest b) l 1 Hfin)
    as (k & Hk1 & Hk2 & Hk).
  { intros j k. apply target_candidate_inj. }
  apply (first_free_enough _ _ _ _ k); auto; lia.
Qed.

Lemma unique_target_path_fresh fs dest b fuel t :
  unique_target_path (fs_exists fs) dest b false fuel = Some t ->
  ~ In t fs /\ exists k, t = target_candidate dest b k.
Proof.
  unfold unique_target_path. intros H.
  apply first_free_some in H as (k & _ & _ & -> & Hq & _).
  split; [|eauto]. intros Hin. apply str_in_list_In in Hin.
  unfold fs_exists in Hq. congruence.
Qed.

Lemma extract_loop_fresh copy zp dest fuel entries :
  forall fs used acc extracted fs',
    extract_loop copy zp dest false fuel entries fs used acc
    = Ended (inr extracted, fs') ->
    exists new,
      extracted = acc ++ new
      /\ List.length new = List.length entries
      /\ NoDup new
      /\ (forall t, In t new -> ~ In t fs)
      /\ fs' = rev new ++ fs
      /\ Forall2 (fun entry t =>
                    exists k, t = target_candidate dest (basename entry) k)
                 entries new.
Proof.
  induction entries as [|entry rest IH]; intros fs used acc extracted fs'.
  - simpl. intros [= <- <-]. exists []. rewrite app_nil_r.
    repeat split; auto; try constructor; try (intros t []).
  - cbn [extract_loop].
    destruct (unique_target_path (fs_exists fs) dest (basename entry)
                                 false fuel) as [target|] eqn:U;
      [|discriminate].
    destruct (unique_target_path_fresh _ _ _ _ _ U) as (Hfresh & k & Hk).
    destruct (copy fs entry target); try discriminate.
    intros H. apply IH in H
      as (new & -> & Hlen & Hnd & Hnew & -> & Hcand).
    exists (target :: new). repeat split.
    + now rewrite <- app_assoc.
    + simpl. now rewrite Hlen.
    + constructor; auto. intros Hin. apply (Hnew _ Hin). simpl; auto.
    + intros t [<-|Hin]; auto. intros Hfs. apply (Hnew _ Hin). simpl; auto.
    + simpl. now rewrite <- app_assoc.
    + constructor; eauto.
Qed.

(** X15: when [extract_entries_from_zip] returns without [overwrite], it has
    written one file per entry, to paths that did not exist before the call
    and that are pairwise different, also for entries with the same base
    name; each is the base name of its entry, or that name numbered, in the
    destination directory; these paths and no others are new. *)
Theorem extract_entries_from_zip_fresh :
  forall (copy : fs_paths -> string -> string -> copy_outcome)
         (zip_path dest_dir : string) (entries : list string) (fuel : nat)
         (fs fs' : fs_paths) (extracted : list string),
    extract_entries_from_zip copy zip_path entries dest_dir false fuel fs
    = Ended (inr extracted, fs') ->
    List.length extracted = List.length entries
    /\ NoDup extracted
    /\ (forall t, In t extracted -> ~ In t fs)
    /\ fs' = rev extracted ++ fs
    /\ Forall2 (fun entry t =>
                  exists k, t = target_candidate dest_dir (basename entry) k)
               entries extracted.
Proof.
  intros copy zp dest entries fuel fs fs' extracted H.
  apply extract_loop_fresh in H as (new & -> & H). exact H.
Qed.

Lemma extract_entries_from_zip_fresh_witness :
  NoDup ["d/gyroscope_1.csv"; "d/gyroscope_2.csv"]
  /\ forall t, In t ["d/gyroscope_1.csv"; "d/gyroscope_2.csv"] ->
               ~ In t ["d/gyroscope.csv"].
Proof.
  destruct (extract_entries_from_zip_fresh
              (fun _ _ _ => Copied) "s.zip" "d"
              ["a/gyroscope.csv"; "b/gyroscope.csv"] 5
              ["d/gyroscope.csv"] _ _ eq_refl) as (_ & Hnd & Hfresh & _).
  split; [exact Hnd|exact Hfresh].
Defined.

Lemma extract_loop_total copy zp dest overwrite fuel entries :
  forall fs used acc,
    S (List.length fs) + List.length entries < fuel ->
    exists r, extract_loop copy zp dest overwrite fuel entries fs used acc
              = Ended r.
Proof.
  induction entries as [|entry rest IH]; intros fs used acc Hlen;
    cbn [extract_loop]; [eauto|].
  destruct (unique_target_path_total (fs_exists fs) dest (basename entry)
              overwrite fs fuel (fs_exists_finite fs)) as [t ->].
  { simpl in Hlen. lia. }
  destruct (copy fs entry t); eauto.
  apply IH. simpl in *. lia.
Qed.

Lemma extract_loop_overwrite copy zp dest fuel entries :
  (forall fs entry target, copy fs entry target = Copied) ->
  forall fs used acc,
    extract_loop copy zp dest true fuel entries fs used acc
    = Ended (inr (acc ++ map (fun e => path_join dest (basename e)) entries),
             rev (map (fun e => path_join dest (basename e)) entries) ++ fs).
Proof.
  intros Hcopy. induction entries as [|entry rest IH]; intros fs used acc.
  - simpl. now rewrite app_nil_r.
  - cbn [extract_loop unique_target_path]. rewrite Hcopy, IH.
    simpl. now rewrite <- !app_assoc.
Qed.

(** X16: the loop of [extract_entries_from_zip] ends once the fuel exceeds
    the number of existing paths plus the number of entries plus one. With
    [overwrite], when every copy succeeds, every entry is written to its
    base name in the destination directory, so entries with the same base
    name are written to the same file, and each of them is counted in the
    result. *)
Theorem extract_entries_from_zip_overwrite :
  forall (copy : fs_paths -> string -> string -> copy_outcome)
         (zip_path dest_dir : string) (entries : list string),
    (forall overwrite fuel fs,
        S (List.length fs) + List.length entries < fuel ->
        exists r,
          extract_entries_from_zip copy zip_path entries dest_dir
                                   overwrite fuel fs = Ended r)
    /\ ((forall fs entry target, copy fs entry target = Copied) ->
        forall fuel fs,
          extract_entries_from_zip copy zip_path entries dest_dir true fuel fs
          = Ended (inr (map (fun e => path_join dest_dir (basename e)) entries),
                   rev (map (fun e => path_join dest_dir (basename e)) entries)
                   ++ fs)).
Proof.
  intros copy zp dest entries. split.
  - intros overwrite fuel fs H. now apply extract_loop_total.
  - intros Hcopy fuel fs. unfold extract_entries_from_zip.
    now rewrite extract_loop_overwrite.
Qed.

Lemma extract_entries_from_zip_overwrite_witness :
  extract_entries_from_zip (fun _ _ _ => Copied) "s.zip"
    ["a/gyroscope.csv"; "b/gyroscope.csv"] "d" true 0 []
  = Ended (inr ["d/gyroscope.csv"; "d/gyroscope.csv"],
           ["d/gyroscope.csv"; "d/gyroscope.csv"]).
Proof.
  apply (proj2 (extract_entries_from_zip_overwrite
                  (fun _ _ _ => Copied) "s.zip" "d"
                  ["a/gyroscope.csv"; "b/gyroscope.csv"])).
  reflexivity.
Defined.

(** ** [process_all_zips] *)

Lemma extract_loop_length copy zp dest overwrite fuel entries :
  forall fs used acc extracted fs',
    extract_loop copy zp dest overwrite fuel entries fs used acc
    = Ended (inr extracted, fs') ->
    List.length extracted = List.length acc + List.length entries.
Proof.
  induction entries as [|entry rest IH]; intros fs used acc extracted fs'.
  - simpl. intros [= <- <-]. lia.
  - cbn [extract_loop].
    destruct (unique_target_path _ _ _ _ _) as [target|]; [|discriminate].
    destruct (copy fs entry target); try discriminate.
    intros H. apply IH in H. rewrite H, length_app. simpl. lia.
Qed.

Lemma extract_loop_copied copy zp dest overwrite fuel entries :
  (forall fs entry target, copy fs entry target = Copied) ->
  forall fs used acc e fs',
    extract_loop copy zp dest overwrite fuel entries fs used acc
    <> Ended (inl e, fs').
Proof.
  intros Hcopy. induction entries as [|entry rest IH];
    intros fs used acc e fs'; cbn [extract_loop]; [discriminate|].
  destruct (unique_target_path _ _ _ _ _) as [target|]; [|discriminate].
  rewrite Hcopy. apply IH.
Qed.

Ltac sum_arith := unfold list_sum in *; simpl in *; lia.

Lemma process_loop_counts archives makedirs copy dest list_only overwrite
      fuel zips :
  forall fs p t p' t' fs',
    process_loop archives makedirs copy dest list_only overwrite fuel
                 zips fs p t = Ended (Some (p', t'), fs') ->
    p' = p + List.length zips
    /\ t <= t'
    /\ t' <= t + list_sum (map (fun zf => List.length
                                            (sensor_entries archives zf)) zips)
    /\ (list_only = true -> t' = t)
    /\ (list_only = false ->
        (forall fs entry target, copy fs entry target = Copied) ->
        t' = t + list_sum (map (fun zf => List.length
                                            (sensor_entries archives zf)) zips)).
Proof.
  induction zips as [|zf rest IH]; intros fs p t p' t' fs'.
  - simpl. intros [= <- <- <-]. repeat split; intros; lia.
  - cbn [process_loop map list_sum fold_right List.length].
    unfold sensor_entries at 1 3.
    destruct (find_sensor_entries_in_zip zf (archives zf)) as [e|matches].
    + intros H. apply IH in H as (-> & H1 & H2 & H3 & H4).
      split; [lia|]. split; [lia|]. split; [sum_arith|].
      split; [exact H3|]. intros Hl Hc. specialize (H4 Hl Hc). sum_arith.
    + destruct matches as [|m ms]; cbn [is_nil].
      * intros H. apply IH in H as (-> & H1 & H2 & H3 & H4).
        split; [lia|]. split; [lia|]. split; [sum_arith|].
        split; [exact H3|]. intros Hl Hc. specialize (H4 Hl Hc). sum_arith.
      * destruct (prepare_dest_for_zip makedirs fs dest zf)
          as [[dest_dir fs1]|]; [|discriminate].
        destruct list_only.
        -- intros H. apply IH in H as (-> & H1 & H2 & H3 & H4).
           split; [lia|]. split; [lia|]. split; [sum_arith|].
           split; [exact H3|]. discriminate.
        -- destruct (extract_entries_from_zip copy zf (m :: ms) dest_dir
                                              overwrite fuel fs1)
             as [[[e|extracted] fs2]|] eqn:X; [| |discriminate].
           ++ intros H. apply IH in H as (-> & H1 & H2 & H3 & H4).
              split; [lia|]. split; [lia|]. split; [sum_arith|].
              split; [discriminate|]. intros _ Hc.
              exfalso. eapply extract_loop_copied; eauto.
           ++ apply extract_loop_length in X. simpl in X.
              intros H. apply IH in H as (-> & H1 & H2 & H3 & H4).
              rewrite X in *.
              split; [lia|]. split; [lia|]. split; [sum_arith|].
              split; [discriminate|]. intros Hl Hc.
              specialize (H4 Hl Hc). sum_arith.
Qed.

(** X17: when [process_all_zips] returns its pair of counts, the first is
    the number of archives found, those that cannot be opened and those
    without sensor files included; the second is at most the number of
    sensor entries of the archives, is zero in list-only mode, and is that
    number when no copy fails. *)
Theorem process_all_zips_counts :
  forall (listing : filesystem)
         (walk : string -> list (string * list string))
         (archives : string -> option (list string))
         (makedirs : fs_paths -> string -> option fs_paths)
         (copy : fs_paths -> string -> string -> copy_outcome)
         (source_dir dest_base : string)
         (recursive list_only overwrite : bool) (fuel : nat)
         (fs fs' : fs_paths) (processed extracted : nat),
    process_all_zips listing walk archives makedirs copy source_dir dest_base
                     recursive list_only overwrite fuel fs
    = Ended (Some (processed, extracted), fs') ->
    processed
    = List.length (list_zip_files_in_dir listing walk source_dir recursive)
    /\ extracted
       <= list_sum (map (fun zf => List.length (sensor_entries archives zf))
                        (list_zip_files_in_dir listing walk source_dir
                                               recursive))
    /\ (list_only = true -> extracted = 0)
    /\ (list_only = false ->
        (forall fs entry target, copy fs entry target = Copied) ->
        extracted
        = list_sum (map (fun zf => List.length (sensor_entries archives zf))
                        (list_zip_files_in_dir listing walk source_dir
                                               recursive))).
Proof.
  intros listing walk archives makedirs copy src dest recursive list_only
         overwrite fuel fs fs' processed extracted.
  unfold process_all_zips.
  destruct (list_zip_files_in_dir listing walk src recursive) as [|zf zips].
  - simpl. intros [= <- <- <-]. repeat split; intros; lia.
  - cbn [is_nil]. intros H.
    apply process_loop_counts in H as (-> & H1 & H2 & H3 & H4).
    repeat split; auto.
Qed.

Lemma process_all_zips_counts_witness :
  2 = List.length
        (list_zip_files_in_dir
           {| listdir := fun _ => ["b.zip"; "a.ZIP"; "readme.md"];
              isfile := fun _ => true |} (fun _ => []) "in" false).
Proof.
  apply (process_all_zips_counts
           {| listdir := fun _ => ["b.zip"; "a.ZIP"; "readme.md"];
              isfile := fun _ => true |} (fun _ => [])
           (fun zf => if String.eqb zf "in/a.ZIP" then None
                      else Some ["s/Accelerometer.csv"; "s/"; "s/notes.txt"])
           (fun fs d => Some (d :: fs)) (fun _ _ _ => Copied)
           "in" "out" false false false 5 [] _ 2 1 eq_refl).
Defined.

(** ** The two collision policies *)

Lemma prefix_slash_plain b x :
  all_chars not_slash b = true -> prefix "/" (b ++ String "_" x) = false.
Proof.
  destruct b as [|c b]; cbn [append all_chars]; [reflexivity|].
  intros H. apply andb_prop in H as [Hc _].
  unfold not_slash in Hc. apply negb_true_iff in Hc.
  rewrite prefix_cons, Ascii.eqb_sym, Hc. reflexivity.
Qed.

Lemma prefix_slash_plain_name b :
  all_chars not_slash b = true -> prefix "/" b = false.
Proof.
  destruct b as [|c b]; cbn [append all_chars]; [reflexivity|].
  intros H. apply andb_prop in H as [Hc _].
  unfold not_slash in Hc. apply negb_true_iff in Hc.
  rewrite prefix_cons, Ascii.eqb_sym, Hc. reflexivity.
Qed.

(** Joining a plain name to a directory puts a prefix in front of it, empty
    or ending with a slash. *)
Lemma path_join_plain d :
  exists P,
    (P = EmptyString \/ exists P', P = (P' ++ "/")%string)
    /\ forall b, prefix "/" b = false -> path_join d b = (P ++ b)%string.
Proof.
  unfold path_join.
  destruct (PyStr.is_empty d) eqn:Ed.
  - apply is_empty_eq in Ed. subst d. exists EmptyString. split; auto.
    intros b ->. reflexivity.
  - cbn [orb]. destruct (PyStr.endswith d "/") eqn:Es.
    + exists d. split.
      * right. now apply endswith_split.
      * intros b ->. reflexivity.
    + exists (d ++ "/")%string. split; [right; eauto|].
      intros b ->. now rewrite append_assoc.
Qed.

Lemma split_prefixed P b :
  P = EmptyString \/ (exists P', P = (P' ++ "/")%string) ->
  all_chars not_slash b = true ->
  basename (P ++ b) = b /\ dirpart (P ++ b) = P.
Proof.
  intros [->|[P' ->]] Hb; unfold basename, dirpart.
  - simpl. now rewrite (rsplit_char_none "/" b Hb).
  - rewrite append_assoc. cbn [append].
    now rewrite (rsplit_char_app "/" P' b Hb).
Qed.

Lemma splitext_prefixed P b :
  P = EmptyString \/ (exists P', P = (P' ++ "/")%string) ->
  all_chars not_slash b = true ->
  splitext (P ++ b) = ((P ++ fst (splitext b))%string, snd (splitext b)).
Proof.
  intros HP Hb.
  destruct (split_prefixed P b HP Hb) as [EB ED].
  destruct (split_prefixed EmptyString b (or_introl eq_refl) Hb) as [EB0 ED0].
  simpl in EB0, ED0.
  unfold splitext. rewrite EB, ED, EB0, ED0.
  destruct (rsplit_char "." b) as [[pre suf]|]; [|reflexivity].
  destruct (all_chars is_dot pre); reflexivity.
Qed.

Lemma splitext_base_plain b :
  all_chars not_slash b = true ->
  all_chars not_slash (fst (splitext b)) = true.
Proof.
  intros Hb. unfold splitext.
  rewrite (basename_plain b Hb).
  destruct (rsplit_char "." b) as [[pre suf]|] eqn:R; [|exact Hb].
  destruct (all_chars is_dot pre); [exact Hb|]. cbn [fst].
  unfold dirpart. rewrite (rsplit_char_none "/" b Hb). simpl.
  apply rsplit_char_some in R as [-> _].
  rewrite all_chars_app in Hb. now apply andb_prop in Hb as [Hpre _].
Qed.

Lemma first_free_ext ex cand cand' fuel i :
  (forall k, i <= k -> cand k = cand' k) ->
  first_free ex cand fuel i = first_free ex cand' fuel i.
Proof.
  revert i. induction fuel as [|fuel IH]; intros i H; simpl; auto.
  rewrite <- (H i) by lia. destruct (ex (cand i)); auto.
  apply IH. intros k Hk. apply H. lia.
Qed.

(** X18: the two scripts resolve a name collision in the same way: for a
    plain file name, [make_unique_path] on the name joined to a directory
    returns what [unique_target_path] returns for that directory and that
    name ([unique_target_path] spends one more test, on the name itself). *)
Theorem make_unique_path_unique_target_path :
  forall (ex : string -> bool) (dest_dir name : string) (fuel : nat),
    all_chars not_slash name = true ->
    make_unique_path ex (path_join dest_dir name) false fuel
    = unique_target_path ex dest_dir name false (S fuel).
Proof.
  intros ex d b fuel Hb.
  destruct (path_join_plain d) as (P & HP & Hjoin).
  unfold make_unique_path, unique_target_path.
  cbn [orb first_free target_candidate].
  destruct (ex (path_join d b)); cbn [negb]; [|reflexivity].
  rewrite (Hjoin b) by now apply prefix_slash_plain_name.
  rewrite (splitext_prefixed P b HP Hb).
  apply first_free_ext. intros k Hk.
  unfold target_candidate. destruct k as [|k]; [lia|].
  destruct (splitext b) as [base ext] eqn:S. cbn [fst snd].
  unfold numbered at 2.
  rewrite Hjoin.
  - unfold numbered. now rewrite append_assoc.
  - apply prefix_slash_plain.
    pose proof (splitext_base_plain b Hb) as H. now rewrite S in H.
Qed.

Lemma make_unique_path_unique_target_path_witness :
  make_unique_path example_exists
    (path_join "out" "walking_combined.csv") false 2
  = unique_target_path example_exists "out" "walking_combined.csv" false 3.
Proof.
  apply (make_unique_path_unique_target_path example_exists
           "out" "walking_combined.csv" 2).
  reflexivity.
Defined.
